(** * unifiedparsing: annotation resolution and loss/metric accounting

    A shallow embedding of the PASCAL-Part annotation decoder
    ([broden_dataset_utils/pascalseg.py]) and of the loss and metric
    accounting of the segmentation module ([models/models.py]), with the
    properties the specification states about them. *)

From Stdlib Require Import ZArith QArith Ascii String DecimalString Lia.
From stdpp Require Import base option list gmap strings sorting.

Set Default Proof Using "Type".
Local Open Scope string_scope.
Local Open Scope list_scope.

(** ** Exceptions

    A call either returns a value or raises; [Raise] carries the class of the
    exception. *)

Inductive exn : Set :=
  | ValueError | IndexError | KeyError | NameError | TypeError
  | AttributeError | RuntimeError | SystemExit.

Inductive outcome (A : Type) : Type :=
  | Ok (a : A)
  | Raise (e : exn).
Arguments Ok {A} a.
Arguments Raise {A} e.

Definition bind {A B} (r : outcome A) (k : A → outcome B) : outcome B :=
  match r with
  | Ok a => k a
  | Raise e => Raise e
  end.

Definition rmap {A B} (f : A → B) (r : outcome A) : outcome B :=
  bind r (λ a, Ok (f a)).

Notation "'let?' x := r 'in' k" := (bind r (λ x, k))
  (at level 10, x name, r at level 100, k at level 200,
   format "'[v' 'let?'  x  :=  r  'in'  '/' k ']'").
Notation "'let?' ' p := r 'in' k" := (bind r (λ p, k))
  (at level 10, p strict pattern, r at level 100, k at level 200,
   format "'[v' 'let?'  ' p  :=  r  'in'  '/' k ']'").

Definition is_Ok {A} (r : outcome A) : Prop := ∃ a, r = Ok a.

(** [d[k]] on a dict. *)
Definition getitem `{Countable K} {V} (d : gmap K V) (k : K) : outcome V :=
  match d !! k with
  | Some v => Ok v
  | None => Raise KeyError
  end.

(** A dict whose order of insertion matters is the list of its items:
    [d[k] = v], where a known key keeps its place, and [d[k]]. *)
Fixpoint od_setitem {K V} `{EqDecision K} (d : list (K * V)) (k : K) (v : V)
  : list (K * V) :=
  match d with
  | [] => [(k, v)]
  | (k', v') :: d' =>
      if decide (k' = k) then (k, v) :: d' else (k', v') :: od_setitem d' k v
  end.

Fixpoint od_getitem {K V} `{EqDecision K} (d : list (K * V)) (k : K)
  : outcome V :=
  match d with
  | [] => Raise KeyError
  | (k', v') :: d' => if decide (k' = k) then Ok v' else od_getitem d' k
  end.

(** A name that is read before it was bound raises [NameError]. *)
Definition bound {A} (x : option A) : outcome A :=
  match x with
  | Some a => Ok a
  | None => Raise NameError
  end.

(** The position a (possibly negative) index denotes in a list of length [n]. *)
Definition py_index (n : nat) (i : Z) : outcome nat :=
  if bool_decide (0 ≤ i < Z.of_nat n)%Z then Ok (Z.to_nat i)
  else if bool_decide (- Z.of_nat n ≤ i < 0)%Z then Ok (Z.to_nat (Z.of_nat n + i))
  else Raise IndexError.

(** [l[i]] and [l[i] = x] on a list. *)
Definition list_getitem {A} (l : list A) (i : Z) : outcome A :=
  let? j := py_index (length l) i in
  match l !! j with
  | Some x => Ok x
  | None => Raise IndexError
  end.

Definition list_setitem {A} (l : list A) (i : Z) (x : A) : outcome (list A) :=
  let? j := py_index (length l) i in
  Ok (<[j := x]> l).

(** [for x in xs: st = body(st, x)], stopping at the first exception. *)
Fixpoint for_each {S X} (body : S → X → outcome S) (xs : list X) (st : S)
  : outcome S :=
  match xs with
  | [] => Ok st
  | x :: xs' => let? st' := body st x in for_each body xs' st'
  end.

(** ** Python strings

    A [str] is modelled as a [string] whose characters are the code points
    below 256; the operations are written on the list of characters. *)

Module PyStr.

Abbreviation chars := list_ascii_of_string.
Abbreviation of_chars := string_of_list_ascii.

Fixpoint is_prefix (p s : list ascii) : bool :=
  match p, s with
  | [], _ => true
  | _ :: _, [] => false
  | a :: p', b :: s' => bool_decide (a = b) && is_prefix p' s'
  end.

(** [old in s] for strings: some suffix of [s] starts with [old]. *)
Fixpoint contains_l (old s : list ascii) : bool :=
  is_prefix old s ||
  match s with
  | [] => false
  | _ :: s' => contains_l old s'
  end.

(** [s.replace(old, new)] for a non-empty [old]: the occurrences of [old] are
    found from left to right and do not overlap; [skip] counts the characters
    of a found occurrence that are still to be passed over. *)
Fixpoint replace_go (old new : list ascii) (skip : nat) (s : list ascii)
  : list ascii :=
  match s with
  | [] => []
  | c :: s' =>
      match skip with
      | S k => replace_go old new k s'
      | O =>
          if is_prefix old s
          then new ++ replace_go old new (length old - 1) s'
          else c :: replace_go old new 0 s'
      end
  end.

Definition replace_l (old new s : list ascii) : list ascii :=
  replace_go old new 0 s.

(** [str.isspace] on the code points below 256. *)
Definition isspace (c : ascii) : bool :=
  let n := nat_of_ascii c in
  (((9 <=? n) && (n <=? 13)) || ((28 <=? n) && (n <=? 32))
   || (n =? 133) || (n =? 160))%nat.

Definition flush (cur : list ascii) : list (list ascii) :=
  match cur with
  | [] => []
  | _ :: _ => [rev cur]
  end.

(** [s.split()]: the maximal runs of characters that are not white space;
    [cur] is the run being read, last character first. *)
Fixpoint split_go (cur s : list ascii) : list (list ascii) :=
  match s with
  | [] => flush cur
  | c :: s' =>
      if isspace c then flush cur ++ split_go [] s'
      else split_go (c :: cur) s'
  end.

Definition split_l (s : list ascii) : list (list ascii) := split_go [] s.

(** [sep.join(ws)] *)
Fixpoint join_l (sep : list ascii) (ws : list (list ascii)) : list ascii :=
  match ws with
  | [] => []
  | [w] => w
  | w :: ws' => w ++ sep ++ join_l sep ws'
  end.

(** The suffixes of a string, longest first. *)
Fixpoint tails (s : list ascii) : list (list ascii) :=
  s :: match s with
       | [] => []
       | _ :: s' => tails s'
       end.

(** The two spellings [normalize_readable] exchanges. *)
Definition aeroplane : list ascii := chars "aeroplane".
Definition airplane : list ascii := chars "airplane".
Abbreviation respell := (replace_l aeroplane airplane).


(** A line as [readlines] gives it: the text and its newline. *)
Definition line (text : string) : string := text +:+ String "010"%char "".

Definition contains (old s : string) : bool := contains_l (chars old) (chars s).

Definition replace (old new s : string) : string :=
  of_chars (replace_l (chars old) (chars new) (chars s)).

Definition split (s : string) : list string := of_chars <$> split_l (chars s).

Definition join (sep : string) (ws : list string) : string :=
  of_chars (join_l (chars sep) (chars <$> ws)).

(** [s.strip()]: without the white space at its two ends. *)
Fixpoint lstrip_l (s : list ascii) : list ascii :=
  match s with
  | [] => []
  | c :: s' => if isspace c then lstrip_l s' else s
  end.

Definition strip_l (s : list ascii) : list ascii :=
  rev (lstrip_l (rev (lstrip_l s))).

Definition strip (s : string) : string := of_chars (strip_l (chars s)).

(** [s.split(sep)] for a non-empty [sep]: the pieces between the occurrences
    of [sep], which are found from left to right and do not overlap; [cur] is
    the piece being read, last character first. *)
Fixpoint split_sep_go (sep : list ascii) (skip : nat) (cur s : list ascii)
  : list (list ascii) :=
  match s with
  | [] => [rev cur]
  | c :: s' =>
      match skip with
      | S k => split_sep_go sep k cur s'
      | O =>
          if is_prefix sep s
          then rev cur :: split_sep_go sep (length sep - 1) [] s'
          else split_sep_go sep 0 (c :: cur) s'
      end
  end.

Definition split_sep_l (sep s : list ascii) : list (list ascii) :=
  split_sep_go sep 0 [] s.

Definition split_sep (sep s : string) : list string :=
  of_chars <$> split_sep_l (chars sep) (chars s).

(** The two endings [filename] exchanges. *)
Definition mat : list ascii := chars ".mat".
Definition jpg : list ascii := chars ".jpg".

End PyStr.

(** ** [pascalseg.py]: name normalisation *)

Module PascalSeg.

(** Long names for the short part names that the file leaves unexplained. *)
Definition decoded_names : gmap string string :=
  list_to_map
    [ ("lfho", "left front hoof");
      ("rfho", "right front hoof");
      ("lbho", "left back hoof");
      ("rbho", "right back hoof");
      ("fwheel", "front wheel");
      ("bwheel", "back wheel");
      ("frontside", "front side");
      ("leftside", "left side");
      ("rightside", "right side");
      ("backside", "back side");
      ("roofside", "roof side");
      ("leftmirror", "left mirror");
      ("rightmirror", "right mirror") ].

(** The three steps of [normalize_readable], in source order. *)
Definition decode_name (name : string) : string :=
  match decoded_names !! name with
  | Some long => long
  | None => name
  end.

Definition collapse (collapse_adjectives : option (gset string))
    (name : string) : string :=
  match collapse_adjectives with
  | Some adjectives =>
      PyStr.join " "
        (filter (λ n, n ∉ adjectives) (PyStr.split name))
  | None => name
  end.

Definition normalize_readable (name : string)
    (collapse_adjectives : option (gset string)) : string :=
  let name := decode_name name in
  let name := PyStr.replace "aeroplane" "airplane" name in
  collapse collapse_adjectives name.

Definition normalize_all_readable (raw_keys : gmap (Z * string) (string * string))
    (collapse_adjectives : option (gset string))
  : gmap (Z * string) (string * string) :=
  (λ cp, (normalize_readable cp.1 collapse_adjectives,
          normalize_readable cp.2 collapse_adjectives)) <$> raw_keys.

(** *** [normalize_part_key] *)

(** The order of [sorted] on (object index, part short name) tuples. *)
Definition key_le (k1 k2 : Z * string) : Prop :=
  (k1.1 < k2.1)%Z ∨ (k1.1 = k2.1 ∧ String.le k1.2 k2.2).

Global Instance key_le_dec : RelDecision key_le.
Proof. intros k1 k2. unfold key_le. apply _. Defined.

(** [max] of a generator of integers. *)
Definition py_max (xs : list Z) : outcome Z :=
  match xs with
  | [] => Raise ValueError
  | x :: xs' => Ok (foldl Z.max x xs')
  end.

(** [l.index(x)] *)
Fixpoint list_index (x : string) (l : list string) : outcome nat :=
  match l with
  | [] => Raise ValueError
  | y :: l' => if bool_decide (y = x) then Ok 0%nat else rmap S (list_index x l')
  end.

Record npk_state := {
  object_class_names : list string;
  part_class_names : list string;
  alias_key : gmap (string * string) nat;
  part_key : gmap (Z * string) nat
}.

(** The body of the loop over the sorted keys. *)
Definition npk_body (raw_names : gmap (Z * string) (string * string))
    (st : npk_state) (cp : Z * string) : outcome npk_state :=
  let '(c, p) := cp in
  let? n := getitem raw_names (c, p) in
  let? names := list_setitem (object_class_names st) c n.1 in
  let? '(code, parts, aliases) :=
    match alias_key st !! n with
    | Some code => Ok (code, part_class_names st, alias_key st)
    | None =>
        let? '(code, parts) :=
          (if bool_decide (n.2 ∈ part_class_names st)
           then let? code := list_index n.2 (part_class_names st) in
                Ok (code, part_class_names st)
           else Ok (length (part_class_names st),
                    part_class_names st ++ [n.2])) in
        Ok (code, parts, <[n := code]> (alias_key st))
    end in
  Ok {| object_class_names := names;
        part_class_names := parts;
        alias_key := aliases;
        part_key := <[(c, p) := code]> (part_key st) |}.

(** What the loop keeps true: the part names are pairwise different, every
    alias and every key assigned so far is coded by the position of its part
    name, and the list of object names keeps its length. *)
Record npk_invariant (raw_names : gmap (Z * string) (string * string))
    (count : nat) (st : npk_state) : Prop := {
  inv_nodup : NoDup (part_class_names st);
  inv_alias : ∀ n code, alias_key st !! n = Some code →
                part_class_names st !! code = Some n.2;
  inv_key : ∀ k code, part_key st !! k = Some code →
              ∃ n, raw_names !! k = Some n
                   ∧ part_class_names st !! code = Some n.2;
  inv_count : length (object_class_names st) = count
}.

Definition normalize_part_key (raw_names : gmap (Z * string) (string * string))
  : outcome (list string * list string * gmap (Z * string) nat) :=
  let keys := (map_to_list raw_names).*1 in
  let? m := py_max (keys.*1) in
  let object_class_count := (m + 1)%Z in
  let init := {| object_class_names := replicate (Z.to_nat object_class_count) "-";
                 part_class_names := ["-"];
                 alias_key := ∅;
                 part_key := ∅ |} in
  let? st := for_each (npk_body raw_names) (merge_sort key_le keys) init in
  Ok (object_class_names st, part_class_names st, part_key st).

(** *** Regular expressions of [load_part2ind]

    [re.match] anchors a pattern at the start of the line.  Every pattern of
    the parser is a sequence of literals, greedy character-class runs whose
    following token cannot extend the run, and one optional trailing group;
    each is written out as the scanner it denotes.  Where a pattern is quoted,
    a blank separates a star from a closing parenthesis; it is not part of the
    pattern. *)

Definition is_digit (c : ascii) : bool :=
  let n := nat_of_ascii c in ((48 <=? n) && (n <=? 57))%nat.

(** [\w] on the code points below 256. *)
Definition is_word (c : ascii) : bool :=
  let n := nat_of_ascii c in
  (((48 <=? n) && (n <=? 57)) || ((65 <=? n) && (n <=? 90)) || (n =? 95)
   || ((97 <=? n) && (n <=? 122))
   || (n =? 170) || (n =? 178) || (n =? 179) || (n =? 181) || (n =? 185)
   || (n =? 186) || ((188 <=? n) && (n <=? 190))
   || ((192 <=? n) && (n <=? 214)) || ((216 <=? n) && (n <=? 246))
   || (248 <=? n))%nat.

Definition is_not (x : ascii) (c : ascii) : bool := negb (bool_decide (c = x)).

(** A literal. *)
Definition lit (p : string) (s : list ascii) : option (list ascii) :=
  if PyStr.is_prefix (PyStr.chars p) s
  then Some (drop (length (PyStr.chars p)) s) else None.

(** [X*], greedy: the longest run of [X], and what follows it. *)
Fixpoint span (P : ascii → bool) (s : list ascii) : list ascii * list ascii :=
  match s with
  | [] => ([], [])
  | c :: s' =>
      if P c then let '(run, rest) := span P s' in (c :: run, rest)
      else ([], s)
  end.

(** [\s*] *)
Definition spaces (s : list ascii) : list ascii := (span PyStr.isspace s).2.

(** [(\d+)] *)
Definition digits (s : list ascii) : option (list ascii * list ascii) :=
  match span is_digit s with
  | ([], _) => None
  | r => Some r
  end.

(** [int(g)] for a group matched by [\d+]. *)
Definition int (g : list ascii) : Z :=
  foldl (λ acc c, acc * 10 + (Z.of_nat (nat_of_ascii c) - 48))%Z 0%Z g.

(** ['%d' % n] for [n ≥ 0]. *)
Definition format_d (n : nat) : string :=
  NilEmpty.string_of_uint (Nat.to_uint n).

Fixpoint drop_while (P : ascii → bool) (s : list ascii) : list ascii :=
  match s with
  | [] => []
  | c :: s' => if P c then drop_while P s' else s
  end.

(** [(?:\s*%\s*(\w[\w ]*\w))?] at the end of a pattern: the group is the
    longest run of word characters and blanks that starts and ends with a word
    character and has at least two characters; [None] when there is none. *)
Definition trailing_comment (s : list ascii) : option string :=
  s ← lit "%" (spaces s);
  match spaces s with
  | c :: s' =>
      if is_word c then
        let run := (span (λ x, is_word x || bool_decide (x = " "%char)) s').1 in
        match rev (drop_while (λ x, negb (is_word x)) (rev run)) with
        | [] => None
        | body => Some (PyStr.of_chars (c :: body))
        end
      else None
  | [] => None
  end.

(** [^% \[([^\]]* )\]] *)
Definition re_object (line : list ascii) : option string :=
  s ← lit "% [" line;
  let '(g1, s) := span (is_not "]") s in
  _ ← lit "]" s;
  Some (PyStr.of_chars g1).

(** [^pimap\{(\d+)\}\('([^']* )'\)\s*=\s*(\d+);(?:\s*%\s*(\w[\w ]*\w))?] *)
Definition re_part (line : list ascii)
  : option (list ascii * string * list ascii * option string) :=
  s ← lit "pimap{" line;
  '(g1, s) ← digits s;
  s ← lit "}('" s;
  let '(g2, s) := span (is_not "'") s in
  s ← lit "')" s;
  s ← lit "=" (spaces s);
  '(g3, s) ← digits (spaces s);
  s ← lit ";" s;
  Some (g1, PyStr.of_chars g2, g3, trailing_comment s).

(** [for ii = 1:(\d+)*]; the group is [None] when no digit follows. *)
Definition re_for (line : list ascii) : option (option (list ascii)) :=
  s ← lit "for ii = 1:" line;
  Some (fst <$> digits s).

(** [^\s*pimap\{(\d+)\}\(sprintf\('([^']* )_%d',\s*ii\)\)\s*=\s*(\d+)\s*\+\s*ii\s*;(?:\s*%\s*(\w[\w ]*\w))?];
    group 2 is the text up to the quote without its ending [_%d]. *)
Definition re_multi (line : list ascii)
  : option (list ascii * string * list ascii * option string) :=
  s ← lit "pimap{" (spaces line);
  '(g1, s) ← digits s;
  s ← lit "}(sprintf('" s;
  let '(run, s) := span (is_not "'") s in
  _ ← lit "d%_" (rev run);
  let g2 := take (length run - 3) run in
  s ← lit "'," s;
  s ← lit "ii))" (spaces s);
  s ← lit "=" (spaces s);
  '(g3, s) ← digits (spaces s);
  s ← lit "+" (spaces s);
  s ← lit "ii" (spaces s);
  s ← lit ";" (spaces s);
  Some (g1, PyStr.of_chars g2, g3, trailing_comment s).

(** [% only has si] *)
Definition re_silhouette (line : list ascii) : bool :=
  bool_decide (is_Some (lit "% only has si" line)).

(** [^(key|value)Set\s*=\s*\1s\(pimap{(\d+)}\);] *)
Definition re_copy_from (line : list ascii) : option (list ascii) :=
  '(g1, s) ← match lit "key" line with
             | Some s => Some ("key", s)
             | None => pair "value" <$> lit "value" line
             end;
  s ← lit "Set" s;
  s ← lit "=" (spaces s);
  s ← lit (g1 +:+ "s(pimap{") (spaces s);
  '(g2, s) ← digits s;
  _ ← lit "});" s;
  Some g2.

(** [^pimap{(\d+)}\s*=\s*containers.Map\(keySet,\s*valueSet\);], where the
    dot stands for any character but a newline. *)
Definition re_copy_to (line : list ascii) : option (list ascii) :=
  s ← lit "pimap{" line;
  '(g1, s) ← digits s;
  s ← lit "}" s;
  s ← lit "=" (spaces s);
  s ← lit "containers" (spaces s);
  s ← match s with
       | c :: s' => if bool_decide (c = "010"%char) then None else Some s'
       | [] => None
       end;
  s ← lit "Map(keySet," s;
  _ ← lit "valueSet);" (spaces s);
  Some g1.

(** [^(?:function|pimap\ =|\s*pimap\{ii\}|end|\s*%|remove|$)] *)
Definition re_ignored (line : list ascii) : bool :=
  bool_decide (is_Some (lit "function" line))
  || bool_decide (is_Some (lit "pimap =" line))
  || bool_decide (is_Some (lit "pimap{ii}" (spaces line)))
  || bool_decide (is_Some (lit "end" line))
  || bool_decide (is_Some (lit "%" (spaces line)))
  || bool_decide (is_Some (lit "remove" line))
  || bool_decide (line = []) || bool_decide (line = ["010"%char]).

(** *** [load_part2ind] *)

Abbreviation part2ind := (list ((Z * string) * (string * string))).

(** The local variables that live across the lines of the file; a variable is
    [None] until its first assignment. *)
Record p2i_state := {
  object_name : option string;
  iteration_count : option Z;
  object_index : option Z;
  object_to_copy : option Z;
  result : part2ind
}.

Definition set_object_name (v : string) (st : p2i_state) : p2i_state :=
  {| object_name := Some v; iteration_count := iteration_count st;
     object_index := object_index st; object_to_copy := object_to_copy st;
     result := result st |}.
Definition set_iteration_count (v : Z) (st : p2i_state) : p2i_state :=
  {| object_name := object_name st; iteration_count := Some v;
     object_index := object_index st; object_to_copy := object_to_copy st;
     result := result st |}.
Definition set_object_index (v : Z) (st : p2i_state) : p2i_state :=
  {| object_name := object_name st; iteration_count := iteration_count st;
     object_index := Some v; object_to_copy := object_to_copy st;
     result := result st |}.
Definition set_object_to_copy (v : Z) (st : p2i_state) : p2i_state :=
  {| object_name := object_name st; iteration_count := iteration_count st;
     object_index := object_index st; object_to_copy := Some v;
     result := result st |}.
Definition set_result (v : part2ind) (st : p2i_state) : p2i_state :=
  {| object_name := object_name st; iteration_count := iteration_count st;
     object_index := object_index st; object_to_copy := object_to_copy st;
     result := v |}.

(** [result[key] = (object_name, readable_name)] *)
Definition p2i_store (key : Z * string) (readable_name : string)
    (st : p2i_state) : outcome p2i_state :=
  let? name := bound (object_name st) in
  Ok (set_result (od_setitem (result st) key (name, readable_name)) st).

(** The body of [for (other_obj, part_index), val in list(result.items())]. *)
Definition p2i_copy (object_index : Z) (st : p2i_state)
    (item : (Z * string) * (string * string)) : outcome p2i_state :=
  let '((other_obj, part_index), val) := item in
  let? from := bound (object_to_copy st) in
  if bool_decide (other_obj = from)
  then p2i_store (object_index, part_index) val.2 st
  else Ok st.

(** The part of the loop body after the silhouette pattern. *)
Definition p2i_rest (line : list ascii) (st : p2i_state) : outcome p2i_state :=
  match re_copy_from line with
  | Some g2 => Ok (set_object_to_copy (int g2) st)
  | None =>
  match re_copy_to line with
  | Some g1 =>
      let st := set_object_index (int g1) st in
      for_each (p2i_copy (int g1)) (result st) st
  | None =>
  if re_ignored line then Ok st
  else Raise SystemExit
  end end.

(** The loop body, one line of the file. *)
Definition p2i_line (st : p2i_state) (line : string) : outcome p2i_state :=
  let line := PyStr.chars line in
  match re_object line with
  | Some g1 => Ok (set_object_name g1 st)
  | None =>
  match re_part line with
  | Some (g1, g2, g3, g4) =>
      let part_name := g2 in
      let readable_name := default part_name g4 in
      let st := set_object_index (int g1) st in
      p2i_store (int g1, part_name) readable_name st
  | None =>
  match re_for line with
  | Some g1 =>
      match g1 with
      | Some g1 => Ok (set_iteration_count (int g1) st)
      | None => Raise TypeError
      end
  | None =>
  match re_multi line with
  | Some (g1, g2, g3, g4) =>
      let part_name := g2 in
      let readable_name :=
        match g4 with
        | Some g4 => if PyStr.contains "multiple" g4 then part_name else g4
        | None => part_name
        end in
      let st := set_object_index (int g1) st in
      let? count := bound (iteration_count st) in
      for_each
        (λ st part_index,
           p2i_store (int g1, part_name +:+ "_" +:+ format_d part_index)
             readable_name st)
        (seq 1 (Z.to_nat count)) st
  | None =>
      if re_silhouette line then
        let? index := bound (object_index st) in
        let st := set_object_index (index + 1) st in
        let? st := p2i_store ((index + 1)%Z, "silhouette") "silhouette" st in
        p2i_rest line st
      else p2i_rest line st
  end end end end.

(** [lines] is what [readlines] returns: the lines of the file, each with its
    newline. *)
Definition load_part2ind (lines : list string) : outcome part2ind :=
  let init := {| object_name := None; iteration_count := None;
                 object_index := None; object_to_copy := None;
                 result := [] |} in
  let? st := for_each p2i_line lines init in
  Ok (result st).

(** The names a line of the file introduces: a part's short name with its
    readable name. *)
Inductive introduces (line : string) : string → string → Prop :=
  | introduces_part g1 g2 g3 g4 :
      re_part (PyStr.chars line) = Some (g1, g2, g3, g4) →
      introduces line g2 (default g2 g4)
  | introduces_multi g1 g2 g3 g4 (i : nat) :
      re_multi (PyStr.chars line) = Some (g1, g2, g3, g4) →
      introduces line (g2 +:+ "_" +:+ format_d i)
        match g4 with
        | Some g4 => if PyStr.contains "multiple" g4 then g2 else g4
        | None => g2
        end
  | introduces_silhouette :
      re_silhouette (PyStr.chars line) = true →
      introduces line "silhouette" "silhouette".

(** An entry of the table that comes from the lines of the file: a
    non-negative object index and a part's short name, with the name of an
    object header and the part's readable name. *)
Definition entry_of (lines : list string)
    (entry : (Z * string) * (string * string)) : Prop :=
  let '((object_index, part_name), (object_name, readable_name)) := entry in
  (0 ≤ object_index)%Z
  ∧ (∃ line, line ∈ lines ∧ re_object (PyStr.chars line) = Some object_name)
  ∧ (∃ line, line ∈ lines ∧ introduces line part_name readable_name).

(** What the loop over the lines keeps true. *)
Record p2i_invariant (lines : list string) (st : p2i_state) : Prop := {
  inv_object_name : ∀ name, object_name st = Some name →
    ∃ line, line ∈ lines ∧ re_object (PyStr.chars line) = Some name;
  inv_object_index : ∀ index, object_index st = Some index → (0 ≤ index)%Z;
  inv_result : Forall (entry_of lines) (result st)
}.

(** The file of the witness and of the counterexample: an object header and
    the line of the left wing, part number 3. *)
Definition wing_file : list string :=
  [ PyStr.line "% [aeroplane]";
    PyStr.line "pimap{1}('lwing')       = 3;                % left wing" ].




(** *** Arrays and annotation files *)

(** [numpy.int16(v)]: a stored value keeps its low 16 bits, signed. *)
Definition int16 (v : Z) : Z := ((v + 32768) mod 65536 - 32768)%Z.

(** A two-dimensional array, its elements in row-major order. *)
Record ndarray := {
  shape : nat * nat;
  data : list Z
}.

Definition numel (sh : nat * nat) : nat := (sh.1 * sh.2)%nat.

(** [numpy.zeros(sh, dtype=numpy.int16)] *)
Definition zeros (sh : nat * nat) : ndarray :=
  {| shape := sh; data := replicate (numel sh) 0%Z |}.

(** [arr[mask.astype(numpy.bool)] = v] on an [int16] array: a boolean index
    has to have the shape of the array. *)
Definition masked_assign (arr mask : ndarray) (v : Z) : outcome ndarray :=
  if bool_decide (shape mask = shape arr)
  then Ok {| shape := shape arr;
             data := zip_with (λ m old, if bool_decide (m ≠ 0%Z) then int16 v else old)
                       (data mask) (data arr) |}
  else Raise IndexError.

(** What a name of the annotation code is bound to: a number or an array. *)
Inductive pyarr :=
  | Scalar (z : Z)
  | Array (a : ndarray).

(** One element of [obj['parts']] and of [d['anno'][0, 0]['objects']]. *)
Record part_anno := {
  part_name : string;
  part_mask : ndarray
}.

Record object_anno := {
  class_ind : Z;
  mask : ndarray;
  parts : list part_anno
}.

(** The variables of a [.mat] file that the code reads. *)
Record mat_file := {
  anno : option (list object_anno);
  LabelMap : option ndarray
}.

(** *** The store

    [part_key] is a dict object that the dataset instance, every metadata
    tuple and the annotation loader share by reference. *)

Definition ref := positive.
Abbreviation heap := (gmap ref (gmap (Z * string) nat)).
Definition io (A : Type) : Type := heap → outcome A * heap.

Definition io_ret {A} (a : A) : io A := λ h, (Ok a, h).
Definition io_lift {A} (r : outcome A) : io A := λ h, (r, h).
Definition io_bind {A B} (m : io A) (k : A → io B) : io B := λ h,
  match m h with
  | (Ok a, h') => k a h'
  | (Raise e, h') => (Raise e, h')
  end.

Notation "'do!' x := m 'in' k" := (io_bind m (λ x, k))
  (at level 10, x name, m at level 100, k at level 200,
   format "'[v' 'do!'  x  :=  m  'in'  '/' k ']'").
Notation "'do!' ' p := m 'in' k" := (io_bind m (λ p, k))
  (at level 10, p strict pattern, m at level 100, k at level 200,
   format "'[v' 'do!'  ' p  :=  m  'in'  '/' k ']'").

(** A computation that leaves every object of the store as it found it. *)
Definition read_only {A} (m : io A) : Prop := ∀ h, (m h).2 = h.

(** [d[k]] on the dict object at [r]. *)
Definition dict_getitem (r : ref) (k : Z * string) : io nat := λ h,
  match h !! r with
  | Some d => (getitem d k, h)
  | None => (Raise TypeError, h)
  end.

Fixpoint io_for_each {S X} (body : S → X → io S) (xs : list X) (st : S)
  : io S :=
  match xs with
  | [] => io_ret st
  | x :: xs' => do! st' := body st x in io_for_each body xs' st'
  end.

(** [os.path.join(a, *p)] on POSIX. *)
Definition path_join (a : string) (p : list string) : string :=
  foldl (λ path b,
           if PyStr.is_prefix ["/"%char] (PyStr.chars b) then b
           else if bool_decide (path = "")
                   || PyStr.is_prefix ["/"%char] (rev (PyStr.chars path))
                then path +:+ b
                else path +:+ "/" +:+ b) a p.

Definition wants (what : string) (option : option (list string)) : bool :=
  match option with
  | None => true
  | Some option => bool_decide (what ∈ option)
  end.

(** [a] has as many elements as its shape says. *)
Definition well_formed (a : ndarray) : Prop := length (data a) = numel (shape a).

(** The mask is set at the element [j], counted in row-major order. *)
Definition covers (mask : ndarray) (j : nat) : Prop :=
  ∃ m, data mask !! j = Some m ∧ m ≠ 0%Z.

(** An annotation that can be merged into two layers of shape [sh] with the
    codes of [part_key]: every mask is a well-formed array of that shape and
    every part of every instance has a code. *)
Definition annotation_ok (part_key : gmap (Z * string) nat) (sh : nat * nat)
    (objects : list object_anno) : Prop :=
  Forall (λ obj,
            shape (mask obj) = sh ∧ well_formed (mask obj)
            ∧ Forall (λ part,
                        shape (part_mask part) = sh
                        ∧ well_formed (part_mask part)
                        ∧ is_Some (part_key !! (class_ind obj, part_name part)))
                (parts obj))
    objects.

(** The elements of a layer after the masks of [layers] were assigned their
    values, one after the other. *)
Definition paint (arr : list Z) (layers : list (list Z * Z)) : list Z :=
  foldl (λ acc layer,
           zip_with (λ m old, if bool_decide (m ≠ 0%Z) then int16 layer.2 else old)
             layer.1 acc)
    arr layers.

Definition object_layer (obj : object_anno) : list Z * Z :=
  (data (mask obj), class_ind obj).

Definition part_layers (part_key : gmap (Z * string) nat) (obj : object_anno)
  : list (list Z * Z) :=
  (λ part, (data (part_mask part),
            Z.of_nat (default 0%nat (part_key !! (class_ind obj, part_name part)))))
    <$> parts obj.

(** A file of one instance, whose only part has a name without code, and a
    file of one instance with one part, on a row of two elements. *)
Definition row (xs : list Z) : ndarray := {| shape := (1, 2)%nat; data := xs |}.

Definition tail_only : list object_anno :=
  [ {| class_ind := 3; mask := row [1; 1]%Z;
       parts := [ {| part_name := "tail"; part_mask := row [0; 1]%Z |} ] |} ].

Definition wing_key : gmap (Z * string) nat := {[ (3%Z, "tail") := 7%nat ]}.

(** The body of the loop over the parts of an instance and the body of the
    loop over the instances. *)
Definition merge_part (part_key : ref) (object_ind : Z) (part_seg : ndarray)
    (part : part_anno) : io ndarray :=
  do! part_code := dict_getitem part_key (object_ind, part_name part) in
  io_lift (masked_assign part_seg (part_mask part) (Z.of_nat part_code)).

Definition merge_instance (part_key : ref) (segs : ndarray * ndarray)
    (obj : object_anno) : io (ndarray * ndarray) :=
  let '(object_seg, part_seg) := segs in
  let object_ind := class_ind obj in
  do! object_seg := io_lift (masked_assign object_seg (mask obj) object_ind) in
  do! part_seg := io_for_each (merge_part part_key object_ind) (parts obj) part_seg in
  io_ret (object_seg, part_seg).

Section files.

(** [scipy.io.loadmat], the content of the files of the dataset. *)
Variable loadmat : string → outcome mat_file.

(** *** [load_parts_segmentation] *)

Definition load_parts_segmentation (filename : string) (part_key : ref)
  : io (pyarr * pyarr) :=
  do! d := io_lift (loadmat filename) in
  do! objects := io_lift (match anno d with
                          | Some objects => Ok objects
                          | None => Raise KeyError
                          end) in
  match objects with
  | [] => io_ret (Scalar 0, Scalar 0)
  | first :: _ =>
      let mask_shape := shape (mask first) in
      let object_seg := zeros mask_shape in
      let part_seg := zeros mask_shape in
      do! '(object_seg, part_seg) :=
        io_for_each (merge_instance part_key) objects (object_seg, part_seg) in
      io_ret (Array object_seg, Array part_seg)
  end.

(** *** [PascalSegmentation] *)

(** The attributes of an instance; [segs] stays unset when the annotation
    directory could not be listed. *)
Record PascalSegmentation := {
  directory : string;
  version : string;
  partdir : string;
  contextdir : string;
  collapse_adjectives : option (gset string);
  codes : gmap (Z * string) (string * string);
  part_object_names : list string;
  part_names : list string;
  self_part_key : ref;
  object_names : list string;
  unknown_label : nat;
  segs : option (list string)
}.

Definition metadata (self : PascalSegmentation) (i : Z)
  : outcome (string * string * string * ref * string) :=
  let? segs := match segs self with
               | Some segs => Ok segs
               | None => Raise AttributeError
               end in
  let? seg := list_getitem segs i in
  Ok (directory self, partdir self, contextdir self, self_part_key self, seg).

Definition resolve_segmentation (m : string * string * string * ref * string)
    (categories : option (list string))
  : io (list (string * pyarr) * (nat * nat)) :=
  let '(directory, partdir, contextdir, part_key, seg_fn) := m in
  let result := [] in
  do! result :=
    (if wants "part" categories then
       do! '(objs, parts) :=
         load_parts_segmentation
           (path_join directory [partdir; "Annotations_Part"; seg_fn]) part_key in
       io_ret (od_setitem result "part" parts)
     else io_ret result) in
  do! result :=
    (if wants "object" categories then
       do! d := io_lift (loadmat (path_join directory [contextdir; "trainval"; seg_fn])) in
       do! label_map := io_lift (match LabelMap d with
                                 | Some a => Ok a
                                 | None => Raise KeyError
                                 end) in
       io_ret (od_setitem result "object" (Array label_map))
     else io_ret result) in
  let arrs := omap (λ a, match a.2 with Array a => Some a | Scalar _ => None end)
                result in
  let shape := match arrs with
               | a :: _ => shape a
               | [] => (1, 1)%nat
               end in
  io_ret (result, shape).

End files.

(** A dataset of two annotation files, and the files: every annotation is
    [tail_only], every context label map a row. *)
Definition two_files : PascalSegmentation :=
  {| directory := "/data/pascal"; version := "VOC2010"; partdir := "part";
     contextdir := "context"; collapse_adjectives := None; codes := ∅;
     part_object_names := []; part_names := []; self_part_key := 1%positive;
     object_names := []; unknown_label := 0;
     segs := Some ["2008_000001.mat"; "2008_000002.mat"] |}.

Definition tail_files (filename : string) : outcome mat_file :=
  Ok {| anno := Some tail_only; LabelMap := Some (row [5; 6]%Z) |}.

(** *** More about [normalize_part_key] and [load_part2ind] *)

(** What the loop of [normalize_part_key] keeps true besides: the names it
    collects come from the keys it has seen ([seen]) and nothing else. *)
Record npk_extent (raw_names : gmap (Z * string) (string * string))
    (seen : list (Z * string)) (st : npk_state) : Prop := {
  ext_head : part_class_names st !! 0%nat = Some "-";
  ext_parts : ∀ x, x ∈ part_class_names st →
    x = "-" ∨ ∃ k n, raw_names !! k = Some n ∧ n.2 = x;
  ext_keys : ∀ k, is_Some (part_key st !! k) ↔ k ∈ seen;
  ext_objects : ∀ j x, object_class_names st !! j = Some x →
    x = "-" ∨ ∃ p n, raw_names !! (Z.of_nat j, p) = Some n ∧ n.1 = x;
  ext_named : ∀ c p, (c, p) ∈ seen →
    ∃ p' n', raw_names !! (c, p') = Some n'
             ∧ object_class_names st !! Z.to_nat c = Some n'.1
}.

(** [dict(items)]: a later item of a key replaces an earlier one. *)
Definition dict_of_items `{Countable K} {V} (items : list (K * V)) : gmap K V :=
  foldl (λ d kv, <[kv.1 := kv.2]> d) ∅ items.

(** The first character of a line that no pattern of [load_part2ind] can
    match. *)
Definition foreign (c : ascii) : Prop :=
  PyStr.isspace c = false
  ∧ c ∉ ["%"; "p"; "f"; "e"; "r"; "k"; "v"]%char.

(** The state of [load_part2ind] before the first line. *)
Definition p2i_init : p2i_state :=
  {| object_name := None; iteration_count := None; object_index := None;
     object_to_copy := None; result := [] |}.

(** What the copy loop does to the table: every item of the object [from] is
    stored again under the object [to], with the current object name. *)
Definition copied (from to : Z) (name : string) (items table : part2ind)
  : part2ind :=
  foldl (λ d item,
           if bool_decide (item.1.1 = from)
           then od_setitem d (to, item.1.2) (name, item.2.2) else d)
    table items.

(** What the loop over the part numbers does to the table. *)
Definition numbered (c : Z) (base : string) (value : string * string)
    (indices : list nat) (table : part2ind) : part2ind :=
  foldl (λ d i, od_setitem d (c, base +:+ "_" +:+ format_d i) value) table indices.

(** *** [load_context_labels] *)

(** The white space [int] skips at the two ends of a string. *)
Definition int_space (c : ascii) : bool :=
  let n := nat_of_ascii c in
  (((9 <=? n) && (n <=? 13)) || (n =? 32) || (n =? 133) || (n =? 160))%nat.

Fixpoint int_lstrip (s : list ascii) : list ascii :=
  match s with
  | [] => []
  | c :: s' => if int_space c then int_lstrip s' else s
  end.

(** Digits with single underscores between them; [after_digit] tells whether
    the character before was a digit. *)
Fixpoint digit_groups (after_digit : bool) (s : list ascii) : bool :=
  match s with
  | [] => after_digit
  | c :: s' =>
      if is_digit c then digit_groups true s'
      else if bool_decide (c = "_"%char) then after_digit && digit_groups false s'
      else false
  end.

(** The most digits [int] converts, by the interpreter's default setting. *)
Definition int_max_str_digits : nat := 4300.

(** [int(s)] for a string: white space, an optional sign, the digits, white
    space. *)
Definition py_int (s : string) : outcome Z :=
  let s := rev (int_lstrip (rev (int_lstrip (PyStr.chars s)))) in
  let '(sign, s) := match s with
                    | "+"%char :: s' => (1%Z, s')
                    | "-"%char :: s' => ((-1)%Z, s')
                    | _ => (1%Z, s)
                    end in
  let ds := filter (λ c, is_digit c = true) s in
  if digit_groups false s && (length ds <=? int_max_str_digits)%nat
  then Ok (sign * int ds)%Z
  else Raise ValueError.

(** The unpacking [i, n] of the pieces of a line, with [int(i)]. *)
Definition context_pair (pieces : list string) : outcome (Z * string) :=
  match pieces with
  | [i; n] => let? i := py_int i in Ok (i, n)
  | _ => Raise ValueError
  end.

(** [lines] is what [readlines] returns. *)
Definition load_context_labels (lines : list string) : outcome (list string) :=
  let lines := (λ s, PyStr.split_sep ": " (PyStr.strip s)) <$> lines in
  let? pairs := for_each (λ acc pieces,
                            let? pair := context_pair pieces in
                            Ok (acc ++ [pair])) lines [] in
  let? m := py_max (pairs.*1) in
  let object_names := replicate (Z.to_nat (m + 1)) "-" in
  for_each (λ names '(i, n), list_setitem names i n) pairs object_names.

(** The pieces of a line, and the list after the assignments
    [object_names[i] = n] of the pairs, one after the other. *)
Definition pieces (line : string) : list string :=
  PyStr.split_sep ": " (PyStr.strip line).

Definition assigned (pairs : list (Z * string)) (object_names : list string)
  : list string :=
  foldl (λ names p, <[Z.to_nat p.1 := p.2]> names) object_names pairs.

(** *** The other methods of [PascalSegmentation] *)

Definition all_names (self : PascalSegmentation) (category : string) (j : Z)
  : outcome (list string) :=
  if bool_decide (category = "object") then
    let? n := list_getitem (object_names self) j in Ok [n]
  else if bool_decide (category = "part") then
    let? n := list_getitem (part_names self) j in Ok [n]
  else Raise ValueError.

Definition self_segs (self : PascalSegmentation) : outcome (list string) :=
  match segs self with
  | Some segs => Ok segs
  | None => Raise AttributeError
  end.

Definition size (self : PascalSegmentation) : outcome nat :=
  let? segs := self_segs self in Ok (length segs).

Definition filename (self : PascalSegmentation) (i : Z) : outcome string :=
  let? segs := self_segs self in
  let? seg := list_getitem segs i in
  Ok (path_join (directory self)
        [version self; "JPEGImages"; PyStr.replace ".mat" ".jpg" seg]).

(** *** Small files and datasets *)

(** The two engines and the body of an aeroplane, and the body of a bird. *)
Definition engine_names : gmap (Z * string) (string * string) :=
  list_to_map [ ((1%Z, "engine_1"), ("airplane", "engine"));
                ((1%Z, "engine_2"), ("airplane", "engine"));
                ((1%Z, "body"), ("airplane", "body"));
                ((3%Z, "body"), ("bird", "body")) ].

(** The head of a cow, and the lines that copy the parts of the cow to the
    sheep. *)
Definition copy_file : list string :=
  [ PyStr.line "% [cow]";
    PyStr.line "pimap{10}('head')       = 1;";
    PyStr.line "% [sheep]";
    PyStr.line "keySet = keys(pimap{10});";
    PyStr.line "valueSet = values(pimap{10});" ].

Definition copy_line : string :=
  PyStr.line "pimap{17} = containers.Map(keySet, valueSet);".

(** The ten engines of an aeroplane. *)
Definition engines_file : list string :=
  [ PyStr.line "% [aeroplane]"; PyStr.line "for ii = 1:10" ].

Definition engines_line : string :=
  PyStr.line "    pimap{1}(sprintf('engine_%d', ii)) = 10+ii; % multiple engines".

(** An annotation whose second instance has a mask of another shape. *)
Definition mixed : list object_anno :=
  [ {| class_ind := 3; mask := row [1; 1]%Z; parts := [] |};
    {| class_ind := 4; mask := {| shape := (2, 1)%nat; data := [1; 1]%Z |};
       parts := [] |} ].

Definition mixed_files (filename : string) : outcome mat_file :=
  Ok {| anno := Some mixed; LabelMap := Some (row [5; 6]%Z) |}.

(** The dataset [two_files] with the part names [names]. *)
Definition with_part_names (names : list string) : PascalSegmentation :=
  {| directory := directory two_files; version := version two_files;
     partdir := partdir two_files; contextdir := contextdir two_files;
     collapse_adjectives := None; codes := ∅;
     part_object_names := []; part_names := names;
     self_part_key := self_part_key two_files;
     object_names := []; unknown_label := 0; segs := segs two_files |}.

(** Files whose annotation is one instance without parts. *)
Definition bare_files (filename : string) : outcome mat_file :=
  Ok {| anno := Some [ {| class_ind := 3; mask := row [1; 1]%Z; parts := [] |} ];
        LabelMap := Some (row [5; 6]%Z) |}.

End PascalSeg.

(** ** [loadseg.py]: the defaults of [AbstractSegmentation]

    [name] and [segmentation_data] are written on the methods a subclass
    provides. *)

Module LoadSeg.
Import PascalSeg.

Section AbstractSegmentation.

Context {Self Meta : Type}.
Variable all_names : Self → string → Z → outcome (list string).
Variable metadata : Self → Z → outcome Meta.
Variable resolve_segmentation :
  Meta → option (list string) → io (list (string * pyarr) * (nat * nat)).

Definition name (self : Self) (category : string) (i : Z) : outcome string :=
  let? all_names := all_names self category i in
  Ok (match all_names with
      | first :: _ => first
      | [] => ""
      end).

(** [numpy.asarray] leaves an array as it is and makes a number an array
    without dimension; [c] is not used.  An array of the model has two
    dimensions and a number none, so the test [len(data.shape) >= 3] fails
    and [data] is returned whatever [full] is. *)
Definition segmentation_data (self : Self) (category : string) (i : Z)
    (c : Z) (full : bool) : io pyarr :=
  do! m := io_lift (metadata self i) in
  do! '(segs, segs_shape) := resolve_segmentation m (Some [category]) in
  if bool_decide (category ∉ segs.*1) then io_ret (Scalar 0)
  else
    do! data := io_lift (od_getitem segs category) in
    io_ret data.

End AbstractSegmentation.

End LoadSeg.

(** ** [models.py]: loss and metric accounting

    A tensor of shape (N, ...) is the list of its N samples, a sample the
    list of its elements; a prediction of shape (N, C, ...) carries at every
    element the list of its C class scores.  Integer tensors are [int64];
    float arithmetic is idealised as exact rational arithmetic, with [nan] for
    the mean of no element.  Element-wise operations are modelled on operands
    of one shape and on the broadcast of a per-sample vector; other shapes
    raise. *)

Module Models.

Local Open Scope Q_scope.

Definition int64 (z : Z) : Z := ((z + 2 ^ 63) mod 2 ^ 64 - 2 ^ 63)%Z.

Inductive scalar :=
  | nan
  | fin (q : Q).

Definition scalar_add (a b : scalar) : scalar :=
  match a, b with
  | fin x, fin y => fin (x + y)
  | _, _ => nan
  end.

Definition scalar_mul (a : scalar) (k : Q) : scalar :=
  match a with
  | fin x => fin (x * k)
  | nan => nan
  end.

(** An element-wise operation on two tensors of one shape. *)
Definition zip_rows {A B C} (f : A → B → C) (a : list (list A))
    (b : list (list B)) : outcome (list (list C)) :=
  if bool_decide (length <$> a = length <$> b)
  then Ok (zip_with (zip_with f) a b)
  else Raise RuntimeError.

(** An element-wise operation on two vectors, one of which may have a single
    element. *)
Definition zip_vec {A B C} (f : A → B → C) (a : list A) (b : list B)
  : outcome (list C) :=
  match a, b with
  | [x], _ => Ok (f x <$> b)
  | _, [y] => Ok ((λ x, f x y) <$> a)
  | _, _ => if bool_decide (length a = length b) then Ok (zip_with f a b)
            else Raise RuntimeError
  end.

(** [t *= v.view(len(v), 1, ..., 1)]: in place, so the result has the shape
    of [t]. *)
Definition imul_samples (t : list (list Z)) (v : list Z)
  : outcome (list (list Z)) :=
  match v with
  | [m] => Ok ((λ row : list Z, (λ x, int64 (x * m)) <$> row) <$> t)
  | _ => if bool_decide (length v = length t)
         then Ok (zip_with (λ m (row : list Z), (λ x, int64 (x * m)) <$> row) v t)
         else Raise RuntimeError
  end.

(** [v.view(len(v), 1, ..., 1) * t] on a float tensor [t]. *)
Definition mul_samples (v : list Z) (t : list (list Q))
  : outcome (list (list Q)) :=
  match v, t with
  | [m], _ => Ok ((λ row : list Q, (λ x, inject_Z m * x) <$> row) <$> t)
  | _, [row] => Ok ((λ m, (λ x, inject_Z m * x) <$> row) <$> v)
  | _, _ => if bool_decide (length v = length t)
            then Ok (zip_with (λ m (row : list Q), (λ x, inject_Z m * x) <$> row) v t)
            else Raise RuntimeError
  end.

Definition sumZ (l : list Z) : Z := foldr Z.add 0%Z l.
Definition sumQ (l : list Q) : Q := foldr Qplus 0 l.

(** [torch.sum] of an integer tensor and of a float tensor. *)
Definition tensor_sum (t : list (list Z)) : Z := int64 (sumZ (concat t)).
Definition tensor_sumQ (t : list (list Q)) : Q := sumQ (concat t).

(** [torch.mean] *)
Definition tensor_mean (t : list (list Q)) : scalar :=
  match length (concat t) with
  | O => nan
  | n => fin (tensor_sumQ t / inject_Z (Z.of_nat n))
  end.

(** [(a != k).long()], [(a == b).long()], [a == k] *)
Definition ne_long (a : list (list Z)) (k : Z) : list (list Z) :=
  (λ row : list Z, (λ x, if bool_decide (x ≠ k) then 1%Z else 0%Z) <$> row) <$> a.
Definition eq_long (x y : Z) : Z := if bool_decide (x = y) then 1%Z else 0%Z.
Definition eq_const (a : list (list Z)) (k : Z) : list (list Z) :=
  (λ row : list Z, (λ x, eq_long x k) <$> row) <$> a.

(** What [pixel_acc] returns: the [missing_score] it was given, or the
    accuracy tensor. *)
Inductive pixel_acc_result (M : Type) :=
  | Missing (missing_score : M)
  | Accuracy (acc : Q).
Arguments Missing {M} missing_score.
Arguments Accuracy {M} acc.

(** *** The data of [SegmentationModule] that does not depend on the scores *)

Record output_switch := {
  switch_object : bool;
  switch_part : bool;
  switch_scene : bool;
  switch_material : bool
}.

(** The entries of a batch. *)
Record feed_dict (Image : Type) := {
  img : Image;
  seg_object : list (list Z);
  valid_object : list Z;
  seg_part : list (list Z);
  valid_part : list (list Z);
  scene_label : list Z;
  seg_material : list (list Z);
  valid_material : list Z
}.
Arguments img {Image} _.
Arguments seg_object {Image} _.
Arguments valid_object {Image} _.
Arguments seg_part {Image} _.
Arguments valid_part {Image} _.
Arguments scene_label {Image} _.
Arguments seg_material {Image} _.
Arguments valid_material {Image} _.

(** [loss_scale] when the constructor is given [None]. *)
Definition default_loss_scale : list (string * Q) :=
  [("object", 1); ("part", 1 # 2); ("scene", 1 # 4); ("material", 1)].

(** [t[:, j]] *)
Definition column (t : list (list Z)) (j : nat) : outcome (list Z) :=
  for_each (λ acc row, match row !! j with
                       | Some x => Ok (acc ++ [x])
                       | None => Raise IndexError
                       end) t [].

(** [enumerate(xs)] *)
Definition enumerate {A} (xs : list A) : list (nat * A) := zip (seq 0 (length xs)) xs.

Definition all_heads : output_switch :=
  {| switch_object := true; switch_part := true;
     switch_scene := true; switch_material := true |}.

Section model.

(** The class scores of one element, the index [torch.max(_, dim=1)] selects
    among them, and the cross entropy of the scores against a class. *)
Variable Score : Type.
Variable argmax : list Score → Z.
Variable nll : list Score → Z → Q.

Abbreviation prediction := (list (list (list Score))).

(** The first part of [pixel_acc]: the number of correct elements and the
    number of valid elements, as it computes them. *)
Definition pixel_acc_counts (pred : prediction) (label : list (list Z))
    (ignore_index : Z) (samples_valid_mask : option (list Z))
  : outcome (Z * Z) :=
  let preds := (λ sample : list (list Score), argmax <$> sample) <$> pred in
  let valid := ne_long label ignore_index in
  let? valid := match samples_valid_mask with
                | Some samples_valid_mask => imul_samples valid samples_valid_mask
                | None => Ok valid
                end in
  let? correct := zip_rows eq_long preds label in
  let? hits := zip_rows (λ v c, int64 (v * c)) valid correct in
  let acc_sum := tensor_sum hits in
  let pixel_sum := tensor_sum valid in
  Ok (acc_sum, pixel_sum).

Definition pixel_acc {M} (pred : prediction) (label : list (list Z))
    (ignore_index : Z) (samples_valid_mask : option (list Z))
    (missing_score : M) : outcome (pixel_acc_result M) :=
  let? '(acc_sum, pixel_sum) :=
    pixel_acc_counts pred label ignore_index samples_valid_mask in
  if bool_decide (pixel_sum = 0%Z) then Ok (Missing missing_score)
  else Ok (Accuracy (inject_Z acc_sum / (inject_Z pixel_sum + (1 # 10000000000)))).

Definition get_correct_and_valid_pixels (pred : prediction)
    (label : list (list Z)) (ignore_index : Z)
    (samples_valid_mask : option (list Z)) : outcome (Z * Z) :=
  let preds := (λ sample : list (list Score), argmax <$> sample) <$> pred in
  let valid := ne_long label ignore_index in
  let? valid := match samples_valid_mask with
                | Some samples_valid_mask => imul_samples valid samples_valid_mask
                | None => Ok valid
                end in
  let? correct := zip_rows eq_long preds label in
  let? hits := zip_rows (λ v c, int64 (v * c)) valid correct in
  let acc_sum := int64 (tensor_sum hits) in
  let pixel_sum := int64 (tensor_sum valid) in
  Ok (acc_sum, pixel_sum).

(** The counts the way the specification words them: over the samples whose
    mask entry is 1 only, the elements whose label is not [ignore_index], and
    among them those the prediction gets right. *)
Definition sample_valid (ignore_index : Z) (label : list Z) : nat :=
  length (filter (λ l, l ≠ ignore_index) label).

Definition sample_correct (ignore_index : Z) (pred : list (list Score))
    (label : list Z) : nat :=
  length (filter (λ pl, pl.2 ≠ ignore_index ∧ argmax pl.1 = pl.2) (zip pred label)).

Definition kept_samples (mask : list Z) (pred : prediction)
    (label : list (list Z)) : list (Z * (list (list Score) * list Z)) :=
  filter (λ s, s.1 = 1%Z) (zip mask (zip pred label)).

Definition correct_over (ignore_index : Z)
    (samples : list (Z * (list (list Score) * list Z))) : nat :=
  sum_list ((λ s, sample_correct ignore_index s.2.1 s.2.2) <$> samples).

Definition valid_over (ignore_index : Z)
    (samples : list (Z * (list (list Score) * list Z))) : nat :=
  sum_list ((λ s, sample_valid ignore_index s.2.2) <$> samples).

Definition counts_over (ignore_index : Z)
    (samples : list (Z * (list (list Score) * list Z))) : Z * Z :=
  (Z.of_nat (correct_over ignore_index samples),
   Z.of_nat (valid_over ignore_index samples)).

(** A batch the accounting is defined on: prediction and label have one
    shape, every sample has its entry of the validity mask, an entry is 0 or
    1, and the label has fewer than 2^63 elements. *)
Record batch_ok (pred : prediction) (label : list (list Z)) (mask : list Z)
  : Prop := {
  batch_shape : length <$> pred = length <$> label;
  batch_mask : length mask = length label;
  batch_binary : Forall (λ m, m = 0%Z ∨ m = 1%Z) mask;
  batch_numel : (Z.of_nat (length (concat label)) < 2 ^ 63)%Z
}.

(** The loss of one element: an ignored target has the loss 0. *)
Definition element_loss (ignore_index : Z) (scores : list Score) (t : Z) : Q :=
  if bool_decide (t = ignore_index) then 0 else nll scores t.

(** [F.cross_entropy(input, target, ignore_index=k, reduction='none')] *)
Definition cross_entropy_none (ignore_index : Z) (input : prediction)
    (target : list (list Z)) : outcome (list (list Q)) :=
  zip_rows (element_loss ignore_index) input target.

(** The sum of the element losses of a sample, and the sum over samples of
    the sample's loss times its mask entry. *)
Definition sample_loss (ignore_index : Z) (scores : list (list Score))
    (target : list Z) : Q :=
  sumQ (zip_with (element_loss ignore_index) scores target).

Definition masked_loss (ignore_index : Z)
    (samples : list (Z * (list (list Score) * list Z))) : Q :=
  sumQ ((λ s, inject_Z s.1 * sample_loss ignore_index s.2.1 s.2.2) <$> samples).

Definition CrossEntropyLossWithValidationMask_forward (ignore_index : Z)
    (input : prediction) (target : list (list Z)) (validation_mask : list Z)
  : outcome scalar :=
  let? loss_unreduced := cross_entropy_none ignore_index input target in
  let? loss_masked := mul_samples validation_mask loss_unreduced in
  let mean_loss := tensor_mean loss_masked in
  Ok mean_loss.

(** [nn.CrossEntropyLoss(ignore_index=k)], with the mean over the targets
    that are not ignored. *)
Definition cross_entropy_mean (ignore_index : Z) (input : list (list Score))
    (target : list Z) : outcome scalar :=
  if bool_decide (length input = length target) then
    let kept := filter (λ st, st.2 ≠ ignore_index) (zip input target) in
    match length kept with
    | O => Ok nan
    | n => Ok (fin (sumQ ((λ st, nll st.1 st.2) <$> kept)
                    / inject_Z (Z.of_nat n)))
    end
  else Raise ValueError.

(** [torch.sum(t.view(t.size(0), -1), dim=1)] *)
Definition sample_sums (t : list (list Z)) : list Z :=
  (λ row, int64 (sumZ row)) <$> t.
Definition sample_sumsQ (t : list (list Q)) : list Q := sumQ <$> t.

Definition part_pixel_acc (pred_part : prediction)
    (gt_seg_part gt_seg_object : list (list Z)) (object_label : Z)
    (valid : list Z) : outcome (Z * Z) :=
  let mask_object := eq_const gt_seg_object object_label in
  let pred := (λ sample : list (list Score), argmax <$> sample) <$> pred_part in
  let? correct := zip_rows eq_long pred gt_seg_part in
  let? acc_sum := zip_rows Z.mul mask_object correct in
  let acc_sum := sample_sums acc_sum in
  let? acc_sum := zip_vec (λ a v, int64 (a * v)) acc_sum valid in
  let acc_sum := int64 (sumZ acc_sum) in
  let pixel_sum := sample_sums mask_object in
  let? pixel_sum := zip_vec (λ a v, int64 (a * v)) pixel_sum valid in
  let pixel_sum := int64 (sumZ pixel_sum) in
  Ok (acc_sum, pixel_sum).

Definition part_loss (pred_part : prediction)
    (gt_seg_part gt_seg_object : list (list Z)) (object_label : Z)
    (valid : list Z) : outcome scalar :=
  let mask_object := eq_const gt_seg_object object_label in
  let? target := zip_rows (λ p m, int64 (p * m)) gt_seg_part mask_object in
  let? loss := cross_entropy_none (-100) pred_part target in
  let? loss := zip_rows (λ l m, l * inject_Z m) loss mask_object in
  let loss := sample_sumsQ loss in
  let nr_pixel := sample_sums mask_object in
  let? sum_pixel := zip_vec (λ a v, int64 (a * v)) nr_pixel valid in
  let sum_pixel := int64 (sumZ sum_pixel) in
  let? loss := zip_vec (λ l v, l * inject_Z v) loss valid in
  Ok (fin (sumQ loss / inject_Z (Z.max sum_pixel 1))).

(** *** [SegmentationModule] *)

(** The dict the decoder returns: a head that was not computed is [None]. *)
Record prediction_dict := {
  pred_object : option prediction;
  pred_part : option (list prediction);
  pred_scene : option (list (list Score));
  pred_material : option prediction
}.

(** The attributes of a [SegmentationModule]; the encoder is called with
    [return_feature_maps=True]. *)
Record SegmentationModule (Image Features SegSize : Type) := {
  encoder : Image → Features;
  decoder : Features → output_switch → option SegSize → prediction_dict;
  loss_scale : list (string * Q);
  test_output_switch : output_switch;
  disable_metric_and_loss_calculations : bool
}.
Arguments encoder {Image Features SegSize} _.
Arguments decoder {Image Features SegSize} _.
Arguments loss_scale {Image Features SegSize} _.
Arguments test_output_switch {Image Features SegSize} _.
Arguments disable_metric_and_loss_calculations {Image Features SegSize} _.

(** [broden_dataset.object_with_part], the object classes that have parts. *)
Variable object_with_part : list Z.

(** The loss of every head the decoder computed, in the order of the
    source: the first part of the loss block of [forward]. *)
Definition head_losses {Image} (pred : prediction_dict) (feed : feed_dict Image)
  : outcome (list (string * scalar)) :=
  let loss_dict := [] in
  let? loss_dict :=
    match pred_object pred with
    | Some p =>
        let? l := CrossEntropyLossWithValidationMask_forward 0 p
                    (seg_object feed) (valid_object feed) in
        Ok (od_setitem loss_dict "object" l)
    | None => Ok loss_dict
    end in
  let? loss_dict :=
    match pred_part pred with
    | Some p =>
        let? part_loss :=
          for_each (λ acc '(idx_part, object_label),
                      let? p_idx := list_getitem p (Z.of_nat idx_part) in
                      let? valid := column (valid_part feed) idx_part in
                      let? l := part_loss p_idx (seg_part feed) (seg_object feed)
                                  object_label valid in
                      Ok (scalar_add acc l))
            (enumerate object_with_part) (fin 0) in
        Ok (od_setitem loss_dict "part" part_loss)
    | None => Ok loss_dict
    end in
  let? loss_dict :=
    match pred_scene pred with
    | Some p =>
        let? l := cross_entropy_mean (-1) p (scene_label feed) in
        Ok (od_setitem loss_dict "scene" l)
    | None => Ok loss_dict
    end in
  let? loss_dict :=
    match pred_material pred with
    | Some p =>
        let? l := CrossEntropyLossWithValidationMask_forward 0 p
                    (seg_material feed) (valid_material feed) in
        Ok (od_setitem loss_dict "material" l)
    | None => Ok loss_dict
    end in
  Ok loss_dict.

(** [[loss_dict[k] * self.loss_scale[k] for k in loss_dict.keys()]] *)
Definition scaled_losses (scale : list (string * Q))
    (loss_dict : list (string * scalar)) (keys : list string)
  : outcome (list scalar) :=
  for_each (λ acc k,
              let? l := od_getitem loss_dict k in
              let? w := od_getitem scale k in
              Ok (acc ++ [scalar_mul l w]))
    keys [].

(** The loss block of [forward]; [sum] adds the terms to 0 from left to
    right. *)
Definition forward_loss {Image} (scale : list (string * Q))
    (pred : prediction_dict) (feed : feed_dict Image)
  : outcome (list (string * scalar)) :=
  let? loss_dict := head_losses pred feed in
  let? terms := scaled_losses scale loss_dict (loss_dict.*1) in
  Ok (od_setitem loss_dict "total" (foldl scalar_add (fin 0) terms)).

(** The heads the decoder computed, in the order of the loss block. *)
Definition present {A} (head : option A) (k : string) : list string :=
  match head with
  | Some _ => [k]
  | None => []
  end.

Definition computed_heads (pred : prediction_dict) : list string :=
  present (pred_object pred) "object" ++ present (pred_part pred) "part"
  ++ present (pred_scene pred) "scene" ++ present (pred_material pred) "material".

(** The metric block of [forward]; the scene entry is first set to the
    accuracy and then overwritten with the counts. *)
Definition forward_metric {Image} (pred : prediction_dict)
    (feed : feed_dict Image) : outcome (list (string * (Z * Z))) :=
  let metric_dict := [] in
  let? metric_dict :=
    match pred_object pred with
    | Some p =>
        let? cv := get_correct_and_valid_pixels p (seg_object feed) 0
                     (Some (valid_object feed)) in
        Ok (od_setitem metric_dict "object" cv)
    | None => Ok metric_dict
    end in
  let? metric_dict :=
    match pred_material pred with
    | Some p =>
        let? cv := get_correct_and_valid_pixels p (seg_material feed) 0
                     (Some (valid_material feed)) in
        Ok (od_setitem metric_dict "material" cv)
    | None => Ok metric_dict
    end in
  let? metric_dict :=
    match pred_part pred with
    | Some p =>
        let? '(acc_sum, pixel_sum) :=
          for_each (λ '(acc_sum, pixel_sum) '(idx_part, object_label),
                      let? p_idx := list_getitem p (Z.of_nat idx_part) in
                      let? valid := column (valid_part feed) idx_part in
                      let? '(acc, pixel) :=
                        part_pixel_acc p_idx (seg_part feed) (seg_object feed)
                          object_label valid in
                      Ok (int64 (acc_sum + acc), int64 (pixel_sum + pixel)))
            (enumerate object_with_part) (0%Z, 0%Z) in
        match object_with_part with
        | [] => Raise AttributeError
        | _ :: _ => Ok (od_setitem metric_dict "part" (acc_sum, pixel_sum))
        end
    | None => Ok metric_dict
    end in
  let? metric_dict :=
    match pred_scene pred with
    | Some p =>
        let p := (λ scores, [scores]) <$> p in
        let label := (λ l, [l]) <$> scene_label feed in
        let? _ := pixel_acc p label (-1) None tt in
        let? cv := get_correct_and_valid_pixels p label (-1) None in
        Ok (od_setitem metric_dict "scene" cv)
    | None => Ok metric_dict
    end in
  Ok metric_dict.

(** The dict [forward] returns. *)
Record output_dict := {
  out_pred : prediction_dict;
  out_loss : option (list (string * scalar));
  out_metric : option (list (string * (Z * Z)))
}.

Definition forward {Image Features SegSize}
    (self : SegmentationModule Image Features SegSize)
    (feed : feed_dict Image) (seg_size : option SegSize)
  : outcome output_dict :=
  match seg_size with
  | None =>
      let output_switch := all_heads in
      let pred := decoder self (encoder self (img feed)) output_switch None in
      if disable_metric_and_loss_calculations self
      then Ok {| out_pred := pred; out_loss := None; out_metric := None |}
      else
        let? loss_dict := forward_loss (loss_scale self) pred feed in
        let? metric_dict := forward_metric pred feed in
        Ok {| out_pred := pred; out_loss := Some loss_dict;
              out_metric := Some metric_dict |}
  | Some seg_size =>
      let pred := decoder self (encoder self (img feed))
                    (test_output_switch self) (Some seg_size) in
      Ok {| out_pred := pred; out_loss := None; out_metric := None |}
  end.

(** [SegmentationModule.__init__] *)
Definition SegmentationModule_init {Image Features SegSize}
    (net_enc : Image → Features)
    (net_dec : Features → output_switch → option SegSize → prediction_dict)
    (loss_scale : option (list (string * Q)))
    (test_output_switch : output_switch)
    (disable_metric_and_loss_calculations : bool)
  : SegmentationModule Image Features SegSize :=
  {| encoder := net_enc;
     decoder := net_dec;
     loss_scale := match loss_scale with
                   | None => default_loss_scale
                   | Some loss_scale => loss_scale
                   end;
     test_output_switch := test_output_switch;
     disable_metric_and_loss_calculations := disable_metric_and_loss_calculations |}.

End model.

Arguments pred_object {Score} _.
Arguments pred_part {Score} _.
Arguments pred_scene {Score} _.
Arguments pred_material {Score} _.
Arguments encoder {Score Image Features SegSize} _.
Arguments decoder {Score Image Features SegSize} _.
Arguments loss_scale {Score Image Features SegSize} _.
Arguments test_output_switch {Score Image Features SegSize} _.
Arguments disable_metric_and_loss_calculations {Score Image Features SegSize} _.
Arguments out_pred {Score} _.
Arguments out_loss {Score} _.
Arguments out_metric {Score} _.
Arguments computed_heads {Score} _.

(** *** A batch of two samples of two elements and two classes *)

(** The index of the first greatest score. *)
Fixpoint argmax_from (best_index best index : Z) (scores : list Z) : Z :=
  match scores with
  | [] => best_index
  | x :: scores' =>
      if (best <? x)%Z then argmax_from index x (index + 1)%Z scores'
      else argmax_from best_index best (index + 1)%Z scores'
  end.

Definition argmaxZ (scores : list Z) : Z :=
  match scores with
  | [] => 0%Z
  | x :: scores' => argmax_from 0 x 1 scores'
  end.

(** A loss of integer scores: what the score of the class lacks to the
    greatest score. *)
Definition hinge (scores : list Z) (t : Z) : Q :=
  inject_Z (foldr Z.max 0%Z scores - default 0%Z (scores !! Z.to_nat t)).

Definition tiny_pred : list (list (list Z)) :=
  [ [ [1; 5]; [7; 2] ]; [ [0; 9]; [3; 1] ] ]%Z.
Definition tiny_label : list (list Z) := [ [1; 0]; [1; 1] ]%Z.
Definition tiny_mask : list Z := [1; 0]%Z.

Definition tiny_feed : feed_dict unit :=
  {| img := tt;
     seg_object := tiny_label; valid_object := tiny_mask;
     seg_part := tiny_label; valid_part := [ [1]; [0] ]%Z;
     scene_label := [1; 0]%Z;
     seg_material := tiny_label; valid_material := [1; 1]%Z |}.

Definition tiny_decoder (features : unit) (switch : output_switch)
    (seg_size : option unit) : prediction_dict Z :=
  {| pred_object := if switch_object switch then Some tiny_pred else None;
     pred_part := if switch_part switch then Some [tiny_pred] else None;
     pred_scene := if switch_scene switch then Some [ [1; 5]; [7; 2] ]%Z else None;
     pred_material := if switch_material switch then Some tiny_pred else None |}.

Definition tiny_module : SegmentationModule Z unit unit unit :=
  SegmentationModule_init Z (λ _, tt) tiny_decoder None all_heads false.

(** *** Batches and masks of the accounting *)


(** Every sample is invalid or has no element of the object class. *)
Definition object_unseen (gt_seg_object : list (list Z)) (object_label : Z)
    (valid : list Z) : Prop :=
  Forall2 (λ row v, v = 0%Z ∨ Forall (λ x, x ≠ object_label) row)
    gt_seg_object valid.

(** An entry of the hits lies between 0 and the entry of the object mask,
    which is 0 or 1. *)
Definition under (c m : Z) : Prop := (0 ≤ c ≤ m)%Z ∧ (m ≤ 1)%Z.

(** The sum over the samples of the sample's count times its validity. *)
Definition weighted (rows : list (list Z)) (valid : list Z) : Z :=
  sumZ (zip_with (λ a v, int64 (a * v)) (sample_sums rows) valid).

(** The batch [tiny_feed] with every scene label ignored. *)
Definition ignored_feed : feed_dict unit :=
  {| img := tt;
     seg_object := tiny_label; valid_object := tiny_mask;
     seg_part := tiny_label; valid_part := [ [1]; [0] ]%Z;
     scene_label := [-1; -1]%Z;
     seg_material := tiny_label; valid_material := [1; 1]%Z |}.

End Models.

(** * Properties *)

(** ** Facts about the string operations *)

Lemma for_each_cons {S X} (body : S → X → outcome S) (x : X) (xs : list X)
    (st : S) :
  for_each body (x :: xs) st = bind (body st x) (for_each body xs).
Proof. done. Qed.

Lemma for_each_app {S X} (body : S → X → outcome S) (xs ys : list X) (st : S) :
  for_each body (xs ++ ys) st = bind (for_each body xs st) (for_each body ys).
Proof.
  revert st. induction xs as [|x xs IH]; intros st; [done|].
  simpl. destruct (body st x); simpl; auto.
Qed.

Module PyStrFacts.
Import PyStr.

Lemma chars_of_chars (l : list ascii) : chars (of_chars l) = l.
Proof. apply list_ascii_of_string_of_list_ascii. Qed.

Lemma of_chars_chars (s : string) : of_chars (chars s) = s.
Proof. apply string_of_list_ascii_of_string. Qed.

Lemma is_prefix_spec (p s : list ascii) :
  is_prefix p s = true ↔ ∃ t, s = p ++ t.
Proof.
  revert s. induction p as [|a p IH]; intros s; simpl.
  - split; [eauto|done].
  - destruct s as [|b s].
    + split; [done|]. by intros [t ?].
    + rewrite andb_true_iff, bool_decide_eq_true, IH. split.
      * intros [-> [t ->]]. eauto.
      * intros [t [= -> ->]]. eauto.
Qed.

Lemma is_prefix_app (p t : list ascii) : is_prefix p (p ++ t) = true.
Proof. apply is_prefix_spec. eauto. Qed.



Lemma contains_l_spec (p s : list ascii) :
  contains_l p s = true ↔ ∃ a b, s = a ++ p ++ b.
Proof.
  induction s as [|c s IH]; simpl.
  - rewrite orb_false_r, is_prefix_spec. split.
    + intros [t ?]. by exists [], t.
    + intros (a & b & H). destruct a; [by exists b|done].
  - rewrite orb_true_iff, is_prefix_spec, IH. split.
    + intros [[t ->]|(a & b & ->)]; [by exists [], t|by exists (c :: a), b].
    + intros (a & b & H). destruct a as [|c' a]; simplify_eq/=; eauto.
Qed.

Lemma contains_l_cons (p : list ascii) (c : ascii) (s : list ascii) :
  contains_l p (c :: s) = is_prefix p (c :: s) || contains_l p s.
Proof. done. Qed.


(** The loop of [replace], one step at a time. *)
Lemma replace_go_skip (old new : list ascii) (k : nat) (s : list ascii) :
  replace_go old new k s = replace_go old new 0 (drop k s).
Proof.
  revert k. induction s as [|c s IH]; intros [|k]; simpl; auto.
Qed.

Lemma replace_l_nil (old new : list ascii) : replace_l old new [] = [].
Proof. done. Qed.

Lemma replace_l_hit (old new s : list ascii) :
  old ≠ [] → is_prefix old s = true →
  replace_l old new s = new ++ replace_l old new (drop (length old) s).
Proof.
  intros Hold H. unfold replace_l. destruct s as [|c s].
  { destruct old; [done|]. done. }
  simpl replace_go at 1. change (is_prefix old (c :: s)) with (is_prefix old (c :: s)).
  rewrite H, replace_go_skip. destruct old as [|o old]; [done|].
  simpl. by rewrite Nat.sub_0_r.
Qed.

Lemma replace_l_miss (old new : list ascii) (c : ascii) (s : list ascii) :
  is_prefix old (c :: s) = false →
  replace_l old new (c :: s) = c :: replace_l old new s.
Proof. intros H. unfold replace_l. simpl replace_go at 1. by rewrite H. Qed.

(** *** ['aeroplane'] into ['airplane'] *)

Lemma tails_head (s : list ascii) : s ∈ tails s.
Proof. destruct s; left. Qed.

Lemma tails_tail (a : ascii) (q s : list ascii) :
  a :: q ∈ tails s → q ∈ tails s.
Proof.
  induction s as [|c s IH]; simpl.
  - by intros [=]%list_elem_of_singleton.
  - intros [[= -> ->]|H]%elem_of_cons; right; [apply tails_head|by apply IH].
Qed.

Lemma respell_cons (c : ascii) (s : list ascii) :
  respell (c :: s) =
    if is_prefix aeroplane (c :: s)
    then airplane ++ respell (drop 8 s)
    else c :: respell s.
Proof.
  destruct (is_prefix aeroplane (c :: s)) eqn:H.
  - by rewrite replace_l_hit.
  - by rewrite replace_l_miss.
Qed.

(** What the output starts with, when it is the end of an ['aeroplane'], the
    input starts with too. *)
Lemma respell_prefix (s q : list ascii) :
  q ∈ tails aeroplane →
  is_prefix q (respell s) = true → is_prefix q s = true.
Proof.
  revert q. induction s as [|c s IH]; intros q Hq.
  { by rewrite replace_l_nil. }
  rewrite respell_cons. destruct (is_prefix aeroplane (c :: s)) eqn:Hhit.
  - revert Hq. unfold aeroplane; simpl tails. rewrite !elem_of_cons, elem_of_nil.
    intros Hq; destruct_or!; subst q; try done; simpl; by rewrite ?andb_false_r.
  - destruct q as [|a q]; [done|]. simpl. rewrite !andb_true_iff.
    intros [? ?]. split; [done|]. apply IH; [|done].
    by apply tails_tail in Hq.
Qed.

Lemma contains_airplane_app (x : list ascii) :
  contains_l aeroplane x = false → contains_l aeroplane (airplane ++ x) = false.
Proof.
  intros H. unfold airplane, aeroplane in *. simpl.
  rewrite ?andb_false_r. simpl. exact H.
Qed.

(** No ['aeroplane'] is left. *)
Lemma respell_go_clean (k : nat) (s : list ascii) :
  contains_l aeroplane (replace_go aeroplane airplane k s) = false.
Proof.
  revert k. induction s as [|c s IH]; intros k; [done|].
  destruct k as [|k]; [|apply IH].
  change (replace_go aeroplane airplane 0 (c :: s)) with (respell (c :: s)).
  destruct (is_prefix aeroplane (c :: s)) eqn:Hhit.
  - rewrite replace_l_hit by done. apply contains_airplane_app.
    unfold replace_l. rewrite <-(replace_go_skip _ _ (length aeroplane)).
    apply IH || (rewrite replace_go_skip; apply IH).
  - rewrite replace_l_miss by done. rewrite contains_l_cons.
    assert (contains_l aeroplane (respell s) = false) as -> by apply (IH 0%nat).
    rewrite orb_false_r. apply not_true_is_false. intros H.
    rewrite <-replace_l_miss in H by done.
    apply respell_prefix in H; [congruence|]. unfold aeroplane; simpl; left.
Qed.

Lemma respell_clean (s : list ascii) : contains_l aeroplane (respell s) = false.
Proof. apply respell_go_clean. Qed.

(** A string without ['aeroplane'] is left as it is. *)
Lemma respell_id (s : list ascii) :
  contains_l aeroplane s = false → respell s = s.
Proof.
  induction s as [|c s IH]; [done|].
  rewrite contains_l_cons, orb_false_iff. intros [Hp Hs].
  by rewrite replace_l_miss, IH.
Qed.



(** *** [split] and [join] *)






End PyStrFacts.

(** ** [normalize_readable] *)

Module NormalizeReadable.
Import PyStr PyStrFacts PascalSeg.

Lemma chars_app (s t : string) : chars (s +:+ t) = chars s ++ chars t.
Proof. induction s as [|c s IH]; simpl; [done|]. by rewrite IH. Qed.



(** The table, entry by entry: a long form is no short name and holds no
    ['aeroplane']. *)
Lemma decoded_names_long (name long : string) :
  decoded_names !! name = Some long →
  decode_name name = long ∧ decode_name long = long
  ∧ replace "aeroplane" "airplane" long = long.
Proof.
  intros H. unfold decode_name at 1. rewrite H. split; [done|].
  apply elem_of_list_to_map_2 in H. revert H.
  rewrite !elem_of_cons, elem_of_nil.
  intros H; destruct_or!; simplify_eq; by vm_compute.
Qed.



End NormalizeReadable.

(** ** [normalize_part_key] *)

Module NormalizePartKey.
Import PascalSeg.

Lemma list_index_spec (x : string) (l : list string) :
  x ∈ l → ∃ i, list_index x l = Ok i ∧ l !! i = Some x.
Proof.
  induction l as [|y l IH]; [by intros ?%elem_of_nil|].
  simpl. case_bool_decide as Hy.
  - intros _. exists 0%nat. by subst.
  - intros [?|Hx]%elem_of_cons; [congruence|].
    destruct (IH Hx) as (i & -> & Hi). by exists (S i).
Qed.

Lemma list_setitem_ok {A} (l : list A) (i : Z) (x : A) :
  (0 ≤ i < Z.of_nat (length l))%Z →
  ∃ l', list_setitem l i x = Ok l' ∧ length l' = length l.
Proof.
  intros Hi. unfold list_setitem, py_index.
  rewrite bool_decide_eq_true_2 by done. simpl.
  eexists. split; [done|]. apply length_insert.
Qed.

Lemma foldl_max_le (x : Z) (xs : list Z) : (x ≤ foldl Z.max x xs)%Z.
Proof.
  revert x. induction xs as [|z xs IH]; intros x; simpl; [done|].
  etrans; [|apply IH]. lia.
Qed.

Lemma py_max_ok (x : Z) (xs : list Z) :
  ∃ m, py_max (x :: xs) = Ok m ∧ ∀ y, y ∈ x :: xs → (y ≤ m)%Z.
Proof.
  eexists. split; [done|]. revert x.
  induction xs as [|z xs IH]; intros x y Hy; simpl.
  - apply list_elem_of_singleton in Hy as ->. done.
  - apply elem_of_cons in Hy as [->|Hy].
    + etrans; [|apply foldl_max_le]. lia.
    + apply elem_of_cons in Hy as [->|Hy].
      * etrans; [|apply foldl_max_le]. lia.
      * apply IH. by right.
Qed.

Lemma npk_body_ok raw_names count st c p n :
  raw_names !! (c, p) = Some n →
  (0 ≤ c < Z.of_nat count)%Z →
  npk_invariant raw_names count st →
  ∃ st', npk_body raw_names st (c, p) = Ok st'
         ∧ npk_invariant raw_names count st'
         ∧ is_Some (part_key st' !! (c, p))
         ∧ ∀ k, is_Some (part_key st !! k) → is_Some (part_key st' !! k).
Proof.
  intros Hn Hc [Hnodup Halias Hkey Hcount].
  unfold npk_body, getitem. rewrite Hn. simpl.
  destruct (list_setitem_ok (object_class_names st) c n.1) as (names & -> & Hlen);
    [by rewrite Hcount|]. simpl.
  assert (∀ (code : nat) parts aliases,
    NoDup parts →
    part_class_names st `prefix_of` parts →
    parts !! code = Some n.2 →
    (∀ n' code', aliases !! n' = Some code' → parts !! code' = Some n'.2) →
    let st' := {| object_class_names := names; part_class_names := parts;
                  alias_key := aliases;
                  part_key := <[(c, p) := code]> (part_key st) |} in
    npk_invariant raw_names count st'
    ∧ is_Some (part_key st' !! (c, p))
    ∧ ∀ k, is_Some (part_key st !! k) → is_Some (part_key st' !! k)) as Hfinish.
  { intros code parts aliases Hnd Hpre Hcode Hal. simpl. split; [split; simpl|split].
    - done.
    - done.
    - intros k code'. rewrite lookup_insert. case_decide as Hk.
      + intros [= <-]. subst k. eauto.
      + intros (n' & ? & ?)%Hkey. exists n'. split; [done|].
        by eapply prefix_lookup_Some.
    - congruence.
    - rewrite lookup_insert_eq. eauto.
    - intros k Hk. rewrite lookup_insert. by case_decide. }
  destruct (alias_key st !! n) as [code|] eqn:Hali; simpl.
  - eexists. split; [done|]. apply Hfinish; eauto.
  - case_bool_decide as Hin.
    + destruct (list_index_spec _ _ Hin) as (code & -> & Hcode). simpl.
      eexists. split; [done|]. apply Hfinish; eauto.
      intros n' code'. rewrite lookup_insert. case_decide; [|by eauto].
      intros [= <-]. by subst.
    + simpl. eexists. split; [done|]. apply Hfinish.
      * apply NoDup_app. split_and!; [done| |apply NoDup_singleton].
        intros x Hx ->%list_elem_of_singleton. done.
      * by apply prefix_app_r.
      * by rewrite lookup_app_r, Nat.sub_diag.
      * intros n' code'. rewrite lookup_insert. case_decide.
        -- intros [= <-]. subst. by rewrite lookup_app_r, Nat.sub_diag.
        -- intros ?%Halias. by apply lookup_app_l_Some.
Qed.

Lemma npk_loop_ok raw_names count keys st :
  Forall (λ k, is_Some (raw_names !! k) ∧ (0 ≤ k.1 < Z.of_nat count)%Z) keys →
  npk_invariant raw_names count st →
  ∃ st', for_each (npk_body raw_names) keys st = Ok st'
         ∧ npk_invariant raw_names count st'
         ∧ (∀ k, k ∈ keys → is_Some (part_key st' !! k))
         ∧ (∀ k, is_Some (part_key st !! k) → is_Some (part_key st' !! k)).
Proof.
  intros Hkeys. revert st.
  induction Hkeys as [|[c p] keys [[n Hn] Hc] _ IH]; intros st Hinv.
  - exists st. split_and!; [done..| |done]. by intros k ?%elem_of_nil.
  - destruct (npk_body_ok _ _ _ _ _ _ Hn Hc Hinv)
      as (st1 & Hst1 & Hinv1 & Hcp & Hmono1).
    destruct (IH st1 Hinv1) as (st2 & Hst2 & Hinv2 & Hall & Hmono2).
    exists st2. rewrite for_each_cons, Hst1. split_and!; [done..| |by auto].
    intros k [->|Hk]%elem_of_cons; auto.
Qed.

(** C1, amended: for every non-empty finite map from raw (object index,
    part short name) keys with non-negative object indices to normalized
    (object name, part name) pairs, [normalize_part_key] returns
    (object_class_names, part_class_names, part_key) such that every key of
    the map has a code in [part_key], the code is a valid index into
    [part_class_names] and the name at that index is the normalized part name
    of the key; so two keys with equal normalized part names have the same
    code. *)
Theorem normalize_part_key_correct
    (raw_names : gmap (Z * string) (string * string)) :
  raw_names ≠ ∅ →
  (∀ c p, is_Some (raw_names !! (c, p)) → (0 ≤ c)%Z) →
  ∃ object_class_names part_class_names part_key,
    normalize_part_key raw_names
      = Ok (object_class_names, part_class_names, part_key)
    ∧ (∀ c p n, raw_names !! (c, p) = Some n →
         ∃ code, part_key !! (c, p) = Some code
                 ∧ (code < length part_class_names)%nat
                 ∧ part_class_names !! code = Some n.2)
    ∧ (∀ k1 k2 n1 n2 code1 code2,
         raw_names !! k1 = Some n1 → raw_names !! k2 = Some n2 →
         n1.2 = n2.2 →
         part_key !! k1 = Some code1 → part_key !! k2 = Some code2 →
         code1 = code2).
Proof.
  intros Hne Hpos. unfold normalize_part_key.
  set (keys := (map_to_list raw_names).*1).
  assert (∀ k, k ∈ keys ↔ is_Some (raw_names !! k)) as Hkeys.
  { intros k. unfold keys. rewrite list_elem_of_fmap. split.
    - intros ([k' n] & -> & H%elem_of_map_to_list). eauto.
    - intros [n H]. exists (k, n). by rewrite elem_of_map_to_list. }
  destruct (keys.*1) as [|x xs] eqn:Hxs.
  { exfalso. apply Hne. apply map_to_list_empty_iff.
    apply fmap_nil_inv in Hxs. by apply fmap_nil_inv in Hxs. }
  destruct (py_max_ok x xs) as (m & -> & Hm). rewrite <-Hxs in Hm. simpl.
  set (count := Z.to_nat (m + 1)).
  set (init := {| object_class_names := replicate count "-";
                  part_class_names := ["-"];
                  alias_key := ∅; part_key := ∅ |}).
  destruct (npk_loop_ok raw_names count (merge_sort key_le keys) init)
    as (st & -> & [Hnodup _ Hkey _] & Hall & _).
  - apply Forall_forall. intros [c p] Hk.
    rewrite merge_sort_Permutation in Hk. split; [by apply Hkeys|].
    simpl. split; [by apply (Hpos c p), Hkeys|].
    assert (c ≤ m)%Z; [|unfold count; lia].
    apply Hm. apply list_elem_of_fmap. by exists (c, p).
  - split; simpl.
    + apply NoDup_singleton.
    + intros n code. by rewrite lookup_empty.
    + intros k code. by rewrite lookup_empty.
    + apply length_replicate.
  - simpl. do 3 eexists. split; [done|]. split.
    + intros c p n Hn.
      destruct (Hall (c, p)) as [code Hcode].
      { rewrite merge_sort_Permutation. apply Hkeys. eauto. }
      exists code. split; [done|].
      destruct (Hkey _ _ Hcode) as (n' & Hn' & Hname).
      assert (n' = n) as -> by congruence.
      split; [by eapply lookup_lt_Some|done].
    + intros k1 k2 n1 n2 code1 code2 H1 H2 Heq Hc1 Hc2.
      destruct (Hkey _ _ Hc1) as (n1' & ? & Hp1).
      destruct (Hkey _ _ Hc2) as (n2' & ? & Hp2).
      eapply NoDup_lookup; [done..|]. congruence.
Qed.

(** The theorem at the two engines and the body of an aeroplane, and the
    body of a bird. *)
Lemma normalize_part_key_correct_witness :
  let raw_names : gmap (Z * string) (string * string) :=
    list_to_map [ ((1%Z, "engine_1"), ("airplane", "engine"));
                  ((1%Z, "engine_2"), ("airplane", "engine"));
                  ((1%Z, "body"), ("airplane", "body"));
                  ((3%Z, "body"), ("bird", "body")) ] in
  ∃ object_class_names part_class_names part_key,
    normalize_part_key raw_names
      = Ok (object_class_names, part_class_names, part_key)
    ∧ ∃ code, part_key !! (1%Z, "engine_1") = Some code
              ∧ part_key !! (1%Z, "engine_2") = Some code.
Proof.
  intros raw_names.
  destruct (normalize_part_key_correct raw_names)
    as (names & parts & key & Hrun & Hcode & Halias).
  - intros H. apply (f_equal (λ m, m !! (3%Z, "body"))) in H.
    vm_compute in H. discriminate.
  - intros c p [n Hn]. apply elem_of_list_to_map_2 in Hn. revert Hn.
    rewrite !elem_of_cons, elem_of_nil. intros Hn; destruct_or!; by simplify_eq.
  - exists names, parts, key. split; [done|].
    destruct (Hcode 1%Z "engine_1" ("airplane", "engine")) as (c1 & H1 & _);
      [by vm_compute|].
    destruct (Hcode 1%Z "engine_2" ("airplane", "engine")) as (c2 & H2 & _);
      [by vm_compute|].
    exists c1. split; [done|]. rewrite H2. f_equal.
    eapply (Halias (1%Z, "engine_2") (1%Z, "engine_1")); [| |done..];
      by vm_compute.
Defined.

(** C1 as stated fails at the empty map: the maximum of no object index
    raises [ValueError], so nothing is returned. *)
Lemma normalize_part_key_empty :
  normalize_part_key ∅ = Raise ValueError
  ∧ ¬ ∃ object_class_names part_class_names part_key,
        normalize_part_key ∅
          = Ok (object_class_names, part_class_names, part_key).
Proof.
  assert (normalize_part_key ∅ = Raise ValueError) as H by by vm_compute.
  split; [done|]. intros (? & ? & ? & H'). congruence.
Qed.

End NormalizePartKey.

(** ** [load_part2ind] *)

Module LoadPart2ind.
Import PascalSeg.

Lemma span_Forall (P : ascii → bool) (s : list ascii) :
  Forall (λ c, P c = true) (span P s).1.
Proof.
  induction s as [|c s IH]; simpl; [done|].
  destruct (P c) eqn:Hc; [|done]. destruct (span P s). simpl in *. by constructor.
Qed.

Lemma int_nonneg (g : list ascii) :
  Forall (λ c, is_digit c = true) g → (0 ≤ int g)%Z.
Proof.
  unfold int. intros Hg.
  cut (∀ acc, (0 ≤ acc)%Z →
         (0 ≤ foldl (λ acc c, acc * 10 + (Z.of_nat (nat_of_ascii c) - 48)) acc g)%Z).
  { intros H. by apply H. }
  induction Hg as [|c g Hc _ IH]; intros acc Hacc; simpl; [done|].
  apply IH. unfold is_digit in Hc.
  apply andb_true_iff in Hc as [?%Nat.leb_le _]. lia.
Qed.

Lemma digits_nonneg (s g rest : list ascii) :
  digits s = Some (g, rest) → (0 ≤ int g)%Z.
Proof.
  unfold digits. intros H. apply int_nonneg.
  pose proof (span_Forall is_digit s) as Hall.
  destruct (span is_digit s) as [[|c g'] r]; simplify_eq/=. done.
Qed.

Lemma od_setitem_Forall {K V} `{EqDecision K} (P : K * V → Prop)
    (d : list (K * V)) (k : K) (v : V) :
  Forall P d → P (k, v) → Forall P (od_setitem d k v).
Proof.
  intros Hd Hkv. induction Hd as [|[k' v'] d Hx Hd IH]; simpl.
  - by constructor.
  - case_decide; by constructor.
Qed.

Lemma p2i_store_inv lines st st' index part_name readable_name :
  p2i_invariant lines st →
  (0 ≤ index)%Z →
  (∃ line, line ∈ lines ∧ introduces line part_name readable_name) →
  p2i_store (index, part_name) readable_name st = Ok st' →
  p2i_invariant lines st'.
Proof.
  intros [Hname Hindex Hresult] Hpos Hintro. unfold p2i_store.
  destruct (object_name st) as [name|] eqn:Hn; [|done]. simpl.
  intros [= <-]. split; simpl; [by rewrite Hn| done |].
  apply od_setitem_Forall; [done|]. split_and!; [done| |done]. by apply Hname.
Qed.

Lemma set_object_index_inv lines st index :
  p2i_invariant lines st → (0 ≤ index)%Z →
  p2i_invariant lines (set_object_index index st).
Proof. intros [? ? ?] ?. split; simpl; [done| |done]. by intros ? [= <-]. Qed.

Lemma p2i_copy_inv lines index items st st' :
  (0 ≤ index)%Z →
  Forall (entry_of lines) items →
  p2i_invariant lines st →
  for_each (p2i_copy index) items st = Ok st' →
  p2i_invariant lines st'.
Proof.
  intros Hpos Hitems. revert st.
  induction Hitems as [|[[other part_index] [name readable]] items Hitem _ IH];
    intros st Hinv; simpl.
  { by intros [= <-]. }
  destruct (object_to_copy st) as [from|]; [|done]. simpl.
  case_bool_decide; simpl; [|by apply IH].
  destruct (p2i_store _ _ st) as [st1|] eqn:Hstore; [|done]. simpl.
  apply IH. eapply p2i_store_inv; [done..| |done].
  by destruct Hitem as (_ & _ & ?).
Qed.

Lemma p2i_rest_inv lines line st st' :
  p2i_invariant lines st →
  p2i_rest line st = Ok st' →
  p2i_invariant lines st'.
Proof.
  intros Hinv. unfold p2i_rest.
  destruct (re_copy_from line) as [g2|].
  { intros [= <-]. by destruct Hinv. }
  destruct (re_copy_to line) as [g1|] eqn:Hto.
  - assert (0 ≤ int g1)%Z as Hpos.
    { unfold re_copy_to in Hto.
      destruct (lit "pimap{" line) as [s|]; [|done]. simpl in Hto.
      destruct (digits s) as [[g r]|] eqn:Hd; [|done]. simpl in Hto.
      apply digits_nonneg in Hd.
      repeat (match type of Hto with
              | context [mbind _ ?o] => destruct o; simpl in Hto
              | context [match ?o with _ => _ end] => destruct o; simpl in Hto
              end; try done).
      all: by simplify_eq. }
    apply p2i_copy_inv; [done| |by apply set_object_index_inv].
    by destruct Hinv.
  - destruct (re_ignored line); [|done]. by intros [= <-].
Qed.

Lemma re_part_nonneg line g1 g2 g3 g4 :
  re_part line = Some (g1, g2, g3, g4) → (0 ≤ int g1)%Z.
Proof.
  unfold re_part. intros H.
  destruct (lit "pimap{" line) as [s|]; [|done]. simpl in H.
  destruct (digits s) as [[g r]|] eqn:Hd; [|done]. simpl in H.
  apply digits_nonneg in Hd.
  repeat (match type of H with
          | context [mbind _ ?o] => destruct o; simpl in H
          | context [match ?o with _ => _ end] => destruct o; simpl in H
          end; try done).
  all: by simplify_eq.
Qed.

Lemma re_multi_nonneg line g1 g2 g3 g4 :
  re_multi line = Some (g1, g2, g3, g4) → (0 ≤ int g1)%Z.
Proof.
  unfold re_multi. intros H.
  destruct (lit "pimap{" (spaces line)) as [s|]; [|done]. simpl in H.
  destruct (digits s) as [[g r]|] eqn:Hd; [|done]. simpl in H.
  apply digits_nonneg in Hd.
  repeat (match type of H with
          | context [mbind _ ?o] => destruct o; simpl in H
          | context [match ?o with _ => _ end] => destruct o; simpl in H
          end; try done).
  all: by simplify_eq.
Qed.

Lemma p2i_line_inv lines st text st' :
  text ∈ lines →
  p2i_invariant lines st →
  p2i_line st text = Ok st' →
  p2i_invariant lines st'.
Proof.
  intros Hin Hinv. unfold p2i_line.
  destruct (re_object (PyStr.chars text)) as [name|] eqn:Hobject.
  { intros [= <-]. destruct Hinv. split; simpl; [|done..].
    intros ? [= <-]. eauto. }
  destruct (re_part (PyStr.chars text)) as [[[[g1 g2] g3] g4]|] eqn:Hpart.
  { apply p2i_store_inv.
    - apply set_object_index_inv; [done|]. by eapply re_part_nonneg.
    - by eapply re_part_nonneg.
    - exists text. split; [done|]. by econstructor. }
  destruct (re_for (PyStr.chars text)) as [[g1|]|].
  { intros [= <-]. by destruct Hinv. }
  { done. }
  destruct (re_multi (PyStr.chars text)) as [[[[g1 g2] g3] g4]|] eqn:Hmulti.
  { pose proof (re_multi_nonneg _ _ _ _ _ Hmulti) as Hpos.
    apply (set_object_index_inv _ _ _ Hinv) in Hpos as Hinv1.
    revert Hinv1. generalize (set_object_index (int g1) st). clear Hinv.
    intros st1 Hinv1.
    destruct (bound (iteration_count st1)) as [count|]; [|done]. simpl.
    generalize (seq 1 (Z.to_nat count)). intros indices. revert st1 Hinv1.
    induction indices as [|i indices IH]; intros st1 Hinv1.
    { by intros [= <-]. }
    rewrite for_each_cons.
    destruct (p2i_store _ _ st1) as [st2|] eqn:Hstore; [|done]. simpl.
    apply IH. eapply p2i_store_inv; [done..| |done].
    exists text. split; [done|]. by econstructor. }
  destruct (re_silhouette (PyStr.chars text)) eqn:Hsil; [|by apply p2i_rest_inv].
  destruct (object_index st) as [index|] eqn:Hindex; [|done]. simpl.
  destruct (p2i_store _ _ _) as [st1|] eqn:Hstore; [|done]. simpl.
  apply p2i_rest_inv.
  assert (0 ≤ index + 1)%Z as Hpos.
  { destruct Hinv as [_ Hi _]. specialize (Hi _ Hindex). lia. }
  eapply p2i_store_inv; [by apply set_object_index_inv|done| |done].
  exists text. split; [done|]. by constructor.
Qed.

Lemma p2i_loop_inv lines todo st st' :
  todo ⊆ lines →
  p2i_invariant lines st →
  for_each p2i_line todo st = Ok st' →
  p2i_invariant lines st'.
Proof.
  revert st. induction todo as [|text todo IH]; intros st Hsub Hinv.
  { by intros [= <-]. }
  rewrite for_each_cons.
  destruct (p2i_line st text) as [st1|] eqn:Hline; [|done]. simpl.
  apply IH; [set_solver|]. eapply p2i_line_inv; [|done..]. set_solver.
Qed.




End LoadPart2ind.

(** ** The store is only read *)

Module ReadOnly.
Import PascalSeg.

Lemma read_only_ret {A} (a : A) : read_only (io_ret a).
Proof. done. Qed.

Lemma read_only_lift {A} (r : outcome A) : read_only (io_lift r).
Proof. done. Qed.

Lemma read_only_getitem (r : ref) (k : Z * string) : read_only (dict_getitem r k).
Proof. intros h. unfold dict_getitem. by destruct (h !! r). Qed.

Lemma read_only_bind {A B} (m : io A) (k : A → io B) :
  read_only m → (∀ a, read_only (k a)) → read_only (io_bind m k).
Proof.
  intros Hm Hk h. unfold io_bind. specialize (Hm h).
  destruct (m h) as [[a|e] h']; simpl in *; subst; [apply Hk|done].
Qed.

Lemma read_only_for_each {S X} (body : S → X → io S) (xs : list X) (st : S) :
  (∀ st x, read_only (body st x)) → read_only (io_for_each body xs st).
Proof.
  intros Hbody. revert st. induction xs as [|x xs IH]; intros st; simpl.
  - apply read_only_ret.
  - apply read_only_bind; auto.
Qed.

Lemma read_only_load_parts_segmentation loadmat filename part_key :
  read_only (load_parts_segmentation loadmat filename part_key).
Proof.
  unfold load_parts_segmentation.
  apply read_only_bind; [apply read_only_lift|]. intros d.
  apply read_only_bind; [apply read_only_lift|]. intros [|first objects].
  { apply read_only_ret. }
  apply read_only_bind; [|intros []; apply read_only_ret].
  apply read_only_for_each. intros [object_seg part_seg] obj.
  unfold merge_instance.
  apply read_only_bind; [apply read_only_lift|]. intros object_seg'.
  apply read_only_bind; [|intros ?; apply read_only_ret].
  apply read_only_for_each. intros part_seg' part.
  apply read_only_bind; [apply read_only_getitem|]. intros code.
  apply read_only_lift.
Qed.

Lemma read_only_resolve_segmentation loadmat m categories :
  read_only (resolve_segmentation loadmat m categories).
Proof.
  destruct m as [[[[directory partdir] contextdir] part_key] seg_fn].
  unfold resolve_segmentation.
  apply read_only_bind.
  { destruct (wants "part" categories); [|apply read_only_ret].
    apply read_only_bind; [apply read_only_load_parts_segmentation|].
    intros []. apply read_only_ret. }
  intros result. apply read_only_bind; [|intros ?; apply read_only_ret].
  destruct (wants "object" categories); [|apply read_only_ret].
  apply read_only_bind; [apply read_only_lift|]. intros d.
  apply read_only_bind; [apply read_only_lift|]. intros a.
  apply read_only_ret.
Qed.

(** C7: the first four components of [metadata(i)] and [metadata(j)], the
    directory, the part and context directories and the reference to the
    [part_key] dict of the instance, are the same for all valid [i] and [j]
    (only the annotation file name depends on the index), and
    [resolve_segmentation] leaves the store, with the dict [part_key] refers
    to, as it was: it reads these components and modifies none. *)
Theorem metadata_static (loadmat : string → outcome mat_file)
    (self : PascalSegmentation) (i j : Z)
    (mi mj : string * string * string * ref * string) :
  metadata self i = Ok mi →
  metadata self j = Ok mj →
  mi.1 = mj.1
  ∧ mi.1 = (directory self, partdir self, contextdir self, self_part_key self)
  ∧ (∃ segs, PascalSeg.segs self = Some segs
             ∧ list_getitem segs i = Ok mi.2 ∧ list_getitem segs j = Ok mj.2)
  ∧ ∀ categories h,
      (resolve_segmentation loadmat mi categories h).2 = h
      ∧ (resolve_segmentation loadmat mi categories h).2 !! self_part_key self
        = h !! self_part_key self.
Proof.
  unfold metadata. destruct (segs self) as [segs|]; [|done]. simpl.
  destruct (list_getitem segs i) as [si|] eqn:Hi; [|done].
  destruct (list_getitem segs j) as [sj|] eqn:Hj; [|done]. simpl.
  intros [= <-] [= <-]. split_and!; [done..|eauto|].
  intros categories h.
  by rewrite (read_only_resolve_segmentation loadmat _ categories h).
Qed.

(** The theorem at the two files of [two_files]. *)
Lemma metadata_static_witness :
  ∃ mi mj, metadata two_files 0 = Ok mi ∧ metadata two_files 1 = Ok mj
    ∧ mi.1 = mj.1 ∧ mi.2 ≠ mj.2
    ∧ (resolve_segmentation tail_files mi None {[ 1%positive := wing_key ]}).2
      = {[ 1%positive := wing_key ]}.
Proof.
  eexists _, _. split; [reflexivity|]. split; [reflexivity|].
  destruct (metadata_static tail_files two_files 0 1 _ _ eq_refl eq_refl)
    as (Heq & _ & _ & Hstore).
  split; [exact Heq|]. split; [done|]. apply Hstore.
Defined.

End ReadOnly.

(** ** [load_parts_segmentation] *)

Module LoadPartsSegmentation.
Import PascalSeg.

Lemma paint_app arr l1 l2 : paint arr (l1 ++ l2) = paint (paint arr l1) l2.
Proof. apply foldl_app. Qed.

Lemma paint_length arr layers :
  Forall (λ layer, length layer.1 = length arr) layers →
  length (paint arr layers) = length arr.
Proof.
  intros H. revert arr H. induction layers as [|[m v] layers IH]; intros arr H.
  { done. }
  apply Forall_cons in H as [Hm H]. simpl in *.
  rewrite IH; rewrite length_zip_with; [lia|].
  eapply Forall_impl; [done|]. simpl. intros ??. lia.
Qed.

(** Layers that do not cover the element leave it as it is. *)
Lemma paint_skip arr layers j :
  Forall (λ layer, length layer.1 = length arr
                   ∧ ¬ ∃ m, layer.1 !! j = Some m ∧ m ≠ 0%Z) layers →
  paint arr layers !! j = arr !! j.
Proof.
  intros H. revert arr H. induction layers as [|[m v] layers IH]; intros arr H.
  { done. }
  apply Forall_cons in H as [[Hm Hj] H]. simpl in *.
  rewrite IH.
  - rewrite lookup_zip_with.
    destruct (m !! j) as [x|] eqn:Hx; simpl.
    + destruct (arr !! j); simpl; [|done]. case_bool_decide; [|done].
      exfalso. apply Hj. eauto.
    + apply lookup_ge_None in Hx. symmetry. apply lookup_ge_None. lia.
  - eapply Forall_impl; [done|]. simpl. intros ? [? ?]. split; [|done].
    rewrite length_zip_with. lia.
Qed.

(** The element has the value of the last layer that covers it. *)
Lemma paint_last arr before m v after j :
  Forall (λ layer, length layer.1 = length arr) (before ++ (m, v) :: after) →
  (∃ x, m !! j = Some x ∧ x ≠ 0%Z) →
  Forall (λ layer, ¬ ∃ x, layer.1 !! j = Some x ∧ x ≠ 0%Z) after →
  paint arr (before ++ (m, v) :: after) !! j = Some (int16 v).
Proof.
  intros Hlen (x & Hx & Hne) Hafter.
  apply Forall_app in Hlen as [Hbefore Hlen].
  apply Forall_cons in Hlen as [Hm Hlen]. simpl in Hm.
  rewrite paint_app. change (paint ?a ((m, v) :: after))
    with (paint (zip_with (λ m old, if bool_decide (m ≠ 0%Z) then int16 v else old)
                   m a) after).
  pose proof (paint_length arr before Hbefore) as Hl.
  rewrite paint_skip.
  - rewrite lookup_zip_with, Hx. simpl.
    destruct (paint arr before !! j) as [y|] eqn:Hy; simpl.
    + by rewrite bool_decide_eq_true_2.
    + apply lookup_ge_None in Hy. apply lookup_lt_Some in Hx. lia.
  - rewrite Forall_forall in Hlen, Hafter |- *. intros layer Hin.
    split; [|by apply Hafter]. rewrite length_zip_with, Hl, (Hlen _ Hin). lia.
Qed.

Lemma int16_range v : (-32768 ≤ int16 v < 32768)%Z.
Proof. unfold int16. pose proof (Z.mod_pos_bound (v + 32768) 65536). lia. Qed.

Lemma paint_int16 arr layers :
  Forall (λ x, -32768 ≤ x < 32768)%Z arr →
  Forall (λ x, -32768 ≤ x < 32768)%Z (paint arr layers).
Proof.
  revert arr. induction layers as [|[m v] layers IH]; intros arr Harr; [done|].
  simpl. apply IH. clear IH. revert m.
  induction Harr as [|y arr Hy Harr IH]; intros [|x m]; simpl; try done.
  constructor; [|apply IH]. case_bool_decide; [apply int16_range|done].
Qed.

Section loops.

Variables (part_key : ref) (h : heap) (key : gmap (Z * string) nat).
Hypothesis Hkey : h !! part_key = Some key.
Variable sh : nat * nat.

(** The loop over the parts of one instance. *)
Lemma parts_loop (obj : object_anno) (todo : list part_anno) (arr : list Z) :
  Forall (λ part, shape (part_mask part) = sh
                  ∧ is_Some (key !! (class_ind obj, part_name part))) todo →
  io_for_each (merge_part part_key (class_ind obj)) todo
    {| shape := sh; data := arr |} h
  = (Ok {| shape := sh;
           data := paint arr
                     ((λ part, (data (part_mask part),
                                Z.of_nat (default 0%nat
                                  (key !! (class_ind obj, part_name part)))))
                        <$> todo) |}, h).
Proof using Hkey.
  intros Htodo. revert arr.
  induction Htodo as [|part todo [Hshape [code Hcode]] _ IH]; intros arr; [done|].
  simpl. unfold io_bind at 1, merge_part at 1.
  unfold io_bind at 1, dict_getitem at 1.
  rewrite Hkey. unfold getitem. rewrite Hcode. simpl.
  unfold io_lift, masked_assign. simpl.
  rewrite bool_decide_eq_true_2 by done. apply IH.
Qed.

(** The loop over the instances. *)
Lemma objects_loop (todo : list object_anno) (object_arr part_arr : list Z) :
  annotation_ok key sh todo →
  io_for_each (merge_instance part_key) todo
    ({| shape := sh; data := object_arr |}, {| shape := sh; data := part_arr |}) h
  = (Ok ({| shape := sh; data := paint object_arr (object_layer <$> todo) |},
         {| shape := sh;
            data := paint part_arr (concat (part_layers key <$> todo)) |}), h).
Proof using Hkey.
  intros Htodo. revert object_arr part_arr.
  induction Htodo as [|obj todo (Hshape & _ & Hparts) _ IH];
    intros object_arr part_arr; [done|].
  simpl. unfold io_bind at 1, merge_instance at 1. unfold io_bind at 1.
  unfold io_lift at 1, masked_assign at 1. simpl.
  rewrite bool_decide_eq_true_2 by done.
  unfold io_bind at 1. rewrite parts_loop.
  - unfold io_ret at 1. rewrite IH. by rewrite paint_app.
  - eapply Forall_impl; [done|]. simpl. by intros ? (? & _ & ?).
Qed.

End loops.

(** The layers of a well-formed annotation have the length of the arrays. *)
Lemma object_layers_length key sh objects :
  annotation_ok key sh objects →
  Forall (λ layer, length layer.1 = numel sh) (object_layer <$> objects).
Proof.
  intros H. apply Forall_fmap. eapply Forall_impl; [done|].
  intros obj (Hshape & Hwf & _). simpl. by rewrite Hwf, Hshape.
Qed.

Lemma part_layers_length key sh objects :
  annotation_ok key sh objects →
  Forall (λ layer, length layer.1 = numel sh) (concat (part_layers key <$> objects)).
Proof.
  intros H. apply Forall_concat, Forall_fmap. eapply Forall_impl; [done|].
  intros obj (_ & _ & Hparts). simpl. apply Forall_fmap.
  eapply Forall_impl; [done|]. intros part (Hshape & Hwf & _). simpl.
  by rewrite Hwf, Hshape.
Qed.

(** C9, amended: [load_parts_segmentation] returns the scalar pair (0, 0) if
    and only if the annotation has no object instance; otherwise, when every
    instance mask and part mask is an array of the shape of the first
    instance's mask and [part_key] has a code for every part, it returns two
    [int16] arrays of that shape in which the object value of an element is
    the class index of the last instance whose mask covers it, and the part
    value is the code, looked up in [part_key] under the owning instance's
    class index and the part's name, of the last part mask covering it
    (values as stored in [int16]); the dict is left as it was. *)
Theorem load_parts_segmentation_spec (loadmat : string → outcome mat_file)
    (filename : string) (part_key : ref) (h : heap)
    (key : gmap (Z * string) nat) (d : mat_file) (objects : list object_anno) :
  loadmat filename = Ok d →
  anno d = Some objects →
  h !! part_key = Some key →
  ((load_parts_segmentation loadmat filename part_key h).1
     = Ok (Scalar 0, Scalar 0) ↔ objects = [])
  ∧ ∀ first rest,
      objects = first :: rest →
      annotation_ok key (shape (mask first)) objects →
      ∃ object_seg part_seg,
        load_parts_segmentation loadmat filename part_key h
          = (Ok (Array object_seg, Array part_seg), h)
        ∧ shape object_seg = shape (mask first)
        ∧ shape part_seg = shape (mask first)
        ∧ well_formed object_seg ∧ well_formed part_seg
        ∧ Forall (λ x, -32768 ≤ x < 32768)%Z (data object_seg)
        ∧ Forall (λ x, -32768 ≤ x < 32768)%Z (data part_seg)
        ∧ (∀ before obj after j,
             objects = before ++ obj :: after →
             covers (mask obj) j →
             Forall (λ later, ¬ covers (mask later) j) after →
             data object_seg !! j = Some (int16 (class_ind obj)))
        ∧ (∀ before obj after earlier part later code j,
             objects = before ++ obj :: after →
             parts obj = earlier ++ part :: later →
             covers (part_mask part) j →
             Forall (λ p, ¬ covers (part_mask p) j) later →
             Forall (λ o, Forall (λ p, ¬ covers (part_mask p) j) (parts o)) after →
             key !! (class_ind obj, part_name part) = Some code →
             data part_seg !! j = Some (int16 (Z.of_nat code))).
Proof.
  intros Hfile Hanno Hkey.
  assert (load_parts_segmentation loadmat filename part_key h
          = match objects with
            | [] => (Ok (Scalar 0, Scalar 0), h)
            | first :: _ =>
                io_bind
                  (io_for_each (merge_instance part_key) objects
                     (zeros (shape (mask first)), zeros (shape (mask first))))
                  (λ '(object_seg, part_seg),
                     io_ret (Array object_seg, Array part_seg)) h
            end) as ->.
  { unfold load_parts_segmentation, io_bind at 1 2, io_lift.
    rewrite Hfile, Hanno. by destruct objects. }
  split.
  - destruct objects as [|first rest]; [done|]. split; [|done].
    unfold io_bind. destruct (io_for_each _ _ _ _) as [[[??]|?] ?]; done.
  - intros first rest -> Hok. unfold zeros.
    unfold io_bind at 1. rewrite (objects_loop part_key h key Hkey _ _ _ _ Hok).
    set (sh := shape (mask first)) in *.
    set (blank := replicate (numel sh) 0%Z).
    assert (length blank = numel sh) as Hblank by apply length_replicate.
    assert (Forall (λ x, -32768 ≤ x < 32768)%Z blank) as Hzero.
    { apply Forall_replicate. lia. }
    pose proof (object_layers_length _ _ _ Hok) as Hol.
    pose proof (part_layers_length _ _ _ Hok) as Hpl.
    rewrite <-Hblank in Hol, Hpl.
    do 2 eexists. split; [done|]. cbn [data shape].
    split_and!; try done.
    + unfold well_formed. cbn [data shape]. by rewrite paint_length.
    + unfold well_formed. cbn [data shape]. by rewrite paint_length.
    + by apply paint_int16.
    + by apply paint_int16.
    + intros before obj after j Hsplit Hcov Hafter.
      rewrite Hsplit, fmap_app, fmap_cons in Hol |- *.
      apply paint_last; [done..|].
      apply Forall_fmap. eapply Forall_impl; [done|]. done.
    + intros before obj after earlier part later code j
        Hsplit Hparts Hcov Hlater Hafter Hcode.
      rewrite Hsplit, fmap_app, fmap_cons, concat_app, concat_cons in Hpl |- *.
      unfold part_layers at 2. unfold part_layers at 2 in Hpl.
      rewrite Hparts, fmap_app, fmap_cons, Hcode in Hpl |- *. simpl default in *.
      rewrite <-(app_assoc _ (_ :: _)), app_assoc, <-app_comm_cons in Hpl |- *.
      apply paint_last; [done..|].
      apply Forall_app. split.
      * apply Forall_fmap. eapply Forall_impl; [done|]. done.
      * apply Forall_concat, Forall_fmap. eapply Forall_impl; [done|].
        intros o Ho. unfold part_layers. apply Forall_fmap.
        eapply Forall_impl; [exact Ho|]. intros p Hp. exact Hp.
Qed.

(** The theorem at an annotation of one instance of class 3 with a part
    'tail', of code 7, on the second of two elements. *)
Lemma load_parts_segmentation_spec_witness :
  ∃ object_seg part_seg,
    load_parts_segmentation tail_files "a.mat" 1%positive {[ 1%positive := wing_key ]}
      = (Ok (Array object_seg, Array part_seg), {[ 1%positive := wing_key ]})
    ∧ data object_seg !! 1%nat = Some 3%Z
    ∧ data part_seg !! 1%nat = Some 7%Z.
Proof.
  destruct (load_parts_segmentation_spec tail_files "a.mat" 1%positive
              {[ 1%positive := wing_key ]} wing_key
              {| anno := Some tail_only; LabelMap := Some (row [5; 6]%Z) |}
              tail_only eq_refl eq_refl) as [_ H].
  { by vm_compute. }
  destruct (H _ _ eq_refl) as (os & ps & Hrun & _ & _ & _ & _ & _ & _ & Hos & Hps).
  { repeat constructor. by exists 7%nat. }
  exists os, ps. split; [done|]. split.
  - apply (Hos [] _ [] 1%nat eq_refl); [|constructor].
    exists 1%Z. by split.
  - apply (Hps [] _ [] [] _ [] 7%nat 1%nat eq_refl eq_refl); [|constructor..|done].
    exists 1%Z. by split.
Defined.

(** C9 as stated fails when a part has no code: the annotation has one
    instance, and the call returns neither (0, 0) nor two arrays, it raises
    [KeyError]. *)
Lemma load_parts_segmentation_unknown_part :
  tail_only ≠ []
  ∧ (load_parts_segmentation tail_files "a.mat" 1%positive {[ 1%positive := ∅ ]}).1
    = Raise KeyError
  ∧ ¬ ∃ object_seg part_seg,
        (load_parts_segmentation tail_files "a.mat" 1%positive {[ 1%positive := ∅ ]}).1
        = Ok (Array object_seg, Array part_seg).
Proof.
  assert ((load_parts_segmentation tail_files "a.mat" 1%positive
             {[ 1%positive := ∅ ]}).1 = Raise KeyError) as H by (by vm_compute).
  split; [done|]. split; [done|]. intros (? & ? & H'). congruence.
Qed.

End LoadPartsSegmentation.

(** ** Pixel accounting *)

Module PixelAccounting.
Import Models.

Lemma int64_small (z : Z) : (- 2 ^ 63 ≤ z < 2 ^ 63)%Z → int64 z = z.
Proof. intros H. unfold int64. rewrite Z.mod_small; lia. Qed.

Lemma int64_idem (z : Z) : int64 (int64 z) = int64 z.
Proof.
  apply int64_small. unfold int64.
  pose proof (Z.mod_pos_bound (z + 2 ^ 63) (2 ^ 64)). lia.
Qed.

Lemma sumZ_cons (x : Z) (l : list Z) : sumZ (x :: l) = (x + sumZ l)%Z.
Proof. done. Qed.

Lemma sumZ_app (a b : list Z) : sumZ (a ++ b) = (sumZ a + sumZ b)%Z.
Proof. induction a as [|x a IH]; simpl; [done|]. rewrite IH. lia. Qed.

(** A sum of zeros and ones counts the ones. *)
Lemma sumZ_binary (l : list Z) :
  Forall (λ x, x = 0%Z ∨ x = 1%Z) l → (0 ≤ sumZ l ≤ Z.of_nat (length l))%Z.
Proof. induction 1 as [|x l [->| ->] _ IH]; simpl; lia. Qed.

Lemma ne_long_binary (label : list (list Z)) (k : Z) :
  Forall (Forall (λ x, x = 0%Z ∨ x = 1%Z)) (ne_long label k).
Proof.
  unfold ne_long. apply Forall_fmap, Forall_true. intros row.
  apply Forall_fmap, Forall_true. intros x. simpl. case_bool_decide; auto.
Qed.

Lemma ne_long_length (label : list (list Z)) (k : Z) :
  length <$> ne_long label k = length <$> label.
Proof.
  unfold ne_long. rewrite <-list_fmap_compose. apply list_fmap_ext.
  intros _ row _. simpl. by rewrite length_fmap.
Qed.

Lemma concat_length_shape {A B} (a : list (list A)) (b : list (list B)) :
  length <$> a = length <$> b → length (concat a) = length (concat b).
Proof.
  revert b. induction a as [|x a IH]; intros [|y b]; simpl; try done.
  intros [= Hxy Hab]. rewrite !length_app, Hxy. f_equal. by apply IH.
Qed.

Lemma times_binary (x m : Z) :
  (x = 0 ∨ x = 1)%Z → (m = 0 ∨ m = 1)%Z →
  (int64 (x * m) = 0 ∨ int64 (x * m) = 1)%Z.
Proof. intros [->| ->] [->| ->]; vm_compute; auto. Qed.

(** The mask keeps the shape of the tensor and, when its entries are 0 or 1,
    the entries of the tensor 0 or 1. *)
Lemma imul_samples_ok (t t' : list (list Z)) (v : list Z) :
  imul_samples t v = Ok t' →
  length <$> t' = length <$> t
  ∧ (Forall (λ m, m = 0%Z ∨ m = 1%Z) v →
     Forall (Forall (λ x, x = 0%Z ∨ x = 1%Z)) t →
     Forall (Forall (λ x, x = 0%Z ∨ x = 1%Z)) t').
Proof.
  assert (∀ v t, length v = length t →
    length <$> zip_with (λ m (row : list Z), (λ x, int64 (x * m)) <$> row) v t
    = length <$> t
    ∧ (Forall (λ m, m = 0%Z ∨ m = 1%Z) v →
       Forall (Forall (λ x, x = 0%Z ∨ x = 1%Z)) t →
       Forall (Forall (λ x, x = 0%Z ∨ x = 1%Z))
         (zip_with (λ m (row : list Z), (λ x, int64 (x * m)) <$> row) v t))) as Hzip.
  { clear. intros v. induction v as [|m v IH]; intros [|row t]; simpl; try done.
    intros [= Hlen]. destruct (IH t Hlen) as [Hshape Hbin]. split.
    - f_equal; [apply length_fmap|exact Hshape].
    - intros [Hm Hv]%Forall_cons [Hrow Ht]%Forall_cons.
      constructor; [|by apply Hbin]. apply Forall_fmap.
      eapply Forall_impl; [done|]. intros x Hx. by apply times_binary. }
  unfold imul_samples. destruct v as [|m [|m' v]].
  - case_bool_decide as Hlen; [|done]. intros [= <-]. exact (Hzip [] t Hlen).
  - intros [= <-]. split.
    + rewrite <-list_fmap_compose. apply list_fmap_ext. intros _ row _. simpl.
      by rewrite length_fmap.
    + intros [Hm _]%Forall_cons Ht. apply Forall_fmap.
      eapply Forall_impl; [done|]. intros row Hrow. simpl. apply Forall_fmap.
      eapply Forall_impl; [done|]. intros x Hx. by apply times_binary.
  - case_bool_decide as Hlen; [|done]. intros [= <-].
    exact (Hzip (m :: m' :: v) t Hlen).
Qed.

Section counts.

Context {Score : Type} (argmax : list Score → Z).

(** The valid-element count of [pixel_acc] is not negative when the mask is
    absent or has the entries 0 and 1 only. *)
Lemma pixel_sum_nonneg (pred : list (list (list Score))) (label : list (list Z))
    (ignore_index : Z) (mask : option (list Z)) (acc_sum pixel_sum : Z) :
  (∀ m, mask = Some m → Forall (λ x, x = 0%Z ∨ x = 1%Z) m) →
  (Z.of_nat (length (concat label)) < 2 ^ 63)%Z →
  pixel_acc_counts Score argmax pred label ignore_index mask
    = Ok (acc_sum, pixel_sum) →
  (0 ≤ pixel_sum)%Z.
Proof.
  intros Hmask Hnumel. unfold pixel_acc_counts.
  set (valid := ne_long label ignore_index).
  assert ((∃ valid', match mask with
                     | Some m => imul_samples valid m
                     | None => Ok valid
                     end = Ok valid'
                     ∧ length <$> valid' = length <$> label
                     ∧ Forall (Forall (λ x, x = 0%Z ∨ x = 1%Z)) valid')
          ∨ (∃ e, match mask with
                  | Some m => imul_samples valid m
                  | None => Ok valid
                  end = Raise e)) as [(valid' & -> & Hshape & Hbin)|[e ->]];
    [| |done].
  { destruct mask as [m|].
    - destruct (imul_samples valid m) as [valid'|e] eqn:Hmul; [left|right; eauto].
      exists valid'. split; [done|].
      apply imul_samples_ok in Hmul as [Hshape Hbin]. split.
      + rewrite Hshape. apply ne_long_length.
      + apply Hbin; [by apply Hmask|apply ne_long_binary].
    - left. exists valid. split; [done|]. split.
      + apply ne_long_length.
      + apply ne_long_binary. }
  simpl. destruct (zip_rows eq_long _ label) as [correct|]; [|done]. simpl.
  destruct (zip_rows _ valid' correct) as [hits|]; [|done]. simpl.
  intros [= _ <-]. unfold tensor_sum.
  pose proof (sumZ_binary (concat valid')) as Hsum.
  rewrite (concat_length_shape _ _ Hshape) in Hsum.
  specialize (Hsum (proj2 (Forall_concat _ _) Hbin)).
  rewrite int64_small; lia.
Qed.

Lemma preds_shape (pred : list (list (list Score))) :
  length <$> ((λ sample : list (list Score), argmax <$> sample) <$> pred)
  = length <$> pred.
Proof.
  rewrite <-list_fmap_compose. apply list_fmap_ext. intros _ row _. simpl.
  by rewrite length_fmap.
Qed.

Lemma zip_rows_shape {A B C} (f : A → B → C) (a : list (list A))
    (b : list (list B)) :
  length <$> a = length <$> b →
  zip_rows f a b = Ok (zip_with (zip_with f) a b)
  ∧ length <$> zip_with (zip_with f) a b = length <$> a.
Proof.
  intros Hshape. unfold zip_rows. rewrite bool_decide_eq_true_2 by done.
  split; [done|]. revert b Hshape.
  induction a as [|x a IH]; intros [|y b]; simpl; try done.
  intros [= Hxy Hab]. rewrite length_zip_with, IH by done. f_equal. lia.
Qed.

Lemma imul_samples_total (t : list (list Z)) (v : list Z) :
  length v = length t → ∃ t', imul_samples t v = Ok t'.
Proof.
  intros Hlen. unfold imul_samples. destruct v as [|m [|m' v]]; eauto.
  all: rewrite bool_decide_eq_true_2 by done; eauto.
Qed.

(** On a prediction and a label of one shape, with an entry of the mask for
    every sample, the counts are computed. *)
Lemma pixel_acc_counts_total (pred : list (list (list Score)))
    (label : list (list Z)) (ignore_index : Z) (mask : option (list Z)) :
  length <$> pred = length <$> label →
  (∀ m, mask = Some m → length m = length label) →
  ∃ counts, pixel_acc_counts Score argmax pred label ignore_index mask = Ok counts.
Proof.
  intros Hshape Hmask. unfold pixel_acc_counts.
  assert (∃ valid', match mask with
                    | Some m => imul_samples (ne_long label ignore_index) m
                    | None => Ok (ne_long label ignore_index)
                    end = Ok valid'
                    ∧ length <$> valid' = length <$> label)
    as (valid' & -> & Hvalid).
  { destruct mask as [m|].
    - destruct (imul_samples_total (ne_long label ignore_index) m)
        as [valid' Hmul].
      { rewrite (Hmask m eq_refl). unfold ne_long. by rewrite length_fmap. }
      exists valid'. split; [done|].
      apply imul_samples_ok in Hmul as [-> _]. apply ne_long_length.
    - eexists. split; [done|]. apply ne_long_length. }
  simpl.
  destruct (zip_rows_shape eq_long
              ((λ sample : list (list Score), argmax <$> sample) <$> pred) label)
    as [-> Hcorrect].
  { by rewrite preds_shape. }
  simpl.
  destruct (zip_rows_shape (λ v c, int64 (v * c)) valid'
              (zip_with (zip_with eq_long)
                 ((λ sample : list (list Score), argmax <$> sample) <$> pred) label))
    as [-> _].
  { by rewrite Hcorrect, preds_shape, Hvalid. }
  simpl. eauto.
Qed.

(** The two functions compute their counts by the same expressions. *)
Lemma pixel_acc_counts_eq (pred : list (list (list Score)))
    (label : list (list Z)) (ignore_index : Z) (mask : option (list Z)) :
  pixel_acc_counts Score argmax pred label ignore_index mask
  = get_correct_and_valid_pixels Score argmax pred label ignore_index mask.
Proof.
  unfold pixel_acc_counts, get_correct_and_valid_pixels.
  destruct (match mask with Some m => _ | None => _ end) as [valid|]; [|done].
  simpl. destruct (zip_rows eq_long _ label) as [correct|]; [|done]. simpl.
  destruct (zip_rows _ valid correct) as [hits|]; [|done]. simpl.
  unfold tensor_sum. by rewrite !int64_idem.
Qed.

(** C10: on identical inputs the correct and valid counts [pixel_acc]
    computes are the pair [get_correct_and_valid_pixels] returns (and one
    raises when the other does); so [pixel_acc] returns its [missing_score]
    exactly when [get_correct_and_valid_pixels] returns a valid count of
    zero. *)
Theorem pixel_acc_counts_agree {M} (pred : list (list (list Score)))
    (label : list (list Z)) (ignore_index : Z) (mask : option (list Z))
    (missing_score : M) :
  pixel_acc_counts Score argmax pred label ignore_index mask
    = get_correct_and_valid_pixels Score argmax pred label ignore_index mask
  ∧ ((∃ m, pixel_acc Score argmax pred label ignore_index mask missing_score
            = Ok (Missing m))
     ↔ (∃ correct,
          get_correct_and_valid_pixels Score argmax pred label ignore_index mask
          = Ok (correct, 0%Z)))
  ∧ (∀ m, pixel_acc Score argmax pred label ignore_index mask missing_score
          = Ok (Missing m) → m = missing_score).
Proof.
  pose proof (pixel_acc_counts_eq pred label ignore_index mask) as Hcounts.
  split; [done|]. unfold pixel_acc. rewrite Hcounts.
  destruct (get_correct_and_valid_pixels _ _ _ _ _ _) as [[acc_sum pixel_sum]|];
    simpl.
  - case_bool_decide as Hzero; subst.
    + split; [split; eauto|]. by intros m [= <-].
    + split; [|done]. split; [by intros [m ?]|]. intros [c [= _ ?]]. done.
  - split; [|done]. split; by intros [? ?].
Qed.

(** C8: [pixel_acc] never divides by zero.  When the valid count is zero it
    returns [missing_score] and forms no quotient; otherwise the divisor
    [pixel_sum + 1e-10] is not zero and it returns the quotient of the correct
    count by that divisor, and the valid count is strictly positive for a
    validity mask (absent, or with the entries 0 and 1 only) on a label of
    fewer than 2^63 elements.  It raises only where the counts cannot be
    computed, which does not happen on a prediction and a label of one shape
    with one mask entry a sample. *)
Theorem pixel_acc_no_division_by_zero {M} (pred : list (list (list Score)))
    (label : list (list Z)) (ignore_index : Z) (mask : option (list Z))
    (missing_score : M) :
  match pixel_acc_counts Score argmax pred label ignore_index mask with
  | Ok (acc_sum, pixel_sum) =>
      (pixel_sum = 0%Z →
       pixel_acc Score argmax pred label ignore_index mask missing_score
       = Ok (Missing missing_score))
      ∧ (pixel_sum ≠ 0%Z →
         ¬ (inject_Z pixel_sum + (1 # 10000000000) == 0)%Q
         ∧ pixel_acc Score argmax pred label ignore_index mask missing_score
           = Ok (Accuracy (inject_Z acc_sum
                           / (inject_Z pixel_sum + (1 # 10000000000)))%Q)
         ∧ ((∀ m, mask = Some m → Forall (λ x, x = 0%Z ∨ x = 1%Z) m) →
            (Z.of_nat (length (concat label)) < 2 ^ 63)%Z →
            (0 < pixel_sum)%Z))
  | Raise e =>
      pixel_acc Score argmax pred label ignore_index mask missing_score = Raise e
  end
  ∧ (length <$> pred = length <$> label →
     (∀ m, mask = Some m → length m = length label) →
     ∃ r, pixel_acc Score argmax pred label ignore_index mask missing_score
          = Ok r).
Proof.
  split.
  - unfold pixel_acc.
    destruct (pixel_acc_counts _ _ _ _ _ _) as [[acc_sum pixel_sum]|e] eqn:Hc;
      [|done].
    cbn [bind]. split.
    + intros ->. done.
    + intros Hne. rewrite bool_decide_eq_false_2 by done.
      split; [|split; [done|]].
      * unfold Qeq. simpl. lia.
      * intros Hmask Hnumel.
        pose proof (pixel_sum_nonneg _ _ _ _ _ _ Hmask Hnumel Hc). lia.
  - intros Hshape Hlen. unfold pixel_acc.
    destruct (pixel_acc_counts_total pred label ignore_index mask Hshape Hlen)
      as [[acc_sum pixel_sum] ->].
    simpl. case_bool_decide; eauto.
Qed.

(** One sample under a mask entry 0 and under a mask entry 1. *)
Lemma sample_masked_out (row correct : list Z) :
  sumZ ((λ x, int64 (x * 0)) <$> row) = 0%Z
  ∧ sumZ (zip_with (λ v c, int64 (v * c)) ((λ x, int64 (x * 0)) <$> row) correct)
    = 0%Z.
Proof.
  revert correct. induction row as [|x row IH]; intros correct; [done|].
  destruct (IH []) as [Hrow _]. rewrite fmap_cons. split.
  - rewrite sumZ_cons, Hrow, Z.mul_0_r. by vm_compute.
  - destruct correct as [|c correct]; [done|]. cbn [zip_with].
    destruct (IH correct) as [_ Hhits].
    rewrite sumZ_cons, Hhits, Z.mul_0_r. by vm_compute.
Qed.

Lemma sample_counted (ignore_index : Z) (p : list (list Score)) (l : list Z) :
  sumZ ((λ x, int64 (x * 1))
          <$> ((λ x, if bool_decide (x ≠ ignore_index) then 1%Z else 0%Z) <$> l))
  = Z.of_nat (sample_valid ignore_index l)
  ∧ sumZ (zip_with (λ v c, int64 (v * c))
            ((λ x, int64 (x * 1))
               <$> ((λ x, if bool_decide (x ≠ ignore_index) then 1%Z else 0%Z) <$> l))
            (zip_with eq_long (argmax <$> p) l))
    = Z.of_nat (sample_correct Score argmax ignore_index p l).
Proof.
  unfold sample_valid, sample_correct. revert p.
  induction l as [|x l IH]; intros p.
  { split; [done|]. by destruct p. }
  destruct (IH []) as [Hrow _]. rewrite !fmap_cons. split.
  - rewrite filter_cons, sumZ_cons, Hrow.
    case_bool_decide; case_decide; try done; cbn [length]; vm_compute int64; lia.
  - destruct p as [|s p]; [done|]. rewrite fmap_cons. cbn [zip_with].
    rewrite filter_cons, sumZ_cons.
    destruct (IH p) as [_ Hhits]. rewrite Hhits.
    unfold eq_long.
    repeat case_bool_decide; case_decide as Hd; cbn [fst snd] in *;
      cbn [length]; vm_compute int64; try lia; naive_solver.
Qed.

Lemma imul_samples_zip (t : list (list Z)) (v : list Z) :
  length v = length t →
  imul_samples t v
  = Ok (zip_with (λ m (row : list Z), (λ x, int64 (x * m)) <$> row) v t).
Proof.
  intros Hlen. unfold imul_samples. destruct v as [|m [|m' v]].
  - by rewrite bool_decide_eq_true_2.
  - by destruct t as [|row [|row' t]].
  - by rewrite bool_decide_eq_true_2.
Qed.

Lemma kept_samples_cons (m : Z) (mask : list Z) (p : list (list Score))
    (pred : list (list (list Score))) (l : list Z) (label : list (list Z)) :
  kept_samples Score (m :: mask) (p :: pred) (l :: label)
  = if decide (m = 1%Z)
    then (m, (p, l)) :: kept_samples Score mask pred label
    else kept_samples Score mask pred label.
Proof. unfold kept_samples. cbn [zip_with]. by rewrite filter_cons. Qed.

Lemma sample_counts_le (ignore_index : Z) (p : list (list Score)) (l : list Z) :
  (sample_correct Score argmax ignore_index p l ≤ length l)%nat
  ∧ (sample_valid ignore_index l ≤ length l)%nat.
Proof.
  split; [|apply length_filter]. unfold sample_correct.
  etrans; [apply length_filter|]. rewrite length_zip_with. lia.
Qed.

(** The sums of the batch are the counts over the samples of mask entry 1,
    and these do not exceed the number of elements of the label. *)
Lemma batch_sums (ignore_index : Z) (mask : list Z)
    (pred : list (list (list Score))) (label : list (list Z)) :
  length mask = length label →
  length pred = length label →
  Forall (λ m, m = 0%Z ∨ m = 1%Z) mask →
  sumZ (concat
     (zip_with (zip_with (λ v c, int64 (v * c)))
        (zip_with (λ m (row : list Z), (λ x, int64 (x * m)) <$> row) mask
           (ne_long label ignore_index))
        (zip_with (zip_with eq_long)
           ((λ sample : list (list Score), argmax <$> sample) <$> pred) label)))
  = Z.of_nat (correct_over Score argmax ignore_index
                (kept_samples Score mask pred label))
  ∧ sumZ (concat
       (zip_with (λ m (row : list Z), (λ x, int64 (x * m)) <$> row) mask
          (ne_long label ignore_index)))
    = Z.of_nat (valid_over Score ignore_index (kept_samples Score mask pred label))
  ∧ (correct_over Score argmax ignore_index (kept_samples Score mask pred label)
     ≤ length (concat label))%nat
  ∧ (valid_over Score ignore_index (kept_samples Score mask pred label)
     ≤ length (concat label))%nat.
Proof.
  revert pred label.
  induction mask as [|m mask IH]; intros pred label Hmask Hpred Hbin.
  { destruct label; [|done]. destruct pred; [|done].
    split_and!; (reflexivity || (simpl; lia)). }
  destruct label as [|l label]; [done|]. destruct pred as [|p pred]; [done|].
  injection Hmask as Hmask. injection Hpred as Hpred.
  apply Forall_cons in Hbin as [Hm Hbin].
  destruct (IH pred label Hmask Hpred Hbin) as (Hc & Hv & Hcb & Hvb).
  destruct (sample_counts_le ignore_index p l) as [Hcl Hvl].
  rewrite kept_samples_cons.
  unfold ne_long. rewrite !fmap_cons. fold (ne_long label ignore_index).
  cbn [zip_with concat]. rewrite !sumZ_app, Hc, Hv, length_app.
  destruct Hm as [-> | ->].
  - destruct (sample_masked_out
                ((λ x, if bool_decide (x ≠ ignore_index) then 1%Z else 0%Z) <$> l)
                (zip_with eq_long (argmax <$> p) l)) as [-> ->].
    rewrite decide_False by done. split_and!; lia.
  - destruct (sample_counted ignore_index p l) as [-> ->].
    rewrite decide_True by done.
    change (correct_over Score argmax ignore_index (?s :: ?ss))
      with (sample_correct Score argmax ignore_index s.2.1 s.2.2
            + correct_over Score argmax ignore_index ss)%nat.
    change (valid_over Score ignore_index (?s :: ?ss))
      with (sample_valid ignore_index s.2.2 + valid_over Score ignore_index ss)%nat.
    cbn [fst snd]. split_and!; lia.
Qed.

(** A sample of mask entry 0 is none of the kept samples. *)
Lemma kept_samples_without (mask1 mask2 : list Z)
    (pred1 pred2 : list (list (list Score))) (label1 label2 : list (list Z))
    (p : list (list Score)) (l : list Z) :
  length mask1 = length label1 → length pred1 = length label1 →
  kept_samples Score (mask1 ++ 0%Z :: mask2) (pred1 ++ p :: pred2)
    (label1 ++ l :: label2)
  = kept_samples Score (mask1 ++ mask2) (pred1 ++ pred2) (label1 ++ label2).
Proof.
  intros Hmask Hpred. unfold kept_samples.
  assert (length mask1 = length (zip pred1 label1)) as Hzip.
  { rewrite length_zip_with. lia. }
  rewrite (zip_with_app pair pred1 (p :: pred2) label1 (l :: label2)) by done.
  rewrite (zip_with_app pair pred1 pred2 label1 label2) by done.
  rewrite (zip_with_app pair mask1 (0%Z :: mask2)) by done.
  rewrite (zip_with_app pair mask1 mask2) by done.
  rewrite !filter_app. by f_equal.
Qed.

(** C4: the per-sample validity mask is honoured by the pixel accounting.
    On a prediction and a label of one shape with a mask entry, 0 or 1, for
    every sample, [get_correct_and_valid_pixels] returns, and [pixel_acc]
    uses, the counts over the samples whose mask entry is 1 only, restricted
    to the elements whose label differs from [ignore_index]; a sample whose
    mask entry is 0 contributes zero to both counts: they are the counts of
    the batch without it. *)
Theorem get_correct_and_valid_pixels_masked (pred : list (list (list Score)))
    (label : list (list Z)) (ignore_index : Z) (mask : list Z) :
  batch_ok Score pred label mask →
  get_correct_and_valid_pixels Score argmax pred label ignore_index (Some mask)
    = Ok (counts_over Score argmax ignore_index (kept_samples Score mask pred label))
  ∧ pixel_acc_counts Score argmax pred label ignore_index (Some mask)
    = Ok (counts_over Score argmax ignore_index (kept_samples Score mask pred label))
  ∧ ∀ mask1 mask2 pred1 p pred2 label1 l label2,
      length mask1 = length label1 → length pred1 = length label1 →
      mask = mask1 ++ 0%Z :: mask2 →
      pred = pred1 ++ p :: pred2 →
      label = label1 ++ l :: label2 →
      get_correct_and_valid_pixels Score argmax pred label ignore_index (Some mask)
      = Ok (counts_over Score argmax ignore_index
              (kept_samples Score (mask1 ++ mask2) (pred1 ++ pred2)
                 (label1 ++ label2))).
Proof.
  intros [Hshape Hmask Hbin Hnumel].
  assert (length pred = length label) as Hpred.
  { apply (f_equal length) in Hshape. by rewrite !length_fmap in Hshape. }
  assert (pixel_acc_counts Score argmax pred label ignore_index (Some mask)
          = Ok (counts_over Score argmax ignore_index
                  (kept_samples Score mask pred label))) as Hcounts.
  { assert (length mask = length (ne_long label ignore_index)) as Hnl.
    { unfold ne_long. by rewrite length_fmap. }
    unfold pixel_acc_counts. rewrite imul_samples_zip by done.
    simpl bind.
    destruct (zip_rows_shape eq_long
                ((λ sample : list (list Score), argmax <$> sample) <$> pred) label)
      as [-> Hcorrect].
    { by rewrite preds_shape. }
    simpl bind.
    destruct (zip_rows_shape (λ v c, int64 (v * c))
                (zip_with (λ m (row : list Z), (λ x, int64 (x * m)) <$> row) mask
                   (ne_long label ignore_index))
                (zip_with (zip_with eq_long)
                   ((λ sample : list (list Score), argmax <$> sample) <$> pred)
                   label)) as [-> _].
    { rewrite Hcorrect, preds_shape, Hshape.
      destruct (imul_samples_ok (ne_long label ignore_index) _ mask
                  (imul_samples_zip _ _ Hnl)) as [-> _].
      apply ne_long_length. }
    simpl bind. unfold tensor_sum.
    destruct (batch_sums ignore_index mask pred label Hmask Hpred Hbin)
      as (Hc & Hv & Hcb & Hvb).
    rewrite Hc, Hv. unfold counts_over.
    rewrite !int64_small by lia. done. }
  assert (get_correct_and_valid_pixels Score argmax pred label ignore_index
            (Some mask)
          = Ok (counts_over Score argmax ignore_index
                  (kept_samples Score mask pred label))) as Hget.
  { by rewrite <-pixel_acc_counts_eq. }
  split; [done|]. split; [done|].
  intros mask1 mask2 pred1 p pred2 label1 l label2 H1 H2 -> -> ->.
  rewrite Hget. by rewrite kept_samples_without.
Qed.

End counts.

Lemma tiny_batch_ok : batch_ok Z tiny_pred tiny_label tiny_mask.
Proof.
  split; [reflexivity|reflexivity| |by vm_compute].
  apply Forall_cons; split; [by right|].
  apply Forall_cons; split; [by left|]. apply Forall_nil_2.
Defined.

(** The theorem at the batch of two samples, the second masked out: one
    valid element, predicted right. *)
Lemma get_correct_and_valid_pixels_masked_witness :
  get_correct_and_valid_pixels Z argmaxZ tiny_pred tiny_label 0 (Some tiny_mask)
  = Ok (1, 1)%Z.
Proof.
  destruct (get_correct_and_valid_pixels_masked argmaxZ tiny_pred tiny_label 0
              tiny_mask tiny_batch_ok) as [H _].
  rewrite H. reflexivity.
Defined.

(** The theorem at the same batch: the valid count is 1 and the accuracy is
    1 / (1 + 1e-10). *)
Lemma pixel_acc_no_division_by_zero_witness :
  pixel_acc Z argmaxZ tiny_pred tiny_label 0 (Some tiny_mask) 1%Q
  = Ok (Accuracy (inject_Z 1 / (inject_Z 1 + (1 # 10000000000)))%Q)
  ∧ (0 < 1)%Z.
Proof.
  destruct (pixel_acc_no_division_by_zero argmaxZ tiny_pred tiny_label 0
              (Some tiny_mask) 1%Q) as [H _].
  assert (pixel_acc_counts Z argmaxZ tiny_pred tiny_label 0 (Some tiny_mask)
          = Ok (1, 1)%Z) as Hcounts by reflexivity.
  rewrite Hcounts in H. destruct H as [_ H].
  destruct H as (_ & H & Hpositive); [done|].
  split; [exact H|]. apply Hpositive; [|by vm_compute].
  intros m [= <-]. apply tiny_batch_ok.
Defined.

End PixelAccounting.

(** ** The masked cross entropy *)

Module MaskedLoss.
Import Models.
Local Open Scope Q_scope.

Lemma sumQ_cons (x : Q) (l : list Q) : sumQ (x :: l) = x + sumQ l.
Proof. done. Qed.

Lemma sumQ_app (a b : list Q) : sumQ (a ++ b) == sumQ a + sumQ b.
Proof.
  induction a as [|x a IH]; simpl app.
  - change (sumQ []) with 0. ring.
  - rewrite !sumQ_cons, IH. ring.
Qed.

Lemma sumQ_scale (k : Q) (l : list Q) : sumQ ((λ x, k * x) <$> l) == k * sumQ l.
Proof.
  induction l as [|x l IH].
  - change (sumQ (_ <$> [])) with 0. change (sumQ []) with 0. ring.
  - rewrite fmap_cons, !sumQ_cons, IH. ring.
Qed.

Lemma mul_samples_zip (v : list Z) (t : list (list Q)) :
  length v = length t →
  mul_samples v t
  = Ok (zip_with (λ m (row : list Q), (λ x, inject_Z m * x) <$> row) v t).
Proof.
  intros Hlen. unfold mul_samples.
  destruct v as [|m [|m' v]], t as [|row [|row' t]]; try done.
  all: by rewrite bool_decide_eq_true_2.
Qed.

Lemma scaled_shape (v : list Z) (t : list (list Q)) :
  length v = length t →
  length <$> zip_with (λ m (row : list Q), (λ x, inject_Z m * x) <$> row) v t
  = length <$> t.
Proof.
  revert t. induction v as [|m v IH]; intros [|row t]; try done.
  intros [= Hlen]. cbn [zip_with]. rewrite !fmap_cons, length_fmap, IH; done.
Qed.

Section loss.

Context {Score : Type} (nll : list Score → Z → Q).

(** The sum of the masked element losses is the sum over the samples of the
    mask entry times the loss of the sample. *)
Lemma masked_sum (ignore_index : Z) (mask : list Z)
    (input : list (list (list Score))) (target : list (list Z)) :
  length mask = length target → length input = length target →
  sumQ (concat
          (zip_with (λ m (row : list Q), (λ x, inject_Z m * x) <$> row) mask
             (zip_with (zip_with (element_loss Score nll ignore_index)) input target)))
  == masked_loss Score nll ignore_index (zip mask (zip input target)).
Proof.
  revert input target.
  induction mask as [|m mask IH]; intros input target Hmask Hinput.
  { reflexivity. }
  destruct target as [|t target]; [done|]. destruct input as [|i input]; [done|].
  injection Hmask as Hmask. injection Hinput as Hinput.
  cbn [zip_with concat]. unfold masked_loss. rewrite fmap_cons, sumQ_cons.
  rewrite sumQ_app, sumQ_scale, (IH input target Hmask Hinput).
  reflexivity.
Qed.

(** The samples of mask entry 0 add nothing. *)
Lemma masked_loss_nonzero (ignore_index : Z)
    (samples : list (Z * (list (list Score) * list Z))) :
  masked_loss Score nll ignore_index samples
  == masked_loss Score nll ignore_index (filter (λ s, s.1 ≠ 0%Z) samples).
Proof.
  unfold masked_loss. induction samples as [|[m [i t]] samples IH].
  { reflexivity. }
  rewrite filter_cons, fmap_cons, sumQ_cons, IH. cbn [fst snd].
  case_decide as Hm.
  - by rewrite fmap_cons, sumQ_cons.
  - rewrite Hm. change (inject_Z 0) with 0. ring.
Qed.

(** C5: on an input and a target of one shape with a mask entry for every
    sample, [CrossEntropyLossWithValidationMask.forward] returns the mean,
    over all target elements of all samples, of the element's cross-entropy
    loss times the sample's mask entry: the sum of the masked losses divided
    by the number of all target elements.  A sample of mask entry 0 adds
    nothing to the sum, which is the sum over the samples of non-zero mask
    entry, while its elements are counted in the divisor. *)
Theorem masked_cross_entropy_mean (ignore_index : Z)
    (input : list (list (list Score))) (target : list (list Z))
    (validation_mask : list Z) :
  length <$> input = length <$> target →
  length validation_mask = length target →
  (length (concat target) = 0%nat →
   CrossEntropyLossWithValidationMask_forward Score nll ignore_index input target
     validation_mask = Ok nan)
  ∧ (length (concat target) ≠ 0%nat →
     ∃ mean_loss,
       CrossEntropyLossWithValidationMask_forward Score nll ignore_index input
         target validation_mask = Ok (fin mean_loss)
       ∧ mean_loss
         == masked_loss Score nll ignore_index
              (zip validation_mask (zip input target))
            / inject_Z (Z.of_nat (length (concat target)))
       ∧ mean_loss
         == masked_loss Score nll ignore_index
              (filter (λ s, s.1 ≠ 0%Z) (zip validation_mask (zip input target)))
            / inject_Z (Z.of_nat (length (concat target)))).
Proof.
  intros Hshape Hmask.
  assert (length input = length target) as Hinput.
  { apply (f_equal length) in Hshape. by rewrite !length_fmap in Hshape. }
  unfold CrossEntropyLossWithValidationMask_forward, cross_entropy_none.
  destruct (PixelAccounting.zip_rows_shape (element_loss Score nll ignore_index)
              input target Hshape) as [-> Hloss].
  simpl bind.
  assert (length validation_mask
          = length (zip_with (zip_with (element_loss Score nll ignore_index))
                      input target)) as Hlen.
  { rewrite length_zip_with. lia. }
  rewrite (mul_samples_zip _ _ Hlen). simpl bind.
  pose proof (scaled_shape _ _ Hlen) as Hscaled.
  rewrite Hloss, Hshape in Hscaled.
  apply PixelAccounting.concat_length_shape in Hscaled.
  unfold tensor_mean, tensor_sumQ. rewrite Hscaled.
  split.
  - intros ->. done.
  - intros Hne. destruct (length (concat target)) as [|n] eqn:Hn; [done|].
    eexists. split; [done|].
    rewrite masked_sum by done. split; [reflexivity|].
    by rewrite <-masked_loss_nonzero.
Qed.

End loss.

(** The theorem at the batch of two samples with the targets 0, 0 and 1, 1:
    the first sample has the loss 4, the second is masked out, and the mean
    over the four elements is 1. *)
Lemma masked_cross_entropy_mean_witness :
  ∃ mean_loss,
    CrossEntropyLossWithValidationMask_forward Z hinge (-1) tiny_pred
      [ [0; 0]; [1; 1] ]%Z tiny_mask = Ok (fin mean_loss)
    ∧ mean_loss == 1.
Proof.
  destruct (masked_cross_entropy_mean hinge (-1) tiny_pred [ [0; 0]; [1; 1] ]%Z
              tiny_mask eq_refl eq_refl) as [_ H].
  destruct H as (mean_loss & Hrun & Hmean & _); [done|].
  exists mean_loss. split; [exact Hrun|]. rewrite Hmean. reflexivity.
Defined.

End MaskedLoss.

(** ** The loss of [SegmentationModule.forward] *)

Module ForwardLoss.
Import Models.

Lemma od_getitem_setitem {V} (d : list (string * V)) (k k' : string) (v : V) :
  od_getitem (od_setitem d k' v) k
  = if decide (k' = k) then Ok v else od_getitem d k.
Proof.
  induction d as [|[k0 v0] d IH]; simpl.
  - by case_decide.
  - destruct (decide (k0 = k')) as [->|Hne]; simpl.
    + by case_decide.
    + destruct (decide (k0 = k)) as [->|]; [|done].
      by rewrite decide_False by done.
Qed.

Lemma od_setitem_keys {V} (d : list (string * V)) (k : string) (v : V) :
  k ∉ d.*1 → (od_setitem d k v).*1 = d.*1 ++ [k].
Proof.
  induction d as [|[k0 v0] d IH]; [done|].
  rewrite fmap_cons. intros [Hne Hk]%not_elem_of_cons.
  cbn [od_setitem fst]. rewrite decide_False by done.
  rewrite fmap_cons, IH by done. done.
Qed.

Section forward.

Context {Score : Type} (argmax : list Score → Z) (nll : list Score → Z → Q).
Context (object_with_part : list Z).

(** The terms of the total, one for each key, in the order of the keys. *)
Lemma scaled_losses_terms (scale : list (string * Q))
    (loss_dict : list (string * scalar)) (keys : list string)
    (terms : list scalar) :
  scaled_losses scale loss_dict keys = Ok terms →
  Forall2 (λ k term, ∃ l w, od_getitem loss_dict k = Ok l
                            ∧ od_getitem scale k = Ok w
                            ∧ term = scalar_mul l w) keys terms.
Proof.
  unfold scaled_losses.
  cut (∀ acc terms,
         for_each (λ acc k,
                     let? l := od_getitem loss_dict k in
                     let? w := od_getitem scale k in
                     Ok (acc ++ [scalar_mul l w])) keys acc = Ok terms →
         ∃ ts, terms = acc ++ ts
               ∧ Forall2 (λ k term, ∃ l w, od_getitem loss_dict k = Ok l
                                           ∧ od_getitem scale k = Ok w
                                           ∧ term = scalar_mul l w) keys ts).
  { intros H Hrun. by destruct (H [] terms Hrun) as (ts & -> & ?). }
  clear terms. induction keys as [|k keys IH]; intros acc terms.
  { intros [= <-]. exists []. by rewrite app_nil_r. }
  rewrite for_each_cons.
  destruct (od_getitem loss_dict k) as [l|] eqn:Hl; [|done].
  destruct (od_getitem scale k) as [w|] eqn:Hw; [|done]. simpl bind.
  intros (ts & -> & Hts)%IH. exists (scalar_mul l w :: ts).
  split; [by rewrite <-app_assoc|]. constructor; eauto.
Qed.

(** The part loss is the sum of [part_loss] over the object classes that
    have parts. *)
Lemma part_loss_sum {Image} (p : list (list (list (list Score))))
    (feed : feed_dict Image) (classes : list (nat * Z)) (acc total : scalar) :
  for_each (λ acc '(idx_part, object_label),
              let? p_idx := list_getitem p (Z.of_nat idx_part) in
              let? valid := column (valid_part feed) idx_part in
              let? l := part_loss Score nll p_idx (seg_part feed)
                          (seg_object feed) object_label valid in
              Ok (scalar_add acc l)) classes acc = Ok total →
  ∃ losses,
    Forall2 (λ class l, ∃ p_idx valid,
               list_getitem p (Z.of_nat class.1) = Ok p_idx
               ∧ column (valid_part feed) class.1 = Ok valid
               ∧ part_loss Score nll p_idx (seg_part feed) (seg_object feed)
                   class.2 valid = Ok l) classes losses
    ∧ total = foldl scalar_add acc losses.
Proof.
  revert acc. induction classes as [|[idx label] classes IH]; intros acc.
  { intros [= <-]. by exists []. }
  rewrite for_each_cons.
  destruct (list_getitem p (Z.of_nat idx)) as [p_idx|] eqn:Hp; [|done].
  destruct (column (valid_part feed) idx) as [valid|] eqn:Hv; [|done].
  simpl bind at 1.
  destruct (part_loss _ _ _ _ _ _ _) as [l|] eqn:Hl; [|done]. simpl bind.
  intros (losses & Hlosses & ->)%IH. exists (l :: losses).
  split; [|done]. constructor; [|done]. exists p_idx, valid. eauto.
Qed.

Lemma od_getitem_elem {V} (d : list (string * V)) (k : string) (v : V) :
  od_getitem d k = Ok v → k ∈ d.*1.
Proof.
  induction d as [|[k0 v0] d IH]; [done|]. simpl. case_decide as Hk.
  - intros _. subst. left.
  - intros H. right. by apply IH.
Qed.

Ltac run_heads :=
  cbn [bind];
  repeat match goal with
         | |- context [bind ?r _] =>
             lazymatch r with
             | bind _ _ => fail
             | Ok _ => fail
             | _ => destruct r as [?|?] eqn:?; cbn [bind]
             end
         end.

(** The keys of the losses are the computed heads. *)
Lemma head_losses_keys {Image} (pred : prediction_dict Score)
    (feed : feed_dict Image) (d : list (string * scalar)) :
  head_losses Score nll object_with_part pred feed = Ok d →
  d.*1 = computed_heads pred.
Proof.
  unfold head_losses, computed_heads.
  destruct pred as [[o|] [pp|] [sc|] [m|]];
    cbn [pred_object pred_part pred_scene pred_material];
    run_heads; try done; by intros [= <-].
Qed.

Lemma head_losses_part {Image} (pred : prediction_dict Score)
    (feed : feed_dict Image) (d : list (string * scalar))
    (p : list (list (list (list Score)))) :
  head_losses Score nll object_with_part pred feed = Ok d →
  pred_part pred = Some p →
  ∃ total,
    for_each (λ acc '(idx_part, object_label),
                let? p_idx := list_getitem p (Z.of_nat idx_part) in
                let? valid := column (valid_part feed) idx_part in
                let? l := part_loss Score nll p_idx (seg_part feed)
                            (seg_object feed) object_label valid in
                Ok (scalar_add acc l))
      (enumerate object_with_part) (fin 0) = Ok total
    ∧ od_getitem d "part" = Ok total.
Proof.
  unfold head_losses.
  destruct pred as [[o|] [pp|] [sc|] [m|]];
    cbn [pred_object pred_part pred_scene pred_material];
    try done; intros Hrun [= <-]; revert Hrun;
    run_heads; try done; intros [= <-]; eexists; (split; [done|reflexivity]).
Qed.

(** C6: in training mode ([seg_size] is [None]) with the metric and loss
    calculations enabled, [forward] asks the decoder for all four heads; the
    keys of the loss dict are the heads the decoder computed and 'total'; the
    part loss is the sum of [part_loss] over the object classes that have
    parts; and the total is the sum, over the computed heads, of the loss of
    the head times its entry of [loss_scale], which is object 1, part 0.5,
    scene 0.25, material 1 when the constructor is given none. *)
Theorem forward_training_loss {Image Features SegSize}
    (self : SegmentationModule Score Image Features SegSize)
    (feed : feed_dict Image) (out : output_dict Score) :
  disable_metric_and_loss_calculations self = false →
  forward Score argmax nll object_with_part self feed None = Ok out →
  out_pred out
    = decoder self (encoder self (img feed))
        {| switch_object := true; switch_part := true;
           switch_scene := true; switch_material := true |} None
  ∧ (∃ loss_dict terms,
       out_loss out = Some loss_dict
       ∧ loss_dict.*1 = computed_heads (out_pred out) ++ ["total"]
       ∧ Forall2 (λ k term, ∃ l w, od_getitem loss_dict k = Ok l
                                   ∧ od_getitem (loss_scale self) k = Ok w
                                   ∧ term = scalar_mul l w)
           (computed_heads (out_pred out)) terms
       ∧ od_getitem loss_dict "total" = Ok (foldl scalar_add (fin 0) terms)
       ∧ ∀ p, pred_part (out_pred out) = Some p →
           ∃ losses,
             Forall2 (λ class l, ∃ p_idx valid,
                        list_getitem p (Z.of_nat class.1) = Ok p_idx
                        ∧ column (valid_part feed) class.1 = Ok valid
                        ∧ part_loss Score nll p_idx (seg_part feed)
                            (seg_object feed) class.2 valid = Ok l)
               (enumerate object_with_part) losses
             ∧ od_getitem loss_dict "part"
               = Ok (foldl scalar_add (fin 0) losses))
  ∧ (∀ net_enc net_dec switch disable,
       loss_scale
         (SegmentationModule_init Score (Image := Image) (Features := Features)
            (SegSize := SegSize) net_enc net_dec None switch disable)
       = [("object", 1); ("part", 1 # 2); ("scene", 1 # 4); ("material", 1)]%Q).
Proof.
  intros Hdisable. unfold forward. rewrite Hdisable.
  set (pred := decoder self (encoder self (img feed)) all_heads None).
  destruct (forward_loss _ _ _ _ pred feed) as [loss_dict|] eqn:Hloss; [|done].
  cbn [bind].
  destruct (forward_metric _ _ _ pred feed) as [metric_dict|]; [|done].
  cbn [bind]. intros [= <-]. cbn [out_pred out_loss].
  split; [done|]. split; [|done].
  unfold forward_loss in Hloss.
  destruct (head_losses _ _ _ pred feed) as [d|] eqn:Hd; [|done].
  cbn [bind] in Hloss.
  destruct (scaled_losses _ d _) as [terms|] eqn:Hterms; [|done].
  cbn [bind] in Hloss. injection Hloss as <-.
  pose proof (head_losses_keys _ _ _ Hd) as Hkeys.
  assert ("total" ∉ d.*1) as Hfresh.
  { rewrite Hkeys. unfold computed_heads, present.
    destruct (pred_object pred), (pred_part pred), (pred_scene pred),
      (pred_material pred); cbn [app];
      rewrite ?not_elem_of_cons; repeat split; (done || apply not_elem_of_nil). }
  exists (od_setitem d "total" (foldl scalar_add (fin 0) terms)), terms.
  split; [done|]. split; [by rewrite od_setitem_keys, Hkeys|].
  split; [|split].
  - apply scaled_losses_terms in Hterms. rewrite Hkeys in Hterms.
    eapply Forall2_impl; [done|]. intros k term (l & w & Hl & Hw & ->).
    exists l, w. split_and!; [|done..].
    rewrite od_getitem_setitem. case_decide; [|done].
    subst. by apply od_getitem_elem in Hl.
  - rewrite od_getitem_setitem. by rewrite decide_True.
  - intros p Hp.
    destruct (head_losses_part _ _ _ p Hd Hp) as (total & Hrun & Hpart).
    destruct (part_loss_sum _ _ _ _ _ Hrun) as (losses & Hlosses & ->).
    exists losses. split; [done|].
    rewrite od_getitem_setitem. by rewrite decide_False.
Qed.

End forward.

(** The theorem at a module whose decoder computes all four heads on the
    batch of two samples, with one object class that has parts. *)
Lemma forward_training_loss_witness :
  ∃ out loss_dict terms,
    forward Z argmaxZ hinge [1%Z] tiny_module tiny_feed None = Ok out
    ∧ out_loss out = Some loss_dict
    ∧ loss_dict.*1 = ["object"; "part"; "scene"; "material"; "total"]
    ∧ length terms = 4%nat
    ∧ od_getitem loss_dict "total" = Ok (foldl scalar_add (fin 0) terms).
Proof.
  assert (∃ out, forward Z argmaxZ hinge [1%Z] tiny_module tiny_feed None = Ok out)
    as [out Hout].
  { eexists. vm_compute. reflexivity. }
  destruct (forward_training_loss argmaxZ hinge [1%Z] tiny_module tiny_feed out
              eq_refl Hout) as (Hpred & (loss_dict & terms & H) & _).
  destruct H as (Hloss & Hkeys & Hterms & Htotal & _).
  exists out, loss_dict, terms. rewrite Hpred in Hkeys, Hterms.
  split_and!; [done..| |done].
  apply Forall2_length in Hterms. rewrite <-Hterms. reflexivity.
Defined.

End ForwardLoss.

(** ** Bounds of the pixel counts *)

Module PixelBounds.
Import Models PixelAccounting.

Lemma times_one_binary (row : list Z) :
  Forall (λ x, x = 0%Z ∨ x = 1%Z) row → (λ x, int64 (x * 1)) <$> row = row.
Proof.
  induction 1 as [|x row [->| ->] _ IH]; [done| |]; rewrite fmap_cons, IH; done.
Qed.

Lemma imul_samples_ones (t : list (list Z)) :
  Forall (Forall (λ x, x = 0%Z ∨ x = 1%Z)) t →
  imul_samples t (replicate (length t) 1%Z) = Ok t.
Proof.
  intros Ht. rewrite imul_samples_zip by apply length_replicate. f_equal.
  induction Ht as [|row t Hrow _ IH]; [done|].
  simpl. by rewrite times_one_binary, IH.
Qed.

Lemma sum_list_app (a b : list nat) :
  sum_list (a ++ b) = (sum_list a + sum_list b)%nat.
Proof. induction a as [|x a IH]; simpl; [done|]. rewrite IH. lia. Qed.

Section counts.
Context {Score : Type} (argmax : list Score → Z).

(** The counts under a mask, as sums over the kept samples. *)
Lemma counts_masked (pred : list (list (list Score))) (label : list (list Z))
    (ignore_index : Z) (mask : list Z) :
  batch_ok Score pred label mask →
  get_correct_and_valid_pixels Score argmax pred label ignore_index (Some mask)
  = Ok (counts_over Score argmax ignore_index (kept_samples Score mask pred label)).
Proof.
  intros [Hshape Hmask Hbin Hnumel].
  assert (length pred = length label) as Hpred.
  { apply (f_equal length) in Hshape. by rewrite !length_fmap in Hshape. }
  assert (length mask = length (ne_long label ignore_index)) as Hnl.
  { unfold ne_long. by rewrite length_fmap. }
  rewrite <-pixel_acc_counts_eq.
  unfold pixel_acc_counts. rewrite imul_samples_zip by done.
  simpl bind.
  destruct (zip_rows_shape eq_long
              ((λ sample : list (list Score), argmax <$> sample) <$> pred) label)
    as [-> Hcorrect].
  { by rewrite preds_shape. }
  simpl bind.
  destruct (zip_rows_shape (λ v c, int64 (v * c))
              (zip_with (λ m (row : list Z), (λ x, int64 (x * m)) <$> row) mask
                 (ne_long label ignore_index))
              (zip_with (zip_with eq_long)
                 ((λ sample : list (list Score), argmax <$> sample) <$> pred)
                 label)) as [-> _].
  { rewrite Hcorrect, preds_shape, Hshape.
    destruct (imul_samples_ok (ne_long label ignore_index) _ mask
                (imul_samples_zip _ _ Hnl)) as [-> _].
    apply ne_long_length. }
  simpl bind. unfold tensor_sum.
  destruct (batch_sums argmax ignore_index mask pred label Hmask Hpred Hbin)
    as (Hc & Hv & Hcb & Hvb).
  rewrite Hc, Hv. unfold counts_over.
  rewrite !int64_small by lia. done.
Qed.



Lemma kept_samples_app (mask1 mask2 : list Z)
    (pred1 pred2 : list (list (list Score))) (label1 label2 : list (list Z)) :
  length mask1 = length label1 → length pred1 = length label1 →
  kept_samples Score (mask1 ++ mask2) (pred1 ++ pred2) (label1 ++ label2)
  = kept_samples Score mask1 pred1 label1 ++ kept_samples Score mask2 pred2 label2.
Proof.
  intros Hmask Hpred. unfold kept_samples.
  rewrite (zip_with_app pair pred1 pred2 label1 label2) by done.
  rewrite (zip_with_app pair mask1 mask2).
  - by rewrite filter_app.
  - rewrite length_zip_with. lia.
Qed.


(** The mask that marks every sample valid. *)
Lemma no_mask_ones (pred : list (list (list Score))) (label : list (list Z))
    (ignore_index : Z) :
  get_correct_and_valid_pixels Score argmax pred label ignore_index None
  = get_correct_and_valid_pixels Score argmax pred label ignore_index
      (Some (replicate (length label) 1%Z)).
Proof.
  unfold get_correct_and_valid_pixels.
  replace (length label) with (length (ne_long label ignore_index))
    by (unfold ne_long; apply length_fmap).
  by rewrite imul_samples_ones by apply ne_long_binary.
Qed.

(** X1: without a validity mask, [get_correct_and_valid_pixels] and
    [pixel_acc] return what they return under the mask that marks every
    sample valid, the mask with an entry 1 for every sample of the label. *)
Theorem no_mask_all_valid {M} (pred : list (list (list Score)))
    (label : list (list Z)) (ignore_index : Z) (missing_score : M) :
  get_correct_and_valid_pixels Score argmax pred label ignore_index None
  = get_correct_and_valid_pixels Score argmax pred label ignore_index
      (Some (replicate (length label) 1%Z))
  ∧ pixel_acc Score argmax pred label ignore_index None missing_score
    = pixel_acc Score argmax pred label ignore_index
        (Some (replicate (length label) 1%Z)) missing_score.
Proof.
  split; [apply no_mask_ones|].
  unfold pixel_acc. by rewrite !pixel_acc_counts_eq, no_mask_ones.
Qed.



(** X3: the counts add up over batches: for two batches the accounting
    is defined on (one shape, and a mask of one entry, 0 or 1, for every
    sample) that have fewer than 2^63 elements together, the counts of the
    batches put one after the other are the sums of the counts of the
    two. *)
Theorem counts_additive (pred1 pred2 : list (list (list Score)))
    (label1 label2 : list (list Z)) (ignore_index : Z) (mask1 mask2 : list Z) :
  batch_ok Score pred1 label1 mask1 →
  batch_ok Score pred2 label2 mask2 →
  (Z.of_nat (length (concat (label1 ++ label2))) < 2 ^ 63)%Z →
  ∃ correct1 valid1 correct2 valid2,
    get_correct_and_valid_pixels Score argmax pred1 label1 ignore_index (Some mask1)
      = Ok (correct1, valid1)
    ∧ get_correct_and_valid_pixels Score argmax pred2 label2 ignore_index (Some mask2)
      = Ok (correct2, valid2)
    ∧ get_correct_and_valid_pixels Score argmax (pred1 ++ pred2) (label1 ++ label2)
        ignore_index (Some (mask1 ++ mask2))
      = Ok (correct1 + correct2, valid1 + valid2)%Z.
Proof.
  intros H1 H2 Hnumel.
  assert (batch_ok Score (pred1 ++ pred2) (label1 ++ label2) (mask1 ++ mask2)) as H12.
  { destruct H1 as [Hs1 Hm1 Hb1 _], H2 as [Hs2 Hm2 Hb2 _]. split.
    - by rewrite !fmap_app, Hs1, Hs2.
    - rewrite !length_app. lia.
    - by apply Forall_app.
    - done. }
  do 4 eexists. rewrite !counts_masked by done.
  split; [done|]. split; [done|].
  destruct H1 as [Hs1 Hm1 _ _].
  assert (length pred1 = length label1) as Hp1.
  { apply (f_equal length) in Hs1. by rewrite !length_fmap in Hs1. }
  rewrite kept_samples_app by done. unfold counts_over, correct_over, valid_over.
  rewrite !fmap_app, !sum_list_app. f_equal. f_equal; lia.
Qed.

End counts.

(** The theorem at the batch of two samples put after itself. *)
Lemma counts_additive_witness :
  ∃ correct1 valid1 correct2 valid2,
    get_correct_and_valid_pixels Z argmaxZ tiny_pred tiny_label 0 (Some tiny_mask)
      = Ok (correct1, valid1)
    ∧ get_correct_and_valid_pixels Z argmaxZ tiny_pred tiny_label 0 (Some tiny_mask)
      = Ok (correct2, valid2)
    ∧ get_correct_and_valid_pixels Z argmaxZ (tiny_pred ++ tiny_pred)
        (tiny_label ++ tiny_label) 0 (Some (tiny_mask ++ tiny_mask))
      = Ok (correct1 + correct2, valid1 + valid2)%Z.
Proof.
  apply (counts_additive argmaxZ tiny_pred tiny_pred tiny_label tiny_label 0
           tiny_mask tiny_mask tiny_batch_ok tiny_batch_ok).
  by vm_compute.
Defined.

End PixelBounds.

(** ** The length of a validity mask *)

Module MaskShape.
Import Models PixelAccounting MaskedLoss.

Lemma imul_samples_mismatch (t : list (list Z)) (v : list Z) :
  length v ≠ 1%nat → length v ≠ length t → imul_samples t v = Raise RuntimeError.
Proof.
  intros H1 Hn. unfold imul_samples. destruct v as [|m [|m' v]]; [|done|];
    by rewrite bool_decide_eq_false_2.
Qed.

Lemma mul_samples_mismatch (v : list Z) (t : list (list Q)) :
  length v ≠ 1%nat → length t ≠ 1%nat → length v ≠ length t →
  mul_samples v t = Raise RuntimeError.
Proof.
  intros H1 Ht Hn. unfold mul_samples.
  destruct v as [|m [|m' v]], t as [|row [|row' t]]; try done;
    by rewrite bool_decide_eq_false_2.
Qed.

Section mask.
Context {Score : Type} (argmax : list Score → Z) (nll : list Score → Z → Q).

(** X4: on a prediction and a label of one shape, a mask with one entry, or
    with an entry for every sample, is accepted by
    [get_correct_and_valid_pixels] and by the masked loss's [forward]; a mask
    of any other length makes the first raise [RuntimeError], and the second
    too when the batch has not exactly one sample. *)
Theorem mask_length (pred : list (list (list Score))) (label : list (list Z))
    (ignore_index : Z) (mask : list Z) :
  length <$> pred = length <$> label →
  (length mask = 1%nat ∨ length mask = length label →
   is_Ok (get_correct_and_valid_pixels Score argmax pred label ignore_index
            (Some mask))
   ∧ is_Ok (CrossEntropyLossWithValidationMask_forward Score nll ignore_index
              pred label mask))
  ∧ (length mask ≠ 1%nat → length mask ≠ length label →
     get_correct_and_valid_pixels Score argmax pred label ignore_index (Some mask)
       = Raise RuntimeError
     ∧ (length label ≠ 1%nat →
        CrossEntropyLossWithValidationMask_forward Score nll ignore_index
          pred label mask = Raise RuntimeError)).
Proof.
  intros Hshape.
  assert (length (ne_long label ignore_index) = length label) as Hnl.
  { unfold ne_long. by rewrite length_fmap. }
  assert (length pred = length label) as Hpred.
  { apply (f_equal length) in Hshape. by rewrite !length_fmap in Hshape. }
  split.
  - intros Hlen. split.
    + unfold get_correct_and_valid_pixels.
      assert (∃ valid, imul_samples (ne_long label ignore_index) mask = Ok valid)
        as [valid Hvalid].
      { destruct Hlen as [Hlen|Hlen].
        - destruct mask as [|m [|]]; try done. by eexists.
        - apply imul_samples_total. by rewrite Hnl. }
      rewrite Hvalid. cbn [bind].
      apply imul_samples_ok in Hvalid as [Hv _]. rewrite ne_long_length in Hv.
      destruct (zip_rows_shape eq_long
                  ((λ sample : list (list Score), argmax <$> sample) <$> pred) label)
        as [-> Hcorrect].
      { by rewrite preds_shape. }
      cbn [bind].
      destruct (zip_rows_shape (λ v c, int64 (v * c)) valid
                  (zip_with (zip_with eq_long)
                     ((λ sample : list (list Score), argmax <$> sample) <$> pred)
                     label)) as [-> _].
      { by rewrite Hcorrect, preds_shape, Hv. }
      cbn [bind]. by eexists.
    + unfold CrossEntropyLossWithValidationMask_forward, cross_entropy_none.
      destruct (zip_rows_shape (element_loss Score nll ignore_index) pred label
                  Hshape) as [-> _].
      cbn [bind].
      set (loss := zip_with (zip_with (element_loss Score nll ignore_index)) pred label).
      assert (∃ masked, mul_samples mask loss = Ok masked) as [masked ->].
      { destruct Hlen as [Hlen|Hlen].
        - destruct mask as [|m [|]]; try done. by eexists.
        - rewrite mul_samples_zip; [by eexists|].
          unfold loss. rewrite length_zip_with. lia. }
      cbn [bind]. by eexists.
  - intros H1 Hn. split.
    + unfold get_correct_and_valid_pixels.
      rewrite imul_samples_mismatch; [done..|]. by rewrite Hnl.
    + intros Hl.
      unfold CrossEntropyLossWithValidationMask_forward, cross_entropy_none.
      destruct (zip_rows_shape (element_loss Score nll ignore_index) pred label
                  Hshape) as [-> _].
      cbn [bind]. rewrite mul_samples_mismatch; [done..| |];
        rewrite length_zip_with; lia.
Qed.

End mask.
(** The theorem at the batch of two samples: a mask of two entries is accepted, a
    mask of three raises. *)
Lemma mask_length_witness :
  is_Ok (get_correct_and_valid_pixels Z argmaxZ tiny_pred tiny_label 0
           (Some tiny_mask))
  ∧ get_correct_and_valid_pixels Z argmaxZ tiny_pred tiny_label 0
      (Some [1; 0; 1]%Z) = Raise RuntimeError.
Proof.
  destruct (mask_length argmaxZ hinge tiny_pred tiny_label 0 tiny_mask eq_refl)
    as [Hok _].
  destruct (mask_length argmaxZ hinge tiny_pred tiny_label 0 [1; 0; 1]%Z eq_refl)
    as [_ Hraise].
  split.
  - apply Hok. by right.
  - by apply Hraise.
Defined.

End MaskShape.

(** ** The loss of a part head *)

Module PartAccounting.
Import Models PixelAccounting MaskedLoss.
Local Open Scope Q_scope.

Lemma zip_vec_zip {A B C} (f : A → B → C) (a : list A) (b : list B) :
  length a = length b → zip_vec f a b = Ok (zip_with f a b).
Proof.
  intros Hlen. unfold zip_vec.
  destruct a as [|x [|x' a]], b as [|y [|y' b]]; try done.
  all: by rewrite bool_decide_eq_true_2.
Qed.

Lemma sumQ_zero (l : list Q) : Forall (λ x, x == 0) l → sumQ l == 0.
Proof.
  induction 1 as [|x l Hx _ IH]; [reflexivity|].
  rewrite sumQ_cons, Hx, IH. reflexivity.
Qed.

Lemma eq_const_row_zero (row : list Z) (k : Z) :
  Forall (λ x, x ≠ k) row →
  (λ x, eq_long x k) <$> row = replicate (length row) 0%Z.
Proof.
  induction 1 as [|x row Hx _ IH]; [done|].
  rewrite fmap_cons, IH. unfold eq_long. by rewrite bool_decide_eq_false_2.
Qed.



Lemma eq_const_shape (a : list (list Z)) (k : Z) :
  length <$> eq_const a k = length <$> a.
Proof.
  unfold eq_const. rewrite <-list_fmap_compose. apply list_fmap_ext.
  intros _ row _. simpl. by rewrite length_fmap.
Qed.

Section part.
Context {Score : Type} (argmax : list Score → Z) (nll : list Score → Z → Q).


End part.

End PartAccounting.

(** ** The pixel counts of a part head *)

Module PartPixels.
Import Models PixelAccounting MaskedLoss PartAccounting.

Lemma row_bounds (c m : list Z) :
  Forall2 under c m → (0 ≤ sumZ c ≤ sumZ m)%Z ∧ (sumZ m ≤ Z.of_nat (length m))%Z.
Proof.
  induction 1 as [|x y c m [Hx Hy] _ IH]; [done|].
  rewrite !sumZ_cons. cbn [length]. lia.
Qed.

Lemma weighted_bounds (hits mask : list (list Z)) (valid : list Z) :
  Forall2 (Forall2 under) hits mask →
  Forall (λ v, v = 0 ∨ v = 1)%Z valid →
  (Z.of_nat (length (concat mask)) < 2 ^ 63)%Z →
  (0 ≤ weighted hits valid ≤ weighted mask valid)%Z
  ∧ (weighted mask valid ≤ Z.of_nat (length (concat mask)))%Z.
Proof.
  intros H. revert valid. unfold weighted, sample_sums.
  induction H as [|c m hits mask Hrow _ IH]; intros valid Hvalid Hnumel.
  { done. }
  destruct valid as [|v valid]; [simpl; lia|].
  apply Forall_cons in Hvalid as [Hv Hvalid].
  rewrite !fmap_cons. cbn [zip_with concat]. rewrite !sumZ_cons.
  cbn [concat] in Hnumel. rewrite length_app in Hnumel |- *.
  destruct (IH valid Hvalid) as [IH1 IH2]; [lia|].
  destruct (row_bounds c m Hrow) as [Hc Hm].
  rewrite (int64_small (sumZ c)), (int64_small (sumZ m)) by lia.
  destruct Hv as [-> | ->]; rewrite ?Z.mul_0_r, ?Z.mul_1_r;
    rewrite !int64_small by lia; lia.
Qed.

Lemma weighted_unseen (gt_seg_object : list (list Z)) (object_label : Z)
    (valid : list Z) :
  object_unseen gt_seg_object object_label valid →
  weighted (eq_const gt_seg_object object_label) valid = 0%Z.
Proof.
  unfold weighted, sample_sums, eq_const.
  induction 1 as [|row v rows vs Hrow _ IH]; [done|].
  rewrite !fmap_cons. cbn [zip_with]. rewrite sumZ_cons, IH.
  destruct Hrow as [->|Hrow].
  - by rewrite Z.mul_0_r.
  - rewrite eq_const_row_zero by done.
    assert (sumZ (replicate (length row) 0%Z) = 0%Z) as ->.
    { induction (length row); simpl; lia. }
    done.
Qed.

Lemma hits_under (mask correct : list (list Z)) :
  length <$> mask = length <$> correct →
  Forall (Forall (λ x, x = 0 ∨ x = 1)%Z) mask →
  Forall (Forall (λ x, x = 0 ∨ x = 1)%Z) correct →
  Forall2 (Forall2 under) (zip_with (zip_with Z.mul) mask correct) mask.
Proof.
  intros Hshape Hmask. revert correct Hshape.
  induction Hmask as [|m mask Hm _ IH]; intros correct Hshape Hcorrect.
  { constructor. }
  destruct correct as [|c correct]; [done|].
  injection Hshape as Hlen Hshape.
  apply Forall_cons in Hcorrect as [Hc Hcorrect]. cbn [zip_with].
  constructor; [|by apply IH].
  clear IH Hshape Hcorrect. revert c Hlen Hc.
  induction Hm as [|x m Hx _ IH]; intros c Hlen Hc.
  { constructor. }
  destruct c as [|y c]; [done|]. injection Hlen as Hlen.
  apply Forall_cons in Hc as [Hy Hc]. cbn [zip_with].
  constructor; [|by apply IH]. unfold under. lia.
Qed.

Lemma eq_const_binary (a : list (list Z)) (k : Z) :
  Forall (Forall (λ x, x = 0 ∨ x = 1)%Z) (eq_const a k).
Proof.
  unfold eq_const. apply Forall_fmap, Forall_true. intros row.
  apply Forall_fmap, Forall_true. intros x. unfold eq_long. simpl.
  case_bool_decide; auto.
Qed.

Lemma eq_long_binary {A} (f : A → Z) (a : list (list A)) (b : list (list Z)) :
  Forall (Forall (λ x, x = 0 ∨ x = 1)%Z)
    (zip_with (zip_with eq_long) ((λ row : list A, f <$> row) <$> a) b).
Proof.
  revert b. induction a as [|r a IH]; intros [|s b]; try constructor; [|apply IH].
  clear. revert s. induction r as [|x r IH]; intros [|y s]; try constructor;
    [|apply IH].
  unfold eq_long. case_bool_decide; auto.
Qed.

Lemma mask_under (mask : list (list Z)) :
  Forall (Forall (λ x, x = 0 ∨ x = 1)%Z) mask → Forall2 (Forall2 under) mask mask.
Proof.
  induction 1 as [|m mask Hm _ IH]; constructor; [|done].
  induction Hm as [|x m Hx _ IHm]; constructor; [|done]. unfold under. lia.
Qed.

Section part.
Context {Score : Type} (argmax : list Score → Z).

(** X6: on tensors of one shape, a validity entry, 0 or 1, for every
    sample, and fewer than 2^63 elements, [part_pixel_acc] returns counts with
    0 ≤ acc_sum ≤ pixel_sum ≤ the number of elements; and pixel_sum is 0 when
    every sample is invalid or has no element of the object class. *)
Theorem part_pixel_acc_bounds (pred_part : list (list (list Score)))
    (gt_seg_part gt_seg_object : list (list Z)) (object_label : Z)
    (valid : list Z) :
  length <$> pred_part = length <$> gt_seg_part →
  length <$> gt_seg_part = length <$> gt_seg_object →
  length valid = length gt_seg_object →
  Forall (λ v, v = 0 ∨ v = 1)%Z valid →
  (Z.of_nat (length (concat gt_seg_object)) < 2 ^ 63)%Z →
  ∃ acc_sum pixel_sum,
    part_pixel_acc Score argmax pred_part gt_seg_part gt_seg_object object_label
      valid = Ok (acc_sum, pixel_sum)
    ∧ (0 ≤ acc_sum ≤ pixel_sum)%Z
    ∧ (pixel_sum ≤ Z.of_nat (length (concat gt_seg_object)))%Z
    ∧ (object_unseen gt_seg_object object_label valid → pixel_sum = 0%Z).
Proof.
  intros Hpred Hpart Hvalid Hbin Hnumel. unfold part_pixel_acc.
  pose proof (eq_const_shape gt_seg_object object_label) as Hmask.
  set (mask_object := eq_const gt_seg_object object_label) in *.
  destruct (zip_rows_shape eq_long
              ((λ sample : list (list Score), argmax <$> sample) <$> pred_part)
              gt_seg_part) as [-> Hcorrect].
  { by rewrite preds_shape. }
  cbn [bind].
  set (correct := zip_with (zip_with eq_long) _ gt_seg_part) in *.
  destruct (zip_rows_shape Z.mul mask_object correct) as [-> Hhits].
  { by rewrite Hcorrect, preds_shape, Hpred, Hmask. }
  cbn [bind].
  assert (length mask_object = length gt_seg_object) as Hlen
    by (unfold mask_object, eq_const; apply length_fmap).
  assert (length (zip_with (zip_with Z.mul) mask_object correct)
          = length gt_seg_object) as Hlen'.
  { apply (f_equal length) in Hhits. rewrite !length_fmap in Hhits. lia. }
  rewrite !zip_vec_zip by (unfold sample_sums; rewrite length_fmap; lia).
  cbn [bind].
  fold (weighted (zip_with (zip_with Z.mul) mask_object correct) valid).
  fold (weighted mask_object valid).
  assert (length (concat mask_object) = length (concat gt_seg_object)) as Hn.
  { by apply concat_length_shape. }
  destruct (weighted_bounds (zip_with (zip_with Z.mul) mask_object correct)
              mask_object valid) as [H1 H2].
  - apply hits_under.
    + by rewrite Hmask, Hcorrect, preds_shape, Hpred.
    + apply eq_const_binary.
    + apply eq_long_binary.
  - done.
  - by rewrite Hn.
  - rewrite Hn in H2. eexists _, _. split; [done|].
    rewrite !int64_small by lia. split; [lia|]. split; [lia|].
    apply weighted_unseen.
Qed.

End part.
(** The theorem at the batch of two samples, the second invalid. *)
Lemma part_pixel_acc_bounds_witness :
  ∃ acc_sum pixel_sum,
    part_pixel_acc Z argmaxZ tiny_pred tiny_label tiny_label 1 [1; 0]%Z
      = Ok (acc_sum, pixel_sum)
    ∧ (0 ≤ acc_sum ≤ pixel_sum)%Z.
Proof.
  destruct (part_pixel_acc_bounds argmaxZ tiny_pred tiny_label tiny_label 1
              [1; 0]%Z eq_refl eq_refl eq_refl)
    as (acc_sum & pixel_sum & Hrun & Hle & _).
  - apply tiny_batch_ok.
  - vm_compute. reflexivity.
  - exists acc_sum, pixel_sum. split; [exact Hrun|exact Hle].
Defined.

End PartPixels.

(** ** The loss and metric blocks of [forward] *)

Module ForwardEdges.
Import Models ForwardLoss.

Lemma od_getitem_in {V} (d : list (string * V)) (k : string) :
  k ∈ d.*1 → ∃ v, od_getitem d k = Ok v.
Proof.
  induction d as [|[k0 v0] d IH]; [by intros ?%elem_of_nil|].
  rewrite fmap_cons. cbn [fst od_getitem]. case_decide as Hk; [by eauto|].
  intros [?|?]%elem_of_cons; [congruence|by apply IH].
Qed.

Lemma od_getitem_notin {V} (d : list (string * V)) (k : string) :
  k ∉ d.*1 → od_getitem d k = Raise KeyError.
Proof.
  induction d as [|[k0 v0] d IH]; [done|].
  rewrite fmap_cons. cbn [fst od_getitem].
  intros [? ?]%not_elem_of_cons. rewrite decide_False by done. by apply IH.
Qed.

(** The scaled terms are computed when every key has a scale, and the first
    key without one raises [KeyError]. *)
Lemma scaled_losses_run (scale : list (string * Q))
    (loss_dict : list (string * scalar)) (keys : list string) :
  keys ⊆ loss_dict.*1 →
  (keys ⊆ scale.*1 → ∃ terms, scaled_losses scale loss_dict keys = Ok terms)
  ∧ (¬ keys ⊆ scale.*1 → scaled_losses scale loss_dict keys = Raise KeyError).
Proof.
  unfold scaled_losses. intros Hsub.
  cut (∀ acc,
         (keys ⊆ scale.*1 →
          ∃ terms, for_each (λ acc k,
                               let? l := od_getitem loss_dict k in
                               let? w := od_getitem scale k in
                               Ok (acc ++ [scalar_mul l w])) keys acc = Ok terms)
         ∧ (¬ keys ⊆ scale.*1 →
            for_each (λ acc k,
                        let? l := od_getitem loss_dict k in
                        let? w := od_getitem scale k in
                        Ok (acc ++ [scalar_mul l w])) keys acc = Raise KeyError)).
  { intros H. apply H. }
  revert Hsub. induction keys as [|k keys IH]; intros Hsub acc.
  { split; [by eauto|]. intros H. destruct H. by intros ? ?%elem_of_nil. }
  rewrite for_each_cons.
  destruct (od_getitem_in loss_dict k) as [l ->]; [apply Hsub; left|].
  cbn [bind].
  destruct (decide (k ∈ scale.*1)) as [Hk|Hk].
  - destruct (od_getitem_in scale k Hk) as [w ->]. cbn [bind].
    assert (keys ⊆ loss_dict.*1) as Hsub'.
    { intros x Hx. apply Hsub. by right. }
    destruct (IH Hsub' (acc ++ [scalar_mul l w])) as [IH1 IH2].
    split.
    + intros Hall. apply IH1. intros x Hx. apply Hall. by right.
    + intros Hnot. apply IH2. intros Hall. apply Hnot.
      intros x [->|Hx]%elem_of_cons; [done|by apply Hall].
  - rewrite (od_getitem_notin scale k Hk). cbn [bind]. split; [|done].
    intros Hall. destruct Hk. apply Hall. left.
Qed.

Lemma foldl_add_nan (terms : list scalar) : foldl scalar_add nan terms = nan.
Proof. induction terms as [|t terms IH]; [done|]. exact IH. Qed.

Lemma total_nan (acc : scalar) (terms : list scalar) :
  nan ∈ terms → foldl scalar_add acc terms = nan.
Proof.
  revert acc. induction terms as [|t terms IH]; intros acc.
  { by intros ?%elem_of_nil. }
  intros [<-|Hin]%elem_of_cons; cbn [foldl].
  - destruct acc; apply foldl_add_nan.
  - by apply IH.
Qed.

Ltac run_each_head :=
  cbn [bind];
  repeat match goal with
         | |- context [bind ?r _] =>
             lazymatch r with
             | bind _ _ => fail
             | Ok _ => fail
             | _ => destruct r as [?|?] eqn:?; cbn [bind]
             end
         end.

Section forward.

Context {Score : Type} (argmax : list Score → Z) (nll : list Score → Z → Q).
Context (object_with_part : list Z).

Lemma head_losses_scene {Image} (pred : prediction_dict Score)
    (feed : feed_dict Image) (d : list (string * scalar))
    (p : list (list Score)) :
  head_losses Score nll object_with_part pred feed = Ok d →
  pred_scene pred = Some p →
  ∃ l, cross_entropy_mean Score nll (-1) p (scene_label feed) = Ok l
       ∧ od_getitem d "scene" = Ok l.
Proof.
  unfold head_losses.
  destruct pred as [[o|] [pp|] [sc|] [m|]];
    cbn [pred_object pred_part pred_scene pred_material];
    try done; intros Hrun [= <-]; revert Hrun;
    run_each_head; try done; intros [= <-]; eexists; (split; [done|reflexivity]).
Qed.

Lemma scene_all_ignored (p : list (list Score)) (labels : list Z) (l : scalar) :
  Forall (λ t, t = (-1)%Z) labels →
  cross_entropy_mean Score nll (-1) p labels = Ok l → l = nan.
Proof.
  intros Hall. unfold cross_entropy_mean. case_bool_decide; [|done].
  assert (filter (λ st : list Score * Z, st.2 ≠ (-1)%Z) (zip p labels) = []) as ->.
  { clear -Hall. revert p.
    induction Hall as [|t labels -> _ IH]; intros [|s p]; try done.
    cbn [zip_with]. rewrite filter_cons. cbn [snd].
    rewrite decide_False by auto. apply IH. }
  by intros [= <-].
Qed.

(** X7: once the losses of the heads are computed, the loss block of
    [forward] returns when [loss_scale] has an entry for every head the
    decoder computed, and raises [KeyError] when it lacks one. *)
Theorem forward_loss_scale {Image} (scale : list (string * Q))
    (pred : prediction_dict Score) (feed : feed_dict Image)
    (d : list (string * scalar)) :
  head_losses Score nll object_with_part pred feed = Ok d →
  (computed_heads pred ⊆ scale.*1 →
   ∃ loss_dict, forward_loss Score nll object_with_part scale pred feed
                = Ok loss_dict)
  ∧ (¬ computed_heads pred ⊆ scale.*1 →
     forward_loss Score nll object_with_part scale pred feed = Raise KeyError).
Proof.
  intros Hd. unfold forward_loss. rewrite Hd. cbn [bind].
  pose proof (head_losses_keys nll object_with_part _ _ _ Hd) as Hkeys.
  destruct (scaled_losses_run scale d (d.*1)) as [H1 H2]; [done|].
  rewrite <-Hkeys. split.
  - intros [terms ->]%H1. cbn [bind]. eauto.
  - intros ->%H2. done.
Qed.

(** X8: in a training step that returns, when the scene head was
    computed and every scene label of the batch is the ignored label -1, the
    scene loss is nan, and so is the total loss. *)
Theorem forward_scene_ignored {Image Features SegSize}
    (self : SegmentationModule Score Image Features SegSize)
    (feed : feed_dict Image) (out : output_dict Score) (p : list (list Score)) :
  disable_metric_and_loss_calculations self = false →
  forward Score argmax nll object_with_part self feed None = Ok out →
  pred_scene (out_pred out) = Some p →
  Forall (λ t, t = (-1)%Z) (scene_label feed) →
  ∃ loss_dict,
    out_loss out = Some loss_dict
    ∧ od_getitem loss_dict "scene" = Ok nan
    ∧ od_getitem loss_dict "total" = Ok nan.
Proof.
  intros Hdisable. unfold forward. rewrite Hdisable.
  set (pred := decoder self (encoder self (img feed)) all_heads None).
  destruct (forward_loss _ _ _ _ pred feed) as [loss_dict|] eqn:Hloss; [|done].
  cbn [bind].
  destruct (forward_metric _ _ _ pred feed) as [metric_dict|]; [|done].
  cbn [bind]. intros [= <-]. cbn [out_pred out_loss]. intros Hp Hall.
  exists loss_dict. split; [done|].
  unfold forward_loss in Hloss.
  destruct (head_losses _ _ _ pred feed) as [d|] eqn:Hd; [|done].
  cbn [bind] in Hloss.
  destruct (scaled_losses _ d _) as [terms|] eqn:Hterms; [|done].
  cbn [bind] in Hloss. injection Hloss as <-.
  destruct (head_losses_scene _ _ _ _ Hd Hp) as (l & Hl & Hscene).
  apply (scene_all_ignored _ _ _ Hall) in Hl as ->.
  rewrite !od_getitem_setitem. rewrite decide_False by done.
  rewrite decide_True by done. split; [done|]. f_equal.
  apply total_nan.
  apply scaled_losses_terms in Hterms.
  pose proof (od_getitem_elem _ _ _ Hscene) as Hin.
  apply list_elem_of_lookup in Hin as [i Hi].
  destruct (Forall2_lookup_l _ _ _ _ _ Hterms Hi) as (t & Ht & l' & w & Hl' & _ & ->).
  rewrite Hscene in Hl'. injection Hl' as <-.
  apply list_elem_of_lookup. by exists i.
Qed.

(** X9: the metric dict of [forward] has one entry for every head the
    decoder computed, in the order object, material, part, scene; the entries
    of object, material and scene are the counts
    [get_correct_and_valid_pixels] returns (for scene as well: the accuracy
    [pixel_acc] computed first is replaced); and with a part head the metric
    is computed only if some object class has parts. *)
Theorem forward_metric_entries {Image} (classes : list Z)
    (pred : prediction_dict Score)
    (feed : feed_dict Image) (metric_dict : list (string * (Z * Z))) :
  forward_metric Score argmax classes pred feed = Ok metric_dict →
  metric_dict.*1
    = present (pred_object pred) "object" ++ present (pred_material pred) "material"
      ++ present (pred_part pred) "part" ++ present (pred_scene pred) "scene"
  ∧ (∀ p, pred_object pred = Some p →
       ∃ counts,
         get_correct_and_valid_pixels Score argmax p (seg_object feed) 0
           (Some (valid_object feed)) = Ok counts
         ∧ od_getitem metric_dict "object" = Ok counts)
  ∧ (∀ p, pred_material pred = Some p →
       ∃ counts,
         get_correct_and_valid_pixels Score argmax p (seg_material feed) 0
           (Some (valid_material feed)) = Ok counts
         ∧ od_getitem metric_dict "material" = Ok counts)
  ∧ (∀ p, pred_scene pred = Some p →
       ∃ counts,
         get_correct_and_valid_pixels Score argmax ((λ scores, [scores]) <$> p)
           ((λ l, [l]) <$> scene_label feed) (-1) None = Ok counts
         ∧ od_getitem metric_dict "scene" = Ok counts)
  ∧ (is_Some (pred_part pred) → classes ≠ []).
Proof.
  unfold forward_metric.
  destruct pred as [[o|] [pp|] [sc|] [m|]];
    cbn [pred_object pred_part pred_scene pred_material].
  all: repeat match goal with
         | |- context [get_correct_and_valid_pixels ?a ?b ?c ?d ?e ?f] =>
             destruct (get_correct_and_valid_pixels a b c d e f)
               as [[? ?]|?] eqn:?
         | |- context [@pixel_acc ?a ?b ?c ?d ?e ?f ?g ?h] =>
             destruct (@pixel_acc a b c d e f g h) as [?|?]
         | |- context [for_each ?f ?l ?s] =>
             destruct (for_each f l s) as [[? ?]|?]
         end.
  all: cbn [bind]; try done.
  all: try (destruct classes as [|? ?]; cbn [bind]; [done|]).
  all: intros [= <-].
  all: split_and!; [reflexivity|..].
  all: try (intros ? [= <-]; eexists; (split; [done|reflexivity])).
  all: try by intros ? [=].
  all: try by intros [? [=]].
  all: by intros _.
Qed.

End forward.
(** The theorem at the decoder of the four heads: a scale with the object head
    alone raises, the default scale does not. *)
Lemma forward_loss_scale_witness :
  forward_loss Z hinge [1%Z] [("object", 1%Q)]
    (tiny_decoder tt all_heads None) tiny_feed = Raise KeyError
  ∧ ∃ loss_dict,
      forward_loss Z hinge [1%Z] default_loss_scale
        (tiny_decoder tt all_heads None) tiny_feed = Ok loss_dict.
Proof.
  assert (∃ d, head_losses Z hinge [1%Z] (tiny_decoder tt all_heads None)
                 tiny_feed = Ok d) as [d Hd].
  { eexists. vm_compute. reflexivity. }
  split.
  - apply (forward_loss_scale hinge [1%Z] [("object", 1%Q)] _ _ d Hd).
    intros Hsub. specialize (Hsub "part").
    apply list_elem_of_singleton in Hsub; [done|].
    right. left.
  - apply (forward_loss_scale hinge [1%Z] default_loss_scale _ _ d Hd).
    intros k Hk. cbn in Hk |- *. set_solver.
Defined.

(** The theorem at the batch whose scene labels are all ignored. *)
Lemma forward_scene_ignored_witness :
  ∃ out loss_dict,
    forward Z argmaxZ hinge [1%Z] tiny_module ignored_feed None = Ok out
    ∧ out_loss out = Some loss_dict
    ∧ od_getitem loss_dict "total" = Ok nan.
Proof.
  assert (∃ out, forward Z argmaxZ hinge [1%Z] tiny_module ignored_feed None
                 = Ok out) as [out Hout].
  { eexists. vm_compute. reflexivity. }
  assert (out_pred out = tiny_decoder tt all_heads None) as Hpred.
  { revert Hout. unfold forward. cbn [disable_metric_and_loss_calculations tiny_module SegmentationModule_init].
    destruct (forward_loss _ _ _ _ _ _); [|done]. cbn [bind].
    destruct (forward_metric _ _ _ _ _); [|done]. cbn [bind].
    by intros [= <-]. }
  destruct (forward_scene_ignored argmaxZ hinge [1%Z] tiny_module ignored_feed
              out [ [1; 5]; [7; 2] ]%Z eq_refl Hout)
    as (loss_dict & Hloss & _ & Htotal).
  - by rewrite Hpred.
  - by repeat constructor.
  - by exists out, loss_dict.
Defined.

(** The theorem at the decoder of the four heads. *)
Lemma forward_metric_entries_witness :
  ∃ metric_dict,
    forward_metric Z argmaxZ [1%Z] (tiny_decoder tt all_heads None) tiny_feed
      = Ok metric_dict
    ∧ metric_dict.*1 = ["object"; "material"; "part"; "scene"].
Proof.
  assert (∃ m, forward_metric Z argmaxZ [1%Z] (tiny_decoder tt all_heads None)
                 tiny_feed = Ok m) as [m Hm].
  { eexists. vm_compute. reflexivity. }
  exists m. split; [exact Hm|].
  by destruct (forward_metric_entries argmaxZ [1%Z] _ _ m Hm) as [-> _].
Defined.

End ForwardEdges.

(** ** The names [normalize_part_key] returns *)

Module NormalizePartKeyNames.
Import PascalSeg NormalizePartKey.

Lemma py_max_in (x : Z) (xs : list Z) (m : Z) :
  py_max (x :: xs) = Ok m → m ∈ x :: xs.
Proof.
  intros [= <-]. revert x. induction xs as [|y xs IH]; intros x; simpl; [left|].
  destruct (Z.max_spec x y) as [[_ ->]|[_ ->]].
  - right. apply IH.
  - specialize (IH x). apply elem_of_cons in IH as [->|?]; [left|by do 2 right].
Qed.

(** One turn of the loop, seen from outside. *)
Lemma npk_body_extent raw_names count seen st st' c p n :
  (∀ c p, is_Some (raw_names !! (c, p)) → (0 ≤ c)%Z) →
  raw_names !! (c, p) = Some n →
  (0 ≤ c < Z.of_nat count)%Z →
  length (object_class_names st) = count →
  npk_extent raw_names seen st →
  npk_body raw_names st (c, p) = Ok st' →
  npk_extent raw_names (seen ++ [(c, p)]) st'.
Proof.
  intros Hpos Hn Hc Hcount [Hhead Hparts Hkeys Hobjects Hnamed].
  unfold npk_body, getitem. rewrite Hn. cbn [bind].
  unfold list_setitem, py_index.
  rewrite bool_decide_eq_true_2 by (rewrite Hcount; lia). cbn [bind].
  set (names := <[Z.to_nat c := n.1]> (object_class_names st)).
  assert (∀ (code : nat) parts aliases,
    parts !! 0%nat = Some "-" →
    (∀ x, x ∈ parts → x = "-" ∨ ∃ k n, raw_names !! k = Some n ∧ n.2 = x) →
    npk_extent raw_names (seen ++ [(c, p)])
      {| object_class_names := names; part_class_names := parts;
         alias_key := aliases;
         part_key := <[(c, p) := code]> (part_key st) |}) as Hfinish.
  { intros code parts aliases Hh Hp. split; cbn.
    - done.
    - done.
    - intros k. rewrite elem_of_app, list_elem_of_singleton, <-Hkeys.
      rewrite lookup_insert. case_decide as Hk.
      + subst. split; [by right|by eauto].
      + split; [by left|]. intros [?|?]; [done|congruence].
    - intros j x. unfold names.
      destruct (decide (j = Z.to_nat c)) as [->|Hj].
      + rewrite list_lookup_insert_eq by lia.
        intros [= <-]. right. exists p, n. by rewrite Z2Nat.id by lia.
      + rewrite list_lookup_insert_ne by done. apply Hobjects.
    - intros c' p' [Hin|Hin%list_elem_of_singleton]%elem_of_app.
      + destruct (Hnamed _ _ Hin) as (p'' & n'' & Hraw & Hname).
        destruct (decide (c' = c)) as [->|Hne].
        * exists p, n. split; [done|]. unfold names.
          by rewrite list_lookup_insert_eq by lia.
        * exists p'', n''. split; [done|]. unfold names.
          rewrite list_lookup_insert_ne; [done|].
          assert (0 ≤ c')%Z by (apply (Hpos c' p''); eauto). lia.
      + injection Hin as -> ->. exists p, n. split; [done|]. unfold names.
        by rewrite list_lookup_insert_eq by lia. }
  destruct (alias_key st !! n) as [code|]; cbn [bind].
  { intros [= <-]. by apply Hfinish. }
  case_bool_decide as Hin; cbn [bind].
  - destruct (list_index n.2 (part_class_names st)) as [code|]; [|done].
    cbn [bind]. intros [= <-]. by apply Hfinish.
  - intros [= <-]. apply Hfinish.
    + by apply lookup_app_l_Some.
    + intros x [Hx|Hx%list_elem_of_singleton]%elem_of_app; [by apply Hparts|].
      right. exists (c, p), n. by subst.
Qed.

Lemma npk_loop_extent raw_names count seen keys st st' :
  (∀ c p, is_Some (raw_names !! (c, p)) → (0 ≤ c)%Z) →
  Forall (λ k, is_Some (raw_names !! k) ∧ (0 ≤ k.1 < Z.of_nat count)%Z) keys →
  npk_invariant raw_names count st →
  npk_extent raw_names seen st →
  for_each (npk_body raw_names) keys st = Ok st' →
  npk_extent raw_names (seen ++ keys) st'.
Proof.
  intros Hpos Hkeys. revert seen st.
  induction Hkeys as [|[c p] keys [[n Hn] Hc] _ IH]; intros seen st Hinv Hext.
  { intros [= <-]. by rewrite app_nil_r. }
  rewrite for_each_cons.
  destruct (npk_body_ok _ _ _ _ _ _ Hn Hc Hinv) as (st1 & Hst1 & Hinv1 & _).
  rewrite Hst1. cbn [bind]. intros Hrun.
  rewrite (cons_middle (c, p)), app_assoc. apply (IH _ st1); [done| |done].
  eapply npk_body_extent; [done..| |done|done]. by destruct Hinv.
Qed.

(** The run of [normalize_part_key] on a map that is not empty and has no
    negative object index. *)
Lemma npk_run (raw_names : gmap (Z * string) (string * string)) :
  raw_names ≠ ∅ →
  (∀ c p, is_Some (raw_names !! (c, p)) → (0 ≤ c)%Z) →
  ∃ st m,
    normalize_part_key raw_names
      = Ok (object_class_names st, part_class_names st, part_key st)
    ∧ npk_invariant raw_names (Z.to_nat (m + 1)) st
    ∧ npk_extent raw_names (merge_sort key_le (map_to_list raw_names).*1) st
    ∧ (∀ k, k ∈ merge_sort key_le (map_to_list raw_names).*1
            ↔ is_Some (raw_names !! k))
    ∧ (∃ p, is_Some (raw_names !! (m, p)))
    ∧ (∀ c p, is_Some (raw_names !! (c, p)) → (c ≤ m)%Z).
Proof.
  intros Hne Hpos. unfold normalize_part_key.
  set (keys := (map_to_list raw_names).*1).
  assert (∀ k, k ∈ keys ↔ is_Some (raw_names !! k)) as Hkeys.
  { intros k. unfold keys. rewrite list_elem_of_fmap. split.
    - intros ([k' n] & -> & H%elem_of_map_to_list). eauto.
    - intros [n H]. exists (k, n). by rewrite elem_of_map_to_list. }
  destruct (keys.*1) as [|x xs] eqn:Hxs.
  { exfalso. apply Hne. apply map_to_list_empty_iff.
    apply fmap_nil_inv in Hxs. by apply fmap_nil_inv in Hxs. }
  destruct (py_max_ok x xs) as (m & Hmax & Hm). rewrite Hmax.
  apply py_max_in in Hmax. rewrite <-Hxs in Hm, Hmax. cbn [bind].
  set (count := Z.to_nat (m + 1)).
  set (init := {| object_class_names := replicate count "-";
                  part_class_names := ["-"];
                  alias_key := ∅; part_key := ∅ |}).
  assert (Forall (λ k, is_Some (raw_names !! k) ∧ (0 ≤ k.1 < Z.of_nat count)%Z)
            (merge_sort key_le keys)) as Hall.
  { apply Forall_forall. intros [c p] Hk.
    rewrite merge_sort_Permutation in Hk. split; [by apply Hkeys|].
    simpl. split; [by apply (Hpos c p), Hkeys|].
    assert (c ≤ m)%Z; [|unfold count; lia].
    apply Hm. apply list_elem_of_fmap. by exists (c, p). }
  assert (npk_invariant raw_names count init) as Hinit.
  { split; simpl.
    - apply NoDup_singleton.
    - intros n code. by rewrite lookup_empty.
    - intros k code. by rewrite lookup_empty.
    - apply length_replicate. }
  assert (npk_extent raw_names [] init) as Hext.
  { split; simpl.
    - done.
    - intros y ->%list_elem_of_singleton. by left.
    - intros k. rewrite lookup_empty, elem_of_nil. split; [by intros [? ?]|done].
    - intros j y [-> _]%lookup_replicate. by left.
    - intros c p ?%elem_of_nil. done. }
  destruct (npk_loop_ok raw_names count (merge_sort key_le keys) init Hall Hinit)
    as (st & Hrun & Hinv & _).
  rewrite Hrun. cbn [bind]. exists st, m. split; [done|]. split; [done|].
  split; [exact (npk_loop_extent _ _ [] _ _ _ Hpos Hall Hinit Hext Hrun)|].
  split; [|split].
  - intros k. by rewrite merge_sort_Permutation.
  - apply list_elem_of_fmap in Hmax as ([c p] & -> & Hk). exists p.
    by apply Hkeys.
  - intros c p Hk. apply Hm. apply list_elem_of_fmap. exists (c, p).
    split; [done|]. by apply Hkeys.
Qed.

(** X10: on a non-empty map without negative object index,
    [normalize_part_key] returns a list of object names with one entry for
    every index up to the largest object index of the keys, and no more; the
    entry of an index that has a key is the object name of one of its keys,
    and the entry of an index without key is '-'. *)
Theorem normalize_part_key_object_names
    (raw_names : gmap (Z * string) (string * string)) :
  raw_names ≠ ∅ →
  (∀ c p, is_Some (raw_names !! (c, p)) → (0 ≤ c)%Z) →
  ∃ object_class_names part_class_names part_key,
    normalize_part_key raw_names
      = Ok (object_class_names, part_class_names, part_key)
    ∧ (∀ c p, is_Some (raw_names !! (c, p)) →
         (c < Z.of_nat (length object_class_names))%Z)
    ∧ (∃ p, is_Some (raw_names !! (Z.of_nat (length object_class_names) - 1, p)%Z))
    ∧ (∀ c p, is_Some (raw_names !! (c, p)) →
         ∃ p' n', raw_names !! (c, p') = Some n'
                  ∧ object_class_names !! Z.to_nat c = Some n'.1)
    ∧ (∀ j x, object_class_names !! j = Some x →
         x = "-" ∨ ∃ p n, raw_names !! (Z.of_nat j, p) = Some n ∧ n.1 = x).
Proof.
  intros Hne Hpos.
  destruct (npk_run raw_names Hne Hpos)
    as (st & m & Hrun & [_ _ _ Hcount] & [_ _ _ Hobjects Hnamed] & Hkeys
        & [pm Hm] & Hmax).
  assert (0 ≤ m)%Z as Hm0 by (by apply (Hpos m pm)).
  exists (object_class_names st), (part_class_names st), (part_key st).
  split; [done|]. rewrite Hcount. split_and!.
  - intros c p Hk. specialize (Hmax c p Hk). lia.
  - exists pm. by replace (Z.of_nat (Z.to_nat (m + 1)) - 1)%Z with m by lia.
  - intros c p Hk. apply Hnamed with p. by apply Hkeys.
  - done.
Qed.

(** X11: on a non-empty map without negative object index, the list of
    part names [normalize_part_key] returns starts with '-', has no name
    twice, and holds nothing but '-' and part names of the map; the returned
    [part_key] has the keys of the map and no other; and the code of a key is
    0 exactly when its part name is '-'. *)
Theorem normalize_part_key_part_names
    (raw_names : gmap (Z * string) (string * string)) :
  raw_names ≠ ∅ →
  (∀ c p, is_Some (raw_names !! (c, p)) → (0 ≤ c)%Z) →
  ∃ object_class_names part_class_names part_key,
    normalize_part_key raw_names
      = Ok (object_class_names, part_class_names, part_key)
    ∧ part_class_names !! 0%nat = Some "-"
    ∧ NoDup part_class_names
    ∧ (∀ x, x ∈ part_class_names →
         x = "-" ∨ ∃ k n, raw_names !! k = Some n ∧ n.2 = x)
    ∧ (∀ k, is_Some (part_key !! k) ↔ is_Some (raw_names !! k))
    ∧ (∀ k n code, raw_names !! k = Some n → part_key !! k = Some code →
         code = 0%nat ↔ n.2 = "-").
Proof.
  intros Hne Hpos.
  destruct (npk_run raw_names Hne Hpos)
    as (st & m & Hrun & [Hnodup _ Hkey _] & [Hhead Hparts Hseen _ _] & Hkeys & _).
  exists (object_class_names st), (part_class_names st), (part_key st).
  split; [done|]. split_and!; [done..| |].
  - intros k. by rewrite Hseen, Hkeys.
  - intros k n code Hn Hcode.
    destruct (Hkey _ _ Hcode) as (n' & Hn' & Hname).
    assert (n' = n) as -> by congruence. split.
    + intros ->. congruence.
    + intros Hdash. rewrite Hdash in Hname.
      by eapply NoDup_lookup.
Qed.

(** The map [engine_names] is not empty and has no negative object index. *)
Lemma engine_names_ok :
  engine_names ≠ ∅ ∧ ∀ c p, is_Some (engine_names !! (c, p)) → (0 ≤ c)%Z.
Proof.
  split.
  - intros H. apply (f_equal (λ m, m !! (3%Z, "body"))) in H.
    vm_compute in H. discriminate.
  - intros c p [n Hn]. apply elem_of_list_to_map_2 in Hn. revert Hn.
    unfold engine_names. rewrite !elem_of_cons, elem_of_nil.
    intros Hn; destruct_or!; by simplify_eq.
Defined.

(** The theorem at the map [engine_names]. *)
Lemma normalize_part_key_object_names_witness :
  ∃ object_class_names part_class_names part_key,
    normalize_part_key engine_names
      = Ok (object_class_names, part_class_names, part_key)
    ∧ ∃ p, is_Some (engine_names !! (Z.of_nat (length object_class_names) - 1, p)%Z).
Proof.
  destruct (normalize_part_key_object_names engine_names
              (proj1 engine_names_ok) (proj2 engine_names_ok))
    as (names & parts & key & Hrun & _ & Hlast & _).
  exists names, parts, key. split; [exact Hrun|exact Hlast].
Defined.

(** The theorem at the map [engine_names]. *)
Lemma normalize_part_key_part_names_witness :
  ∃ object_class_names part_class_names part_key,
    normalize_part_key engine_names
      = Ok (object_class_names, part_class_names, part_key)
    ∧ part_class_names !! 0%nat = Some "-" ∧ NoDup part_class_names.
Proof.
  destruct (normalize_part_key_part_names engine_names
              (proj1 engine_names_ok) (proj2 engine_names_ok))
    as (names & parts & key & Hrun & Hhead & Hnodup & _).
  exists names, parts, key. split; [exact Hrun|]. split; [exact Hhead|exact Hnodup].
Defined.

End NormalizePartKeyNames.

(** ** From [load_part2ind] to the codes, and the lines it stops at *)

Module Part2indRuns.
Import PascalSeg LoadPart2ind NormalizePartKeyNames.

Lemma dict_of_items_lookup `{Countable K} {V} (items : list (K * V)) (k : K) :
  (is_Some (dict_of_items items !! k) ↔ k ∈ items.*1)
  ∧ ∀ v, dict_of_items items !! k = Some v → (k, v) ∈ items.
Proof.
  unfold dict_of_items.
  cut (∀ d : gmap K V,
         (is_Some (foldl (λ d kv, <[kv.1 := kv.2]> d) d items !! k)
          ↔ is_Some (d !! k) ∨ k ∈ items.*1)
         ∧ ∀ v, foldl (λ d kv, <[kv.1 := kv.2]> d) d items !! k = Some v →
                d !! k = Some v ∨ (k, v) ∈ items).
  { intros Hcut. destruct (Hcut ∅) as [H1 H2]. split.
    - rewrite H1, lookup_empty. split; [intros [[? ?]|?]; done|by right].
    - intros v [Hv|Hv]%H2; [by rewrite lookup_empty in Hv|done]. }
  induction items as [|[k' v'] items IH]; intros d; cbn [foldl fst snd].
  { split.
    - split; [by left|]. by intros [?|?%elem_of_nil].
    - by left. }
  destruct (IH (<[k' := v']> d)) as [IH1 IH2]. split.
  - rewrite IH1, fmap_cons, elem_of_cons, lookup_insert. cbn [fst].
    case_decide as Hk.
    + subst. split; [intros _; right; by left|intros _; left; by eauto].
    + split.
      * intros [?|?]; [by left|by do 2 right].
      * intros [?|[?|?]]; [by left|congruence|by right].
  - intros v [Hv|Hv]%IH2; [|by do 2 right].
    rewrite lookup_insert in Hv. case_decide; [|by left].
    injection Hv as <-. subst. right. left.
Qed.

Lemma keys_nonneg (lines : list string)
    (table : list ((Z * string) * (string * string))) :
  load_part2ind lines = Ok table → Forall (entry_of lines) table.
Proof.
  unfold load_part2ind. intros Hrun.
  destruct (for_each _ _ _) as [st|] eqn:Hloop; [|done].
  simpl in Hrun. injection Hrun as <-.
  apply p2i_loop_inv with (lines := lines) in Hloop; [by destruct Hloop|done|].
  split; simpl; [done..|constructor].
Qed.

(** X12: a non-empty table that [load_part2ind] returns is accepted by
    [normalize_part_key] after [normalize_all_readable]: the call returns,
    every key of the table has a code, and the part name at that code is the
    normalized readable name of the key. *)
Theorem part2ind_codes (lines : list string)
    (table : list ((Z * string) * (string * string)))
    (collapse_adjectives : option (gset string)) :
  load_part2ind lines = Ok table →
  table ≠ [] →
  ∃ object_class_names part_class_names part_key,
    normalize_part_key
      (normalize_all_readable (dict_of_items table) collapse_adjectives)
      = Ok (object_class_names, part_class_names, part_key)
    ∧ (∀ key value, (key, value) ∈ table → is_Some (part_key !! key))
    ∧ (∀ key object_name readable_name,
         dict_of_items table !! key = Some (object_name, readable_name) →
         ∃ code, part_key !! key = Some code
                 ∧ part_class_names !! code
                   = Some (normalize_readable readable_name collapse_adjectives)).
Proof.
  intros Hrun Hne.
  pose proof (keys_nonneg _ _ Hrun) as Hentries.
  set (raw := normalize_all_readable (dict_of_items table) collapse_adjectives).
  assert (∀ k, is_Some (raw !! k) ↔ k ∈ table.*1) as Hkeys.
  { intros k. unfold raw, normalize_all_readable.
    rewrite lookup_fmap, fmap_is_Some. apply dict_of_items_lookup. }
  destruct (npk_run raw) as (st & m & Hnpk & [_ _ Hkey _] & [_ _ Hseen _ _] & Hsorted & _).
  - destruct table as [|[k v] table]; [done|]. intros Hempty.
    assert (is_Some (raw !! k)) as [? Hk] by (apply Hkeys; left).
    by rewrite Hempty, lookup_empty in Hk.
  - intros c p [[[c' p'] v] [[= <- <-] Hin]]%Hkeys%list_elem_of_fmap.
    rewrite Forall_forall in Hentries. specialize (Hentries _ Hin).
    destruct v. by destruct Hentries as [? _].
  - exists (object_class_names st), (part_class_names st), (part_key st).
    split; [done|]. split.
    + intros key value Hin. apply Hseen, Hsorted, Hkeys.
      apply list_elem_of_fmap. by exists (key, value).
    + intros key o r Hlookup.
      assert (raw !! key = Some (normalize_readable o collapse_adjectives,
                                 normalize_readable r collapse_adjectives)) as Hraw.
      { unfold raw, normalize_all_readable. by rewrite lookup_fmap, Hlookup. }
      destruct (proj2 (Hseen key)) as [code Hcode].
      { apply Hsorted. eauto. }
      exists code. split; [done|].
      destruct (Hkey _ _ Hcode) as (n & Hn & Hname).
      rewrite Hraw in Hn. injection Hn as <-. exact Hname.
Qed.

(** *** Lines that stop the parser *)

Lemma lit_head (p : string) (c : ascii) (s : list ascii) :
  match PyStr.chars p with
  | x :: _ => c ≠ x
  | [] => False
  end →
  lit p (c :: s) = None.
Proof.
  unfold lit. destruct (PyStr.chars p) as [|x p']; [done|]. intros Hne.
  cbn [PyStr.is_prefix]. by rewrite bool_decide_eq_false_2 by congruence.
Qed.

Lemma spaces_head (c : ascii) (s : list ascii) :
  PyStr.isspace c = false → spaces (c :: s) = c :: s.
Proof. intros Hc. unfold spaces. cbn [span]. by rewrite Hc. Qed.

Lemma foreign_line (c : ascii) (s : list ascii) :
  foreign c →
  re_object (c :: s) = None ∧ re_part (c :: s) = None ∧ re_for (c :: s) = None
  ∧ re_multi (c :: s) = None ∧ re_silhouette (c :: s) = false
  ∧ re_copy_from (c :: s) = None ∧ re_copy_to (c :: s) = None
  ∧ re_ignored (c :: s) = false.
Proof.
  intros [Hspace Hc]. rewrite !not_elem_of_cons in Hc.
  destruct Hc as (H1 & H2 & H3 & H4 & H5 & H6 & H7 & _).
  unfold re_object, re_part, re_for, re_multi, re_silhouette, re_copy_from,
    re_copy_to, re_ignored.
  rewrite !(spaces_head c s Hspace).
  rewrite !lit_head by done.
  split_and!; try done.
  cbn. apply bool_decide_eq_false_2. intros [= -> ->]. done.
Qed.

Lemma headers_only (lines : list string) (st st' : p2i_state) :
  Forall (λ line, re_object (PyStr.chars line) = None) lines →
  for_each p2i_line lines st = Ok st' →
  object_name st' = object_name st.
Proof.
  intros Hlines. revert st.
  induction Hlines as [|line lines Hline _ IH]; intros st.
  { by intros [= <-]. }
  rewrite for_each_cons.
  destruct (p2i_line st line) as [st1|] eqn:Hst1; [|done]. cbn [bind].
  intros ->%IH. clear IH. revert Hst1. unfold p2i_line. rewrite Hline.
  assert (∀ k v s s', p2i_store k v s = Ok s' → object_name s' = object_name s)
    as Hstore.
  { intros k v s s'. unfold p2i_store. destruct (bound _); [|done].
    by intros [= <-]. }
  assert (∀ l s s', p2i_rest l s = Ok s' → object_name s' = object_name s)
    as Hrest.
  { intros l s s'. unfold p2i_rest.
    destruct (re_copy_from l); [by intros [= <-]|].
    destruct (re_copy_to l) as [g1|].
    - generalize (result (set_object_index (int g1) s)).
      change (object_name s) with (object_name (set_object_index (int g1) s)).
      generalize (set_object_index (int g1) s). intros s0 items. revert s0.
      induction items as [|[[o pi] v] items IHi]; intros s0.
      { by intros [= <-]. }
      rewrite for_each_cons. unfold p2i_copy at 1.
      destruct (bound (object_to_copy s0)); [|done]. cbn [bind].
      case_bool_decide.
      + destruct (p2i_store _ _ s0) as [s1|] eqn:Hs1; [|done]. cbn [bind].
        intros ->%IHi. by eapply Hstore.
      + cbn [bind]. apply IHi.
    - destruct (re_ignored l); [by intros [= <-]|done]. }
  destruct (re_part _) as [[[[g1 g2] g3] g4]|].
  { intros ->%Hstore. done. }
  destruct (re_for _) as [[g1|]|]; [by intros [= <-]|done|].
  destruct (re_multi _) as [[[[g1 g2] g3] g4]|].
  { destruct (bound _) as [count|]; [|done]. cbn [bind].
    change (object_name st) with (object_name (set_object_index (int g1) st)).
    generalize (set_object_index (int g1) st).
    generalize (seq 1 (Z.to_nat count)). intros indices.
    induction indices as [|i indices IHi]; intros s0.
    { by intros [= <-]. }
    rewrite for_each_cons.
    destruct (p2i_store _ _ s0) as [s1|] eqn:Hs1; [|done]. cbn [bind].
    intros ->%IHi. by eapply Hstore. }
  destruct (re_silhouette _); [|apply Hrest].
  destruct (bound _) as [index|]; [|done]. cbn [bind].
  destruct (p2i_store _ _ _) as [s1|] eqn:Hs1; [|done]. cbn [bind].
  intros ->%Hrest. by apply Hstore in Hs1.
Qed.

(** X13: after lines that were read without error, a line whose first
    character is no white space and none a pattern starts with ends the
    parser with [SystemExit], and a part line that no object header precedes
    raises [NameError]. *)
Theorem load_part2ind_stops (before after : list string) (line : string)
    (st : p2i_state) :
  for_each p2i_line before p2i_init = Ok st →
  ((∃ c s, PyStr.chars line = c :: s ∧ foreign c) →
   load_part2ind (before ++ line :: after) = Raise SystemExit)
  ∧ (Forall (λ l, re_object (PyStr.chars l) = None) before →
     re_object (PyStr.chars line) = None →
     is_Some (re_part (PyStr.chars line)) →
     load_part2ind (before ++ line :: after) = Raise NameError).
Proof.
  intros Hbefore. unfold load_part2ind. fold p2i_init.
  rewrite for_each_app, Hbefore. cbn [bind]. rewrite for_each_cons. split.
  - intros (c & s & Hline & Hc).
    destruct (foreign_line c s Hc) as (H1 & H2 & H3 & H4 & H5 & H6 & H7 & H8).
    unfold p2i_line, p2i_rest. rewrite Hline, H1, H2, H3, H4, H5, H6, H7, H8.
    done.
  - intros Hnone Hobject [[[[g1 g2] g3] g4] Hpart].
    apply (headers_only _ _ _ Hnone) in Hbefore. cbn in Hbefore.
    unfold p2i_line, p2i_store. rewrite Hobject, Hpart.
    cbn [object_name set_object_index]. rewrite Hbefore. done.
Qed.

(** The theorem at the file of the left wing. *)
Lemma part2ind_codes_witness :
  ∃ object_class_names part_class_names part_key,
    normalize_part_key
      (normalize_all_readable
         (dict_of_items [((1%Z, "lwing"), ("aeroplane", "left wing"))]) None)
      = Ok (object_class_names, part_class_names, part_key)
    ∧ is_Some (part_key !! (1%Z, "lwing")).
Proof.
  destruct (part2ind_codes wing_file
              [((1%Z, "lwing"), ("aeroplane", "left wing"))] None)
    as (names & parts & key & Hrun & Hkeys & _).
  - by vm_compute.
  - done.
  - exists names, parts, key. split; [exact Hrun|].
    apply (Hkeys _ ("aeroplane", "left wing")). left.
Defined.

(** The theorem at a line of other text after a header, and at a part line
    without header. *)
Lemma load_part2ind_stops_witness :
  load_part2ind [PyStr.line "% [aeroplane]"; PyStr.line "garbage"]
    = Raise SystemExit
  ∧ load_part2ind [PyStr.line "pimap{1}('lwing')       = 3;"] = Raise NameError.
Proof.
  split.
  - eapply (load_part2ind_stops [PyStr.line "% [aeroplane]"] []
              (PyStr.line "garbage")); [reflexivity|].
    eexists _, _. split; [reflexivity|]. split; [reflexivity|].
    rewrite !not_elem_of_cons. repeat split; (done || apply not_elem_of_nil).
  - eapply (load_part2ind_stops [] [] (PyStr.line "pimap{1}('lwing')       = 3;"));
      [reflexivity|constructor|reflexivity|by eexists].
Defined.

End Part2indRuns.

(** ** The blocks of [part2ind.m] *)

Module Part2indBlocks.
Import PascalSeg LoadPart2ind Part2indRuns.
Import PyStrFacts.

(** A property of the state that every assignment of the loop body keeps is
    kept by the body. *)
Lemma p2i_line_preserves (P : p2i_state → Prop) (line : string)
    (st st' : p2i_state) :
  (∀ g s, re_object (PyStr.chars line) = Some g → P s → P (set_object_name g s)) →
  (∀ v s, P s → P (set_iteration_count v s)) →
  (∀ v s, P s → P (set_object_index v s)) →
  (∀ v s, P s → P (set_object_to_copy v s)) →
  (∀ k v s s', P s → p2i_store k v s = Ok s' → P s') →
  P st → p2i_line st line = Ok st' → P st'.
Proof.
  intros Hname Hcount Hindex Hcopy Hstore.
  assert (∀ l s s', P s → p2i_rest l s = Ok s' → P s') as Hrest.
  { intros l s s' Hs. unfold p2i_rest.
    destruct (re_copy_from l); [intros [= <-]; by apply Hcopy|].
    destruct (re_copy_to l) as [g1|].
    - generalize (result (set_object_index (int g1) s)).
      specialize (Hindex (int g1) s Hs). revert Hindex.
      generalize (set_object_index (int g1) s). intros s0 Hs0 items. revert s0 Hs0.
      induction items as [|[[o pi] v] items IHi]; intros s0 Hs0.
      { by intros [= <-]. }
      rewrite for_each_cons. unfold p2i_copy at 1.
      destruct (bound (object_to_copy s0)); [|done]. cbn [bind].
      case_bool_decide.
      + destruct (p2i_store _ _ s0) as [s1|] eqn:Hs1; [|done]. cbn [bind].
        apply IHi. by eapply Hstore.
      + cbn [bind]. by apply IHi.
    - destruct (re_ignored l); [by intros [= <-]|done]. }
  intros Hst. unfold p2i_line.
  destruct (re_object _) as [g|] eqn:Hobject.
  { intros [= <-]. by apply Hname. }
  destruct (re_part _) as [[[[g1 g2] g3] g4]|].
  { apply Hstore. by apply Hindex. }
  destruct (re_for _) as [[g1|]|]; [intros [= <-]; by apply Hcount|done|].
  destruct (re_multi _) as [[[[g1 g2] g3] g4]|].
  { destruct (bound _) as [count|]; [|done]. cbn [bind].
    specialize (Hindex (int g1) st Hst). revert Hindex.
    generalize (set_object_index (int g1) st).
    generalize (seq 1 (Z.to_nat count)). intros indices.
    induction indices as [|i indices IHi]; intros s0 Hs0.
    { by intros [= <-]. }
    rewrite for_each_cons.
    destruct (p2i_store _ _ s0) as [s1|] eqn:Hs1; [|done]. cbn [bind].
    apply IHi. by eapply Hstore. }
  destruct (re_silhouette _); [|by apply Hrest].
  destruct (bound _) as [index|]; [|done]. cbn [bind].
  destruct (p2i_store _ _ _) as [s1|] eqn:Hs1; [|done]. cbn [bind].
  apply Hrest. eapply Hstore; [|done]. by apply Hindex.
Qed.

Lemma p2i_loop_preserves (P : p2i_state → Prop) (lines : list string)
    (st st' : p2i_state) :
  (∀ g s, P s → P (set_object_name g s)) →
  (∀ v s, P s → P (set_iteration_count v s)) →
  (∀ v s, P s → P (set_object_index v s)) →
  (∀ v s, P s → P (set_object_to_copy v s)) →
  (∀ k v s s', P s → p2i_store k v s = Ok s' → P s') →
  P st → for_each p2i_line lines st = Ok st' → P st'.
Proof.
  intros Hname Hcount Hindex Hcopy Hstore. revert st.
  induction lines as [|line lines IH]; intros st Hst.
  { by intros [= <-]. }
  rewrite for_each_cons.
  destruct (p2i_line st line) as [st1|] eqn:Hst1; [|done]. cbn [bind].
  apply IH. eapply p2i_line_preserves; [|done..]. eauto.
Qed.

(** *** The keys of the table *)

Lemma od_setitem_elem {K V} `{EqDecision K} (d : list (K * V)) (k k' : K) (v : V) :
  k' ∈ (od_setitem d k v).*1 ↔ k' = k ∨ k' ∈ d.*1.
Proof.
  induction d as [|[k0 v0] d IH]; cbn [od_setitem].
  - rewrite fmap_cons, elem_of_cons. done.
  - case_decide as Hk; rewrite !fmap_cons, !elem_of_cons; cbn [fst].
    + subst. split; [intros [?|?]; auto|intros [?|[?|?]]; auto].
    + rewrite IH. split; [intros [?|[?|?]]; auto|intros [?|[?|?]]; auto].
Qed.

Lemma od_setitem_NoDup {K V} `{EqDecision K} (d : list (K * V)) (k : K) (v : V) :
  NoDup d.*1 → NoDup (od_setitem d k v).*1.
Proof.
  induction d as [|[k0 v0] d IH]; cbn [od_setitem].
  - intros _. apply NoDup_singleton.
  - rewrite fmap_cons. cbn [fst]. intros [Hk0 Hd]%NoDup_cons.
    case_decide as Hk; rewrite fmap_cons; cbn [fst]; apply NoDup_cons.
    + by subst.
    + split; [|by apply IH]. rewrite od_setitem_elem. intros [?|?]; by subst.
Qed.

Lemma od_getitem_other {K V} `{EqDecision K} (d : list (K * V)) (k k' : K) (v : V) :
  k' ≠ k → od_getitem (od_setitem d k v) k' = od_getitem d k'.
Proof.
  intros Hne. induction d as [|[k0 v0] d IH]; cbn [od_setitem od_getitem].
  - by rewrite decide_False by done.
  - case_decide as Hk; cbn [od_getitem].
    + subst. by rewrite !decide_False by done.
    + case_decide; [done|apply IH].
Qed.

Lemma od_getitem_same {K V} `{EqDecision K} (d : list (K * V)) (k : K) (v : V) :
  od_getitem (od_setitem d k v) k = Ok v.
Proof.
  induction d as [|[k0 v0] d IH]; cbn [od_setitem od_getitem].
  - by rewrite decide_True.
  - case_decide as Hk; cbn [od_getitem]; [by rewrite decide_True|].
    by rewrite decide_False.
Qed.

Lemma od_getitem_lookup {K V} `{EqDecision K} (d : list (K * V)) (k : K) (v : V) :
  NoDup d.*1 → (k, v) ∈ d → od_getitem d k = Ok v.
Proof.
  induction d as [|[k0 v0] d IH]; [by intros _ ?%elem_of_nil|].
  rewrite fmap_cons. cbn [fst od_getitem].
  intros [Hk0 Hd]%NoDup_cons [[= <- <-]|Hin]%elem_of_cons.
  - by rewrite decide_True.
  - rewrite decide_False; [by apply IH|]. intros ->. apply Hk0.
    apply list_elem_of_fmap. by exists (k, v).
Qed.

Lemma od_getitem_found {K V} `{EqDecision K} (d : list (K * V)) (k : K) :
  k ∈ d.*1 → ∃ v, od_getitem d k = Ok v.
Proof.
  induction d as [|[k0 v0] d IH]; [by intros ?%elem_of_nil|].
  rewrite fmap_cons. cbn [fst od_getitem]. case_decide as Hk; [by eauto|].
  intros [?|?]%elem_of_cons; [congruence|by apply IH].
Qed.

Lemma p2i_store_result (k : Z * string) (v : string) (s s' : p2i_state) :
  p2i_store k v s = Ok s' →
  ∃ name, object_name s = Some name
          ∧ s' = set_result (od_setitem (result s) k (name, v)) s.
Proof.
  unfold p2i_store. destruct (object_name s) as [name|]; [|done].
  intros [= <-]. eauto.
Qed.

(** The table never has two items of one key, and a key that was stored
    stays. *)
Lemma p2i_keys_NoDup (lines : list string) (st : p2i_state) :
  for_each p2i_line lines p2i_init = Ok st → NoDup (result st).*1.
Proof.
  apply (p2i_loop_preserves (λ s, NoDup (result s).*1)); try done.
  - intros k v s s' Hs (name & _ & ->)%p2i_store_result. cbn.
    by apply od_setitem_NoDup.
  - apply NoDup_nil_2.
Qed.

Lemma p2i_keys_grow (lines : list string) (st st' : p2i_state) :
  for_each p2i_line lines st = Ok st' → (result st).*1 ⊆ (result st').*1.
Proof.
  apply (p2i_loop_preserves (λ s, (result st).*1 ⊆ (result s).*1)); try done.
  intros k v s s' Hs (name & _ & ->)%p2i_store_result. cbn.
  intros x Hx. apply od_setitem_elem. right. by apply Hs.
Qed.

(** *** At most one pattern matches *)

Lemma lit_inv (p : string) (s r : list ascii) :
  lit p s = Some r → s = PyStr.chars p ++ r.
Proof.
  unfold lit. destruct (PyStr.is_prefix _ s) eqn:Hp; [|done].
  apply is_prefix_spec in Hp as [t ->]. intros [= <-].
  by rewrite drop_app_length.
Qed.

Lemma lit_app (p : string) (r : list ascii) : lit p (PyStr.chars p ++ r) = Some r.
Proof. unfold lit. by rewrite is_prefix_app, drop_app_length. Qed.

(** After the closing brace, the copy pattern wants an equals sign where the
    part patterns want an opening parenthesis. *)
Lemma brace_then_equals (s s1 s2 : list ascii) :
  lit "}" s = Some s1 → lit "=" (spaces s1) = Some s2 →
  lit "}('" s = None ∧ lit "}(sprintf('" s = None.
Proof.
  intros ->%lit_inv Heq. destruct s1 as [|c s1]; [done|].
  destruct (decide (c = "("%char)) as [->|Hc]; [done|].
  unfold lit. cbn.
  rewrite !(bool_decide_eq_false_2 ("("%char = c)) by congruence.
  by rewrite !andb_false_r.
Qed.

Lemma re_copy_to_only (line : list ascii) (g1 : list ascii) :
  re_copy_to line = Some g1 →
  re_object line = None ∧ re_part line = None ∧ re_for line = None
  ∧ re_multi line = None ∧ re_silhouette line = false
  ∧ re_copy_from line = None.
Proof.
  unfold re_copy_to.
  destruct (lit "pimap{" line) as [s0|] eqn:H0; [|done]. cbn [mbind option_bind].
  destruct (digits s0) as [[g s]|] eqn:Hd; [|done]. cbn [mbind option_bind].
  destruct (lit "}" s) as [s1|] eqn:H1; [|done]. cbn [mbind option_bind].
  destruct (lit "=" (spaces s1)) as [s2|] eqn:H2; [|done]. intros _.
  destruct (brace_then_equals _ _ _ H1 H2) as [Hp Hm].
  apply lit_inv in H0 as ->.
  unfold re_object, re_part, re_for, re_multi, re_silhouette, re_copy_from.
  assert (spaces (PyStr.chars "pimap{" ++ s0) = PyStr.chars "pimap{" ++ s0) as ->
    by done.
  rewrite !lit_app. cbn [mbind option_bind]. rewrite Hd. cbn [mbind option_bind].
  rewrite Hp, Hm. done.
Qed.

Lemma re_part_only (line : list ascii) g1 g2 g3 g4 :
  re_part line = Some (g1, g2, g3, g4) → re_object line = None.
Proof.
  unfold re_part.
  destruct (lit "pimap{" line) as [s0|] eqn:H0; [|done]. intros _.
  by apply lit_inv in H0 as ->.
Qed.

Lemma spaces_spec (s : list ascii) :
  ∃ blank, s = blank ++ spaces s
           ∧ Forall (λ c, PyStr.isspace c = true) blank
           ∧ match spaces s with
             | c :: _ => PyStr.isspace c = false
             | [] => True
             end.
Proof.
  unfold spaces. induction s as [|c s (blank & Hs & Hblank & Hrest)]; cbn [span].
  { by exists []. }
  destruct (PyStr.isspace c) eqn:Hc.
  - destruct (span PyStr.isspace s) as [run rest]. cbn [snd] in *.
    exists (c :: blank). split; [by rewrite Hs at 1|]. split; [by constructor|done].
  - exists []. cbn. by rewrite Hc.
Qed.

Lemma re_multi_only (line : list ascii) g1 g2 g3 g4 :
  re_multi line = Some (g1, g2, g3, g4) →
  re_object line = None ∧ re_part line = None ∧ re_for line = None.
Proof.
  unfold re_multi.
  destruct (lit "pimap{" (spaces line)) as [s0|] eqn:H0; [|done].
  cbn [mbind option_bind].
  destruct (digits s0) as [[g s]|] eqn:Hd; [|done]. cbn [mbind option_bind].
  destruct (lit "}(sprintf('" s) as [s1|] eqn:H1; [|done]. intros _.
  apply lit_inv in H0. apply lit_inv in H1 as ->.
  destruct (spaces_spec line) as (blank & Hline & Hblank & _).
  rewrite H0 in Hline. rewrite Hline. clear Hline H0.
  destruct Hblank as [|c blank Hc _].
  - unfold re_object, re_part, re_for. cbn [app]. rewrite !lit_app.
    cbn [mbind option_bind]. rewrite Hd. done.
  - unfold re_object, re_part, re_for, lit. cbn.
    rewrite !bool_decide_eq_false_2; [done|intros <-; done..].
Qed.

(** *** Part lines, the copy block and the multiple parts *)

(** X14: the table [load_part2ind] returns has no key twice, and holds
    the key (object index, part short name) of every part line of the
    file. *)
Theorem load_part2ind_part_lines (lines : list string)
    (table : list ((Z * string) * (string * string))) :
  load_part2ind lines = Ok table →
  NoDup table.*1
  ∧ ∀ line g1 g2 g3 g4,
      line ∈ lines →
      re_part (PyStr.chars line) = Some (g1, g2, g3, g4) →
      (int g1, g2) ∈ table.*1.
Proof.
  unfold load_part2ind. fold p2i_init.
  destruct (for_each p2i_line lines p2i_init) as [st|] eqn:Hrun; [|done].
  cbn [bind]. intros [= <-]. split; [by eapply p2i_keys_NoDup|].
  intros line g1 g2 g3 g4 (before & after & ->)%list_elem_of_split Hpart.
  rewrite for_each_app in Hrun.
  destruct (for_each p2i_line before p2i_init) as [st0|]; [|done].
  cbn [bind] in Hrun. rewrite for_each_cons in Hrun.
  destruct (p2i_line st0 line) as [st1|] eqn:Hline; [|done]. cbn [bind] in Hrun.
  apply p2i_keys_grow in Hrun. apply Hrun.
  unfold p2i_line in Hline.
  rewrite (re_part_only _ _ _ _ _ Hpart), Hpart in Hline.
  apply p2i_store_result in Hline as (name & _ & ->). cbn.
  apply od_setitem_elem. by left.
Qed.

Lemma copied_other (from to : Z) (name : string) (items table : part2ind)
    (k : Z * string) :
  (k.1 ≠ to ∨ (from, k.2) ∉ items.*1) →
  od_getitem (copied from to name items table) k = od_getitem table k.
Proof.
  unfold copied. revert table.
  induction items as [|[[o p] v] items IH]; intros table Hk; [done|].
  cbn [foldl fst snd]. rewrite IH.
  - case_bool_decide as Ho; [|done]. apply od_getitem_other.
    destruct k as [c q]. cbn in *. intros [= -> ->].
    destruct Hk as [?|Hk]; [done|]. apply Hk. subst. left.
  - destruct Hk as [?|Hk]; [by left|right]. rewrite fmap_cons in Hk.
    by apply not_elem_of_cons in Hk as [_ ?].
Qed.

Lemma copied_item (from to : Z) (name : string) (items table : part2ind)
    (p : string) (v : string * string) :
  NoDup items.*1 → ((from, p), v) ∈ items →
  od_getitem (copied from to name items table) (to, p) = Ok (name, v.2).
Proof.
  unfold copied. revert table.
  induction items as [|[[o q] w] items IH]; intros table Hnodup Hin.
  { by apply elem_of_nil in Hin. }
  rewrite fmap_cons in Hnodup. apply NoDup_cons in Hnodup as [Hfresh Hnodup].
  cbn [foldl fst snd].
  apply elem_of_cons in Hin as [[= <- <- <-]|Hin]; [|by apply IH].
  rewrite bool_decide_eq_true_2 by done.
  fold (copied from to name items (od_setitem table (to, p) (name, v.2))).
  rewrite copied_other by (by right). apply od_getitem_same.
Qed.

Lemma copy_loop (to from : Z) (name : string) (items : part2ind)
    (st : p2i_state) :
  object_to_copy st = Some from → object_name st = Some name →
  for_each (p2i_copy to) items st
  = Ok (set_result (copied from to name items (result st)) st).
Proof.
  intros Hfrom Hname. revert st Hfrom Hname.
  induction items as [|[[o p] v] items IH]; intros st Hfrom Hname.
  { by destruct st. }
  rewrite for_each_cons. unfold p2i_copy at 1. rewrite Hfrom. cbn [bound bind].
  unfold copied. cbn [foldl fst snd]. case_bool_decide.
  - unfold p2i_store. rewrite Hname. cbn [bound bind]. by rewrite IH.
  - cbn [bind]. rewrite IH by done. done.
Qed.

(** X15: the line pimap{N} = containers.Map(keySet, valueSet) stores,
    for every part of the object to copy, an item of the object N with the
    same part name under the current object name; the items of other objects,
    and those of parts the copied object does not have, stay as they were. *)
Theorem load_part2ind_copy (before : list string) (line : string)
    (st : p2i_state) (g1 : list ascii) (from : Z) (name : string) :
  for_each p2i_line before p2i_init = Ok st →
  re_copy_to (PyStr.chars line) = Some g1 →
  object_to_copy st = Some from →
  object_name st = Some name →
  ∃ table,
    load_part2ind (before ++ [line]) = Ok table
    ∧ (∀ part value, od_getitem (result st) (from, part) = Ok value →
         od_getitem table (int g1, part) = Ok (name, value.2))
    ∧ (∀ key, key.1 ≠ int g1 ∨ od_getitem (result st) (from, key.2) = Raise KeyError →
         od_getitem table key = od_getitem (result st) key).
Proof.
  intros Hbefore Hto Hfrom Hname. unfold load_part2ind. fold p2i_init.
  rewrite for_each_app, Hbefore. cbn [bind for_each].
  destruct (re_copy_to_only _ _ Hto) as (H1 & H2 & H3 & H4 & H5 & H6).
  unfold p2i_line, p2i_rest. rewrite H1, H2, H3, H4, H5, H6, Hto.
  rewrite (copy_loop _ from name) by done. cbn [bind].
  eexists. split; [done|]. cbn [result set_result set_object_index].
  pose proof (p2i_keys_NoDup _ _ Hbefore) as Hnodup. split.
  - intros part value Hvalue. apply copied_item; [done|].
    clear -Hvalue. induction (result st) as [|[k w] d IH]; [done|].
    cbn [od_getitem] in Hvalue. case_decide.
    + injection Hvalue as ->. subst. left.
    + right. by apply IH.
  - intros key [Hkey|Hkey]; apply copied_other; [by left|right].
    intros [value Hvalue]%od_getitem_found. congruence.
Qed.

(** The table after the loop over the part numbers of a multiple part. *)
Lemma multi_loop (c : Z) (base readable name : string) (indices : list nat)
    (st : p2i_state) :
  object_name st = Some name →
  for_each (λ st part_index,
              p2i_store (c, base +:+ "_" +:+ format_d part_index) readable st)
    indices st
  = Ok (set_result (numbered c base (name, readable) indices (result st)) st).
Proof.
  intros Hname. revert st Hname.
  induction indices as [|i indices IH]; intros st Hname.
  { by destruct st. }
  rewrite for_each_cons. unfold p2i_store at 1. rewrite Hname. cbn [bound bind].
  by rewrite IH.
Qed.

Lemma numbered_other (c : Z) (base : string) (value : string * string)
    (indices : list nat) (table : part2ind) (key : Z * string) :
  key.1 ≠ c →
  od_getitem (numbered c base value indices table) key = od_getitem table key.
Proof.
  intros Hkey. unfold numbered. revert table.
  induction indices as [|i indices IH]; intros table; [done|].
  cbn [foldl]. rewrite IH. apply od_getitem_other. intros ->. done.
Qed.

Lemma numbered_item (c : Z) (base : string) (value : string * string)
    (indices : list nat) (table : part2ind) (i : nat) :
  i ∈ indices ∨ od_getitem table (c, base +:+ "_" +:+ format_d i) = Ok value →
  od_getitem (numbered c base value indices table)
    (c, base +:+ "_" +:+ format_d i) = Ok value.
Proof.
  unfold numbered. revert table.
  induction indices as [|j indices IH]; intros table.
  { by intros [?%elem_of_nil|?]. }
  intros Hi. cbn [foldl]. apply IH.
  destruct (decide ((c, base +:+ "_" +:+ format_d j)
                    = (c, base +:+ "_" +:+ format_d i))) as [Heq|Hne].
  { right. rewrite Heq. apply od_getitem_same. }
  destruct Hi as [[->|Hi]%elem_of_cons|Hi]; [done|by left|right].
  by rewrite od_getitem_other.
Qed.

(** X16: the sprintf line of a multiple part stores the parts name_1,
    ..., name_n, n the iteration count, all with one readable name: the name
    of the comment, unless it has the word multiple or is missing, else the
    short name; the items of other objects stay as they were. *)
Theorem load_part2ind_multi (before : list string) (line : string)
    (st : p2i_state) (g1 : list ascii) (g2 : string) (g3 : list ascii)
    (g4 : option string) (count : Z) (name : string) :
  for_each p2i_line before p2i_init = Ok st →
  re_multi (PyStr.chars line) = Some (g1, g2, g3, g4) →
  iteration_count st = Some count →
  object_name st = Some name →
  ∃ table,
    load_part2ind (before ++ [line]) = Ok table
    ∧ (∀ i, (1 ≤ i ≤ Z.to_nat count)%nat →
         od_getitem table (int g1, g2 +:+ "_" +:+ format_d i)
         = Ok (name, match g4 with
                     | Some long => if PyStr.contains "multiple" long then g2
                                    else long
                     | None => g2
                     end))
    ∧ (∀ key, key.1 ≠ int g1 →
         od_getitem table key = od_getitem (result st) key).
Proof.
  intros Hbefore Hmulti Hcount Hname. unfold load_part2ind. fold p2i_init.
  rewrite for_each_app, Hbefore. cbn [bind for_each].
  destruct (re_multi_only _ _ _ _ _ Hmulti) as (H1 & H2 & H3).
  unfold p2i_line. rewrite H1, H2, H3, Hmulti.
  cbn [iteration_count set_object_index]. rewrite Hcount. cbn [bound bind].
  rewrite (multi_loop _ _ _ name) by done. cbn [bind].
  eexists. split; [done|]. cbn [result set_result set_object_index]. split.
  - intros i Hi. apply numbered_item. left. apply elem_of_seq. lia.
  - intros key Hkey. by apply numbered_other.
Qed.

(** The theorem at the file of the left wing. *)
Lemma load_part2ind_part_lines_witness :
  ∃ table, load_part2ind wing_file = Ok table ∧ (1%Z, "lwing") ∈ table.*1.
Proof.
  exists [((1%Z, "lwing"), ("aeroplane", "left wing"))].
  assert (load_part2ind wing_file
          = Ok [((1%Z, "lwing"), ("aeroplane", "left wing"))]) as Hrun.
  { vm_compute. reflexivity. }
  split; [exact Hrun|].
  destruct (load_part2ind_part_lines wing_file _ Hrun) as [_ Hin].
  apply (Hin (PyStr.line "pimap{1}('lwing')       = 3;                % left wing")
           (PyStr.chars "1") "lwing" (PyStr.chars "3") (Some "left wing")).
  - right. left.
  - vm_compute. reflexivity.
Defined.

(** The theorem at the sheep, which has the parts of the cow. *)
Lemma load_part2ind_copy_witness :
  ∃ table,
    load_part2ind (copy_file ++ [copy_line]) = Ok table
    ∧ od_getitem table (17%Z, "head") = Ok ("sheep", "head").
Proof.
  assert (∃ st, for_each p2i_line copy_file p2i_init = Ok st
                ∧ od_getitem (result st) (10%Z, "head") = Ok ("cow", "head")
                ∧ object_to_copy st = Some 10%Z ∧ object_name st = Some "sheep")
    as (st & Hst & Hhead & Hfrom & Hname).
  { eexists. split; [vm_compute; reflexivity|]. by vm_compute. }
  destruct (load_part2ind_copy copy_file copy_line st (PyStr.chars "17") 10 "sheep")
    as (table & Hrun & Hcopy & _);
    [exact Hst|vm_compute; reflexivity|exact Hfrom|exact Hname|].
  exists table. split; [exact Hrun|]. exact (Hcopy "head" _ Hhead).
Defined.

(** The theorem at the ten engines of the aeroplane. *)
Lemma load_part2ind_multi_witness :
  ∃ table,
    load_part2ind (engines_file ++ [engines_line]) = Ok table
    ∧ od_getitem table (1%Z, "engine_3") = Ok ("aeroplane", "engine").
Proof.
  assert (∃ st, for_each p2i_line engines_file p2i_init = Ok st
                ∧ iteration_count st = Some 10%Z
                ∧ object_name st = Some "aeroplane")
    as (st & Hst & Hcount & Hname).
  { eexists. split; [vm_compute; reflexivity|]. by vm_compute. }
  destruct (load_part2ind_multi engines_file engines_line st (PyStr.chars "1") "engine"
              (PyStr.chars "10") (Some "multiple engines") 10 "aeroplane")
    as (table & Hrun & Hitems & _);
    [exact Hst|vm_compute; reflexivity|exact Hcount|exact Hname|].
  exists table. split; [exact Hrun|]. apply (Hitems 3%nat). vm_compute. lia.
Defined.

End Part2indBlocks.

(** ** Background and shapes in [load_parts_segmentation] *)

Module PartsSegmentationEdges.
Import PascalSeg LoadPartsSegmentation.

Section loops.

Variables (part_key : ref) (h : heap) (key : gmap (Z * string) nat).
Hypothesis Hkey : h !! part_key = Some key.
Variable sh : nat * nat.

(** The loop over the instances stops at the first mask of another shape. *)
Lemma objects_loop_mismatch (before after : list object_anno) (obj : object_anno)
    (object_arr part_arr : list Z) :
  annotation_ok key sh before →
  shape (mask obj) ≠ sh →
  io_for_each (merge_instance part_key) (before ++ obj :: after)
    ({| shape := sh; data := object_arr |}, {| shape := sh; data := part_arr |}) h
  = (Raise IndexError, h).
Proof using Hkey.
  intros Hbefore Hshape. revert object_arr part_arr.
  induction Hbefore as [|o before (Hsh & _ & Hparts) _ IH];
    intros object_arr part_arr.
  - cbn [app io_for_each]. unfold io_bind at 1, merge_instance at 1.
    unfold io_bind at 1, io_lift at 1, masked_assign at 1. cbn [shape].
    by rewrite bool_decide_eq_false_2.
  - cbn [app io_for_each]. unfold io_bind at 1, merge_instance at 1.
    unfold io_bind at 1, io_lift at 1, masked_assign at 1. cbn [shape data].
    rewrite bool_decide_eq_true_2 by done.
    unfold io_bind at 1. rewrite (parts_loop part_key h key Hkey sh).
    + unfold io_ret at 1. apply IH.
    + eapply Forall_impl; [done|]. simpl. by intros ? (? & _ & ?).
Qed.

End loops.

Lemma paint_none (arr : list Z) (layers : list (list Z * Z)) (j : nat) :
  Forall (λ layer, length layer.1 = length arr) layers →
  Forall (λ layer, ¬ ∃ m, layer.1 !! j = Some m ∧ m ≠ 0%Z) layers →
  paint arr layers !! j = arr !! j.
Proof.
  intros Hlen Hnone. apply paint_skip.
  rewrite Forall_forall in Hlen, Hnone |- *. intros layer Hin. split; auto.
Qed.

(** X17: in the arrays [load_parts_segmentation] returns, an element
    that no instance mask covers has the object value 0, and an element that
    no part mask covers has the part value 0. *)
Theorem load_parts_segmentation_background (loadmat : string → outcome mat_file)
    (filename : string) (part_key : ref) (h : heap)
    (key : gmap (Z * string) nat) (d : mat_file)
    (first : object_anno) (rest : list object_anno) :
  loadmat filename = Ok d →
  anno d = Some (first :: rest) →
  h !! part_key = Some key →
  annotation_ok key (shape (mask first)) (first :: rest) →
  ∃ object_seg part_seg,
    load_parts_segmentation loadmat filename part_key h
      = (Ok (Array object_seg, Array part_seg), h)
    ∧ (∀ j, (j < numel (shape (mask first)))%nat →
         Forall (λ obj, ¬ covers (mask obj) j) (first :: rest) →
         data object_seg !! j = Some 0%Z)
    ∧ (∀ j, (j < numel (shape (mask first)))%nat →
         Forall (λ obj, Forall (λ part, ¬ covers (part_mask part) j) (parts obj))
           (first :: rest) →
         data part_seg !! j = Some 0%Z).
Proof.
  intros Hfile Hanno Hkey Hok.
  unfold load_parts_segmentation, io_bind at 1 2, io_lift.
  rewrite Hfile, Hanno. unfold zeros. unfold io_bind at 1.
  rewrite (objects_loop part_key h key Hkey _ _ _ _ Hok).
  set (sh := shape (mask first)) in *.
  set (blank := replicate (numel sh) 0%Z).
  assert (length blank = numel sh) as Hblank by apply length_replicate.
  pose proof (object_layers_length _ _ _ Hok) as Hol.
  pose proof (part_layers_length _ _ _ Hok) as Hpl.
  rewrite <-Hblank in Hol, Hpl.
  do 2 eexists. split; [done|]. cbn [data]. split.
  - intros j Hj Hnone. rewrite paint_none; [by apply lookup_replicate_2|done|].
    apply Forall_fmap. eapply Forall_impl; [done|]. done.
  - intros j Hj Hnone. rewrite paint_none; [by apply lookup_replicate_2|done|].
    apply Forall_concat, Forall_fmap. eapply Forall_impl; [done|].
    intros o Ho. unfold part_layers. apply Forall_fmap.
    eapply Forall_impl; [exact Ho|]. intros p Hp. exact Hp.
Qed.

(** X18: an instance whose mask has another shape than the first
    instance's makes [load_parts_segmentation] raise [IndexError], once the
    instances before it are merged; the store is left as it was. *)
Theorem load_parts_segmentation_shape (loadmat : string → outcome mat_file)
    (filename : string) (part_key : ref) (h : heap)
    (key : gmap (Z * string) nat) (d : mat_file)
    (first obj : object_anno) (before after : list object_anno) :
  loadmat filename = Ok d →
  anno d = Some (first :: before ++ obj :: after) →
  h !! part_key = Some key →
  annotation_ok key (shape (mask first)) (first :: before) →
  shape (mask obj) ≠ shape (mask first) →
  load_parts_segmentation loadmat filename part_key h = (Raise IndexError, h).
Proof.
  intros Hfile Hanno Hkey Hok Hshape.
  unfold load_parts_segmentation, io_bind at 1 2, io_lift.
  rewrite Hfile, Hanno. unfold zeros. unfold io_bind at 1.
  rewrite (app_comm_cons before (obj :: after) first).
  by rewrite (objects_loop_mismatch part_key h key Hkey _ _ _ _ _ _ Hok Hshape).
Qed.

(** The theorem at the annotation [tail_only]: the first element has no part. *)
Lemma load_parts_segmentation_background_witness :
  ∃ object_seg part_seg,
    load_parts_segmentation tail_files "a.mat" 1%positive {[ 1%positive := wing_key ]}
      = (Ok (Array object_seg, Array part_seg), {[ 1%positive := wing_key ]})
    ∧ data part_seg !! 0%nat = Some 0%Z.
Proof.
  destruct (load_parts_segmentation_background tail_files "a.mat" 1%positive
              {[ 1%positive := wing_key ]} wing_key
              {| anno := Some tail_only; LabelMap := Some (row [5; 6]%Z) |}
              _ [] eq_refl eq_refl)
    as (os & ps & Hrun & _ & Hps).
  { apply lookup_singleton_eq. }
  { repeat constructor. exists 7%nat. vm_compute. reflexivity. }
  exists os, ps. split; [exact Hrun|]. apply Hps; [vm_compute; lia|].
  repeat constructor. intros (x & [= <-] & Hx). by apply Hx.
Defined.

(** The theorem at the annotation [mixed]. *)
Lemma load_parts_segmentation_shape_witness :
  load_parts_segmentation mixed_files "a.mat" 1%positive {[ 1%positive := ∅ ]}
  = (Raise IndexError, {[ 1%positive := ∅ ]}).
Proof.
  eapply (load_parts_segmentation_shape mixed_files "a.mat" 1%positive
            {[ 1%positive := ∅ ]} ∅ _ _ _ [] []).
  - reflexivity.
  - reflexivity.
  - apply lookup_singleton_eq.
  - repeat constructor.
  - intros [=].
Defined.

End PartsSegmentationEdges.

(** ** [load_context_labels] *)

Module ContextLabels.
Import PyStr PascalSeg NormalizePartKey NormalizePartKeyNames.

Lemma context_pair_raises (ps : list string) (e : exn) :
  context_pair ps = Raise e → e = ValueError.
Proof.
  unfold context_pair. destruct ps as [|i [|n [|? ?]]]; try by intros [= <-].
  unfold py_int. destruct (match rev _ with [] => _ | _ => _ end) as [sign s].
  destruct (_ && _); [done|]. by intros [= <-].
Qed.

(** The loop that reads the pairs: it returns the pairs of the lines, or
    stops with [ValueError] at a line that has none. *)
Lemma pairs_loop (lines : list string) (acc : list (Z * string)) :
  (∃ pairs,
     Forall2 (λ line p, context_pair (pieces line) = Ok p) lines pairs
     ∧ for_each (λ acc ps, let? pair := context_pair ps in Ok (acc ++ [pair]))
         ((λ s, split_sep ": " (strip s)) <$> lines) acc = Ok (acc ++ pairs))
  ∨ (Exists (λ line, context_pair (pieces line) = Raise ValueError) lines
     ∧ for_each (λ acc ps, let? pair := context_pair ps in Ok (acc ++ [pair]))
         ((λ s, split_sep ": " (strip s)) <$> lines) acc = Raise ValueError).
Proof.
  revert acc. induction lines as [|line lines IH]; intros acc.
  { left. exists []. split; [constructor|]. by rewrite app_nil_r. }
  rewrite fmap_cons, for_each_cons. fold (pieces line).
  destruct (context_pair (pieces line)) as [p|e] eqn:Hp; cbn [bind].
  - destruct (IH (acc ++ [p])) as [(pairs & Hall & ->)|[Hbad ->]].
    + left. exists (p :: pairs). split; [by constructor|].
      by rewrite <-app_assoc.
    + right. split; [by right|done].
  - right. apply context_pair_raises in Hp as ? . subst. split; [by left|done].
Qed.

Lemma assign_loop (pairs : list (Z * string)) (names : list string) :
  Forall (λ p, 0 ≤ p.1 < Z.of_nat (length names))%Z pairs →
  for_each (λ names '(i, n), list_setitem names i n) pairs names
    = Ok (assigned pairs names)
  ∧ length (assigned pairs names) = length names.
Proof.
  unfold assigned. intros Hall. revert names Hall.
  induction pairs as [|[i n] pairs IH]; intros names Hall; [done|].
  apply Forall_cons in Hall as [Hi Hall]. cbn [fst] in Hi.
  rewrite for_each_cons. unfold list_setitem at 1, py_index.
  rewrite bool_decide_eq_true_2 by done. cbn [bind foldl fst snd].
  destruct (IH (<[Z.to_nat i := n]> names)) as [-> ->].
  - by rewrite length_insert.
  - by rewrite length_insert.
Qed.

Lemma assign_loop_raises (pairs : list (Z * string)) (names : list string)
    (e : exn) :
  for_each (λ names '(i, n), list_setitem names i n) pairs names = Raise e →
  e = IndexError.
Proof.
  revert names. induction pairs as [|[i n] pairs IH]; intros names; [done|].
  rewrite for_each_cons. unfold list_setitem at 1, py_index.
  repeat case_bool_decide; cbn [bind]; try apply IH. by intros [= <-].
Qed.

Lemma assigned_app (a b : list (Z * string)) (names : list string) :
  assigned (a ++ b) names = assigned b (assigned a names).
Proof. apply foldl_app. Qed.

Lemma assigned_length (pairs : list (Z * string)) (names : list string) :
  length (assigned pairs names) = length names.
Proof.
  unfold assigned. revert names.
  induction pairs as [|p pairs IH]; intros names; [done|].
  cbn [foldl]. by rewrite IH, length_insert.
Qed.

Lemma assigned_skip (pairs : list (Z * string)) (names : list string) (j : nat) :
  Forall (λ p, Z.to_nat p.1 ≠ j) pairs →
  assigned pairs names !! j = names !! j.
Proof.
  unfold assigned. intros Hall. revert names.
  induction Hall as [|p pairs Hp _ IH]; intros names; [done|].
  cbn [foldl]. rewrite IH. by apply list_lookup_insert_ne.
Qed.

(** X19: when every line has the form index: name, the file has a line
    and no index is negative, [load_context_labels] returns a list with one
    entry for every index up to the largest and no more; the entry of an
    index is the name of its last line, and '-' when it has no line. *)
Theorem load_context_labels_spec (lines : list string)
    (pairs : list (Z * string)) :
  Forall2 (λ line p, context_pair (pieces line) = Ok p) lines pairs →
  pairs ≠ [] →
  Forall (λ p, 0 ≤ p.1)%Z pairs →
  ∃ object_names,
    load_context_labels lines = Ok object_names
    ∧ Forall (λ p, p.1 < Z.of_nat (length object_names))%Z pairs
    ∧ Exists (λ p, p.1 + 1 = Z.of_nat (length object_names))%Z pairs
    ∧ (∀ before i n after,
         pairs = before ++ (i, n) :: after →
         Forall (λ p, p.1 ≠ i) after →
         object_names !! Z.to_nat i = Some n)
    ∧ (∀ j, (j < length object_names)%nat →
         Forall (λ p, p.1 ≠ Z.of_nat j) pairs →
         object_names !! j = Some "-").
Proof.
  intros Hlines Hne Hpos. unfold load_context_labels.
  destruct (pairs_loop lines []) as [(pairs' & Hall & ->)|[Hbad _]].
  2:{ exfalso. clear -Hlines Hbad. induction Hlines as [|?????? IH].
      - by apply Exists_nil in Hbad.
      - apply Exists_cons in Hbad as [?|?]; [congruence|auto]. }
  assert (pairs' = pairs) as ->.
  { clear -Hlines Hall. revert pairs' Hall.
    induction Hlines as [|line p lines pairs Hp _ IH]; intros pairs' Hall.
    - by apply Forall2_nil_inv_l in Hall.
    - apply Forall2_cons_inv_l in Hall as (p' & pairs'' & Hp' & Hall & ->).
      f_equal; [congruence|by apply IH]. }
  cbn [bind app].
  destruct (pairs.*1) as [|x xs] eqn:Hxs.
  { by apply fmap_nil_inv in Hxs. }
  destruct (py_max_ok x xs) as (m & Hmax & Hm). rewrite Hmax.
  apply py_max_in in Hmax. rewrite <-Hxs in Hm, Hmax. cbn [bind].
  assert (0 ≤ m)%Z as Hm0.
  { apply list_elem_of_fmap in Hmax as (p & -> & Hp).
    rewrite Forall_forall in Hpos. by apply Hpos. }
  set (names := replicate (Z.to_nat (m + 1)) "-").
  assert (length names = Z.to_nat (m + 1)) as Hlen by apply length_replicate.
  assert (Forall (λ p, 0 ≤ p.1 < Z.of_nat (length names))%Z pairs) as Hrange.
  { rewrite Forall_forall in Hpos |- *. intros p Hp. split; [by apply Hpos|].
    assert (p.1 ≤ m)%Z; [|lia]. apply Hm. apply list_elem_of_fmap. eauto. }
  destruct (assign_loop pairs names Hrange) as [-> Hlen'].
  eexists. split; [done|]. rewrite Hlen', Hlen. split_and!.
  - eapply Forall_impl; [exact Hrange|]. intros p. cbn. lia.
  - apply list_elem_of_fmap in Hmax as (p & -> & Hp).
    apply Exists_exists. exists p. split; [done|]. lia.
  - intros before i n after -> Hafter.
    rewrite assigned_app. change (assigned ((i, n) :: after) ?l)
      with (assigned after (<[Z.to_nat (i, n).1 := (i, n).2]> l)).
    cbn [fst snd].
    apply Forall_app in Hrange as [_ [Hi Hrange]%Forall_cons]. cbn [fst] in Hi.
    rewrite assigned_skip.
    + apply list_lookup_insert_eq. rewrite assigned_length. lia.
    + apply Forall_app in Hpos as [_ [_ Hpos]%Forall_cons].
      rewrite Forall_forall in Hafter, Hpos |- *. intros p Hp.
      specialize (Hafter p Hp). specialize (Hpos p Hp). lia.
  - intros j Hj Hnone. rewrite assigned_skip.
    + by apply lookup_replicate_2.
    + rewrite Forall_forall in Hnone, Hpos |- *. intros p Hp.
      specialize (Hnone p Hp). specialize (Hpos p Hp). lia.
Qed.

(** X20: [load_context_labels] raises [ValueError] exactly when the
    file has no line, or has a line that is not of the form index: name (two
    pieces around ': ', the first one an integer). *)
Theorem load_context_labels_value_error (lines : list string) :
  load_context_labels lines = Raise ValueError
  ↔ lines = []
    ∨ Exists (λ line, context_pair (pieces line) = Raise ValueError) lines.
Proof.
  unfold load_context_labels.
  destruct (pairs_loop lines []) as [(pairs & Hall & ->)|[Hbad ->]].
  2:{ cbn [bind]. split; [by right|done]. }
  cbn [bind app]. destruct pairs as [|p pairs].
  - apply Forall2_nil_inv_r in Hall as ->. cbn. split; [by left|done].
  - destruct (py_max_ok p.1 (pairs.*1)) as (m & Hmax & _).
    rewrite fmap_cons, Hmax. cbn [bind]. split.
    + intros ?%assign_loop_raises. done.
    + intros [->|Hbad]; [by apply Forall2_nil_inv_l in Hall|].
      exfalso. clear -Hall Hbad. induction Hall as [|?????? IH].
      * by apply Exists_nil in Hbad.
      * apply Exists_cons in Hbad as [?|?]; [congruence|auto].
Qed.

(** The theorem at a file of two lines, which skips the index 1. *)
Lemma load_context_labels_spec_witness :
  ∃ object_names,
    load_context_labels [PyStr.line "0: empty"; PyStr.line "2: bag"]
      = Ok object_names
    ∧ object_names !! 2%nat = Some "bag"
    ∧ object_names !! 1%nat = Some "-".
Proof.
  destruct (load_context_labels_spec
              [PyStr.line "0: empty"; PyStr.line "2: bag"]
              [(0%Z, "empty"); (2%Z, "bag")])
    as (names & Hrun & Hlt & _ & Hlast & Hnone).
  - repeat constructor.
  - done.
  - by repeat constructor.
  - exists names. split; [exact Hrun|]. split.
    + apply (Hlast [(0%Z, "empty")] 2%Z "bag" []); [done|constructor].
    + apply Hnone; [|by repeat constructor].
      apply Forall_cons in Hlt as [_ [Hlt _]%Forall_cons]. cbn in Hlt. lia.
Defined.

End ContextLabels.

(** ** [normalize_readable] again, [name] and [filename] *)

Module Methods.
Import PyStr PyStrFacts PascalSeg LoadSeg.
Import NormalizeReadable NormalizePartKey NormalizePartKeyNames ReadOnly.

(** *** [normalize_readable] a second time *)

Lemma respell_changed (s : list ascii) :
  respell s = s ∨ contains_l airplane (respell s) = true.
Proof.
  induction s as [|c s IH]; [by left|].
  rewrite respell_cons. destruct (is_prefix aeroplane (c :: s)) eqn:Hhit.
  - right. apply contains_l_spec. by exists [], (respell (drop 8 s)).
  - destruct IH as [->|IH]; [by left|right].
    rewrite contains_l_cons, IH. apply orb_true_r.
Qed.

Lemma decoded_names_short (name long : string) :
  decoded_names !! name = Some long → contains "airplane" name = false.
Proof.
  intros H. apply elem_of_list_to_map_2 in H. revert H.
  rewrite !elem_of_cons, elem_of_nil.
  intros H; destruct_or!; simplify_eq; by vm_compute.
Qed.

(** X21: without adjectives to collapse, [normalize_readable] leaves a
    name it has returned as it is. *)
Theorem normalize_readable_again (name : string) :
  normalize_readable (normalize_readable name None) None
  = normalize_readable name None.
Proof.
  unfold normalize_readable, collapse.
  destruct (decoded_names !! name) as [long|] eqn:Hname.
  { apply decoded_names_long in Hname as (-> & Hlong & Hclean).
    by rewrite Hclean, Hlong, Hclean. }
  assert (decode_name name = name) as -> by (unfold decode_name; by rewrite Hname).
  set (r := replace "aeroplane" "airplane" name).
  assert (replace "aeroplane" "airplane" r = r) as Hclean.
  { unfold r, replace. rewrite chars_of_chars.
    change (chars "aeroplane") with aeroplane.
    change (chars "airplane") with airplane.
    by rewrite (respell_id (respell _)) by apply respell_clean. }
  destruct (respell_changed (chars name)) as [Hsame|Hchanged].
  - assert (r = name) as Hr.
    { unfold r, replace. change (chars "aeroplane") with aeroplane.
      change (chars "airplane") with airplane.
      rewrite Hsame. apply of_chars_chars. }
    rewrite Hr in Hclean |- *.
    assert (decode_name name = name) as -> by (unfold decode_name; by rewrite Hname).
    exact Hclean.
  - assert (decode_name r = r) as ->; [|exact Hclean].
    unfold decode_name. destruct (decoded_names !! r) as [long|] eqn:Hr; [|done].
    apply decoded_names_short in Hr. unfold contains, r, replace in Hr.
    rewrite chars_of_chars in Hr.
    change (chars "aeroplane") with aeroplane in Hr.
    change (chars "airplane") with airplane in Hr. congruence.
Qed.

(** *** From a key to the name of its code *)

(** X22: on a non-empty map without negative object index, for a dataset
    whose [part_names] is the list [normalize_part_key] returned, [name] of
    the category 'part' at the code of a key is the part name of that key,
    and [all_names] returns that name alone. *)
Theorem part_code_name (raw_names : gmap (Z * string) (string * string)) :
  raw_names ≠ ∅ →
  (∀ c p, is_Some (raw_names !! (c, p)) → (0 ≤ c)%Z) →
  ∃ object_class_names part_class_names part_key,
    normalize_part_key raw_names
      = Ok (object_class_names, part_class_names, part_key)
    ∧ ∀ self : PascalSegmentation,
        part_names self = part_class_names →
        ∀ key n, raw_names !! key = Some n →
          ∃ code, part_key !! key = Some code
                  ∧ name all_names self "part" (Z.of_nat code) = Ok n.2
                  ∧ all_names self "part" (Z.of_nat code) = Ok [n.2].
Proof.
  intros Hne Hpos.
  destruct (npk_run raw_names Hne Hpos)
    as (st & m & Hrun & [_ _ Hkey _] & [_ _ Hseen _ _] & Hkeys & _).
  exists (object_class_names st), (part_class_names st), (part_key st).
  split; [done|]. intros self Hself key n Hn.
  destruct (proj2 (Hseen key)) as [code Hcode].
  { apply Hkeys. eauto. }
  exists code. split; [done|].
  destruct (Hkey _ _ Hcode) as (n' & Hn' & Hname).
  assert (n' = n) as -> by congruence.
  assert (all_names self "part" (Z.of_nat code) = Ok [n.2]) as Hall.
  { unfold all_names. rewrite bool_decide_eq_false_2 by done.
    rewrite bool_decide_eq_true_2 by done.
    unfold list_getitem, py_index. rewrite Hself.
    pose proof (lookup_lt_Some _ _ _ Hname).
    rewrite bool_decide_eq_true_2 by lia. cbn [bind].
    by rewrite Nat2Z.id, Hname. }
  split; [|done]. unfold name. by rewrite Hall.
Qed.

(** *** [filename] *)

Lemma mat_no_overlap (c : ascii) (s : list ascii) :
  is_prefix mat (c :: s) = false → is_prefix mat (c :: s ++ mat) = false.
Proof.
  intros Hmiss. apply not_true_is_false. intros Hhit.
  apply not_true_iff_false in Hmiss. apply Hmiss. clear Hmiss.
  unfold mat in *. destruct s as [|x [|y [|z s]]]; cbn in Hhit |- *.
  all: repeat (apply andb_true_iff in Hhit as [?%bool_decide_eq_true Hhit]).
  all: simplify_eq; done.
Qed.

Lemma replace_mat (stem : list ascii) :
  contains_l mat stem = false → replace_l mat jpg (stem ++ mat) = stem ++ jpg.
Proof.
  induction stem as [|c stem IH]; [done|].
  rewrite contains_l_cons. intros [Hmiss Hstem]%orb_false_iff.
  cbn [app]. rewrite replace_l_miss by by apply mat_no_overlap.
  by rewrite IH.
Qed.

(** X23: for the annotation file stem.mat of the index [i], where stem
    has no '.mat' in it, [filename] returns the path
    directory/version/JPEGImages/stem.jpg. *)
Theorem filename_of_annotation (self : PascalSegmentation) (i : Z)
    (m : string * string * string * ref * string) (stem : string) :
  metadata self i = Ok m →
  m.2 = stem +:+ ".mat" →
  contains ".mat" stem = false →
  filename self i
  = Ok (path_join (directory self) [version self; "JPEGImages"; stem +:+ ".jpg"]).
Proof.
  unfold metadata, filename, self_segs.
  destruct (segs self) as [segs|]; [|done]. cbn [bind].
  destruct (list_getitem segs i) as [seg|]; [|done]. cbn [bind].
  intros [= <-]. cbn [snd]. intros -> Hstem. do 3 f_equal.
  unfold replace. rewrite chars_app.
  change (chars ".mat") with mat. change (chars ".jpg") with jpg.
  rewrite replace_mat by done.
  rewrite <-(of_chars_chars (stem +:+ ".jpg")), chars_app. done.
Qed.

(** The theorem at the map [engine_names] and the first engine. *)
Lemma part_code_name_witness :
  ∃ object_class_names part_class_names part_key,
    normalize_part_key engine_names
      = Ok (object_class_names, part_class_names, part_key)
    ∧ ∃ code, name all_names (with_part_names part_class_names) "part" code
              = Ok "engine".
Proof.
  destruct (part_code_name engine_names
              (proj1 engine_names_ok) (proj2 engine_names_ok))
    as (names & parts & key & Hrun & Hname).
  exists names, parts, key. split; [exact Hrun|].
  destruct (Hname (with_part_names parts) eq_refl (1%Z, "engine_1")
              ("airplane", "engine")) as (code & _ & Hcode & _);
    [vm_compute; reflexivity|].
  exists (Z.of_nat code). exact Hcode.
Defined.

(** The theorem at the first file of [two_files]. *)
Lemma filename_of_annotation_witness :
  filename two_files 0 = Ok "/data/pascal/VOC2010/JPEGImages/2008_000001.jpg".
Proof.
  by rewrite (filename_of_annotation two_files 0 _ "2008_000001" eq_refl eq_refl
                eq_refl).
Defined.

End Methods.

(** ** [resolve_segmentation] and [segmentation_data] *)

Module Resolve.
Import PyStr PascalSeg LoadSeg ReadOnly.

Section files.

Variable loadmat : string → outcome mat_file.

(** X24: when [resolve_segmentation] returns, the store is unchanged;
    the result has the key 'part' exactly when parts are wanted, with the part
    layer of [load_parts_segmentation], then the key 'object' exactly when
    objects are wanted, with the LabelMap of the context file; the shape is
    that of the part layer if it is an array, else that of the label map,
    else (1, 1). *)
Theorem resolve_segmentation_result
    (directory partdir contextdir : string) (part_key : ref) (seg_fn : string)
    (categories : option (list string)) (h h' : heap)
    (result : list (string * pyarr)) (sh : nat * nat) :
  resolve_segmentation loadmat (directory, partdir, contextdir, part_key, seg_fn)
    categories h = (Ok (result, sh), h') →
  h' = h
  ∧ result.*1 = (if wants "part" categories then ["part"] else [])
                ++ (if wants "object" categories then ["object"] else [])
  ∧ (wants "part" categories = true →
     ∃ objs parts,
       load_parts_segmentation loadmat
         (path_join directory [partdir; "Annotations_Part"; seg_fn]) part_key h
         = (Ok (objs, parts), h)
       ∧ od_getitem result "part" = Ok parts)
  ∧ (wants "object" categories = true →
     ∃ d label_map,
       loadmat (path_join directory [contextdir; "trainval"; seg_fn]) = Ok d
       ∧ LabelMap d = Some label_map
       ∧ od_getitem result "object" = Ok (Array label_map))
  ∧ sh = match od_getitem result "part" with
         | Ok (Array parts) => shape parts
         | _ => match od_getitem result "object" with
                | Ok (Array label_map) => shape label_map
                | _ => (1, 1)%nat
                end
         end.
Proof.
  intros Hrun.
  assert (h' = h) as ->.
  { pose proof (read_only_resolve_segmentation loadmat
                  (directory, partdir, contextdir, part_key, seg_fn) categories h)
      as Hro. by rewrite Hrun in Hro. }
  split; [done|]. revert Hrun. unfold resolve_segmentation.
  generalize (path_join directory [partdir; "Annotations_Part"; seg_fn]).
  generalize (path_join directory [contextdir; "trainval"; seg_fn]).
  intros context_file part_file.
  pose proof (read_only_load_parts_segmentation loadmat part_file part_key h)
    as Hro.
  destruct (load_parts_segmentation loadmat part_file part_key h)
    as [[[objs parts]|e] h0] eqn:Hparts; cbn in Hro; subst h0.
  all: destruct (loadmat context_file) as [d|e'] eqn:Hfile.
  all: try destruct (LabelMap d) as [label_map|] eqn:Hmap.
  all: destruct (wants "part" categories), (wants "object" categories).
  all: unfold io_bind, io_ret, io_lift; rewrite ?Hparts, ?Hfile, ?Hmap; cbn.
  all: try done.
  all: intros [= <- <-].
  all: split_and!; try done; try (intros _; eauto 10).
  all: by destruct parts.
Qed.

(** X25: for an index of an annotation file, [segmentation_data] leaves
    the store unchanged; it returns 0 for a category other than 'part' and
    'object', the part layer of [load_parts_segmentation] for 'part', and the
    LabelMap of the context file for 'object', and raises what these
    raise. *)
Theorem segmentation_data_layers (self : PascalSegmentation) (category : string)
    (i c : Z) (full : bool) (h : heap)
    (m : string * string * string * ref * string) :
  metadata self i = Ok m →
  (segmentation_data metadata (resolve_segmentation loadmat) self category i c
     full h).2 = h
  ∧ (category ≠ "part" → category ≠ "object" →
     segmentation_data metadata (resolve_segmentation loadmat) self category i c
       full h = (Ok (Scalar 0), h))
  ∧ (category = "part" →
     (segmentation_data metadata (resolve_segmentation loadmat) self category i c
        full h).1
     = rmap snd
         (load_parts_segmentation loadmat
            (path_join (directory self)
               [partdir self; "Annotations_Part"; m.2])
            (self_part_key self) h).1)
  ∧ (category = "object" →
     (segmentation_data metadata (resolve_segmentation loadmat) self category i c
        full h).1
     = let? d := loadmat (path_join (directory self)
                            [contextdir self; "trainval"; m.2]) in
       let? label_map := match LabelMap d with
                         | Some a => Ok a
                         | None => Raise KeyError
                         end in
       Ok (Array label_map)).
Proof.
  intros Hm.
  destruct m as [[[[dir pd] cd] pk] seg_fn]. cbn [snd].
  assert ((dir, pd, cd, pk)
          = (directory self, partdir self, contextdir self, self_part_key self))
    as Hparts.
  { revert Hm. unfold metadata. destruct (segs self); [|done]. cbn [bind].
    destruct (list_getitem _ i); [|done]. by intros [= <- <- <- <-]. }
  unfold segmentation_data. unfold io_bind at 1, io_lift at 1. rewrite Hm.
  injection Hparts as -> -> -> ->. unfold resolve_segmentation.
  pose proof (read_only_load_parts_segmentation loadmat
                (path_join (directory self)
                   [partdir self; "Annotations_Part"; seg_fn])
                (self_part_key self) h) as Hro.
  split_and!.
  - generalize (path_join (directory self) [contextdir self; "trainval"; seg_fn]).
    intros context_file. revert Hro.
    generalize (path_join (directory self)
                  [partdir self; "Annotations_Part"; seg_fn]).
    intros part_file Hro.
    destruct (load_parts_segmentation loadmat part_file (self_part_key self) h)
      as [[[objs parts]|e] h0] eqn:Hload; cbn in Hro; subst h0.
    all: destruct (loadmat context_file) as [d|e'] eqn:Hfile.
    all: try destruct (LabelMap d) as [label_map|] eqn:Hmap.
    all: destruct (wants "part" (Some [category])),
           (wants "object" (Some [category])).
    all: unfold io_bind, io_ret, io_lift; rewrite ?Hload, ?Hfile, ?Hmap; cbn.
    all: try done.
    all: repeat case_bool_decide; repeat case_decide; try done.
    all: by destruct (od_getitem _ _).
  - intros Hp Ho. unfold wants.
    rewrite !bool_decide_eq_false_2
      by (intros ?%list_elem_of_singleton; congruence).
    unfold io_bind, io_ret. cbn. done.
  - intros ->. unfold wants.
    rewrite bool_decide_eq_true_2 by (by apply list_elem_of_singleton).
    rewrite bool_decide_eq_false_2 by (by intros ?%list_elem_of_singleton).
    unfold io_bind, io_ret, io_lift.
    destruct (load_parts_segmentation _ _ _ _) as [[[objs parts]|e] h0]; [|done].
    cbn. rewrite bool_decide_eq_false_2; [done|].
    intros Hnot. apply Hnot. by left.
  - intros ->. unfold wants.
    rewrite bool_decide_eq_false_2 by (by intros ?%list_elem_of_singleton).
    rewrite bool_decide_eq_true_2 by (by apply list_elem_of_singleton).
    unfold io_bind, io_ret, io_lift.
    destruct (loadmat _) as [d|e]; [|done]. cbn [bind].
    destruct (LabelMap d) as [lm|]; [|done].
    cbn. rewrite bool_decide_eq_false_2; [done|].
    intros Hnot. apply Hnot. by left.
Qed.

End files.
(** The theorem at the files [bare_files], with every category wanted. *)
Lemma resolve_segmentation_result_witness :
  ∃ result sh,
    resolve_segmentation bare_files
      ("/data/pascal", "part", "context", 1%positive, "2008_000001.mat") None ∅
    = (Ok (result, sh), ∅)
    ∧ result.*1 = ["part"; "object"].
Proof.
  assert (∃ result sh,
            resolve_segmentation bare_files
              ("/data/pascal", "part", "context", 1%positive, "2008_000001.mat")
              None ∅
            = (Ok (result, sh), ∅)) as (result & sh & Hrun).
  { eexists _, _. vm_compute. reflexivity. }
  exists result, sh. split; [exact Hrun|].
  destruct (resolve_segmentation_result bare_files _ _ _ _ _ _ _ _ _ _ Hrun)
    as (_ & Hkeys & _).
  exact Hkeys.
Defined.

(** The theorem at a category the dataset does not have. *)
Lemma segmentation_data_layers_witness :
  segmentation_data metadata (resolve_segmentation tail_files) two_files
    "material" 0 0 false {[ 1%positive := wing_key ]}
  = (Ok (Scalar 0), {[ 1%positive := wing_key ]}).
Proof.
  by destruct (segmentation_data_layers tail_files two_files "material" 0 0 false
                 {[ 1%positive := wing_key ]} _ eq_refl) as (_ & -> & _).
Defined.

End Resolve.
